(** * Hatch-Generator: the geometry engine, the renderer and the command line

    A shallow embedding of [geometry.h] and [geometry.cpp], of [SVGWriter]
    from [svg_writer.cpp], of [parse] from [cmdline_parser.cpp] and of the
    SVG part of [main].

    Numbers.  The C++ type [double] is modelled twice.  In the modules
    [geometry] and [svg] it is the exact rationals [Q]: every arithmetic
    operator of the source is the corresponding operator of [Q], every
    comparison is decided exactly, and a constant is the exact value of the
    [double] literal.  Equality of numbers is [Qeq] ([==]).  In the module
    [binary64] the code of [geometry.cpp] runs on the IEEE 754 binary64
    format as specified in [SpecFloat]: every operator rounds to nearest,
    ties to even, and there are signed zeros, infinities and NaN.  What
    rounding, underflow or overflow can change is stated about [binary64];
    [binary64.value] is the exact value of a finite [double].

    Undefined behaviour.  Reading [front()] or [operator[]] of a
    [std::vector] past its size and reading a local that was never assigned
    are modelled as explicit faults of a small error monad, so that a
    statement about them is a statement about a value.

    Loops.  The [for] loops run over explicit index lists.  The [while] loop
    of [generateHatch] takes a fuel: the number of times its condition may
    be evaluated.

    <cmath>.  [std::sin], [std::cos] and [M_PI] are parameters of
    [generateHatch]. *)

From Stdlib Require Import QArith Qabs Qpower Lqa Lia List Bool ZArith Permutation.
From Stdlib Require Import SpecFloat.
From Stdlib Require String.
Import ListNotations.
Open Scope Q_scope.

(* ================================================================== *)
(** ** Comparisons of [double] values as booleans *)

(** [x < y] of the source. *)
Definition Qltb (x y : Q) : bool :=
  match x ?= y with
  | Lt => true
  | _ => false
  end.

(** [x > y] of the source. *)
Definition Qgtb (x y : Q) : bool := Qltb y x.

(** [std::min(a, b)]: [(b < a) ? b : a]. *)
Definition std_min (a b : Q) : Q := if Qltb b a then b else a.

(** [std::max(a, b)]: [(a < b) ? b : a]. *)
Definition std_max (a b : Q) : Q := if Qltb a b then b else a.

(* ================================================================== *)
(** ** Faults and the error monad *)

Inductive fault : Type :=
| OutOfBounds      (* a vector read past its size *)
| Uninitialized.   (* a read of a local that was never assigned *)

Inductive result (A : Type) : Type :=
| Ok (a : A)
| Fault (f : fault).
Arguments Ok {A} a.
Arguments Fault {A} f.

Definition bind {A B : Type} (m : result A) (k : A -> result B) : result B :=
  match m with
  | Ok a => k a
  | Fault f => Fault f
  end.

Notation "x <- m ;; k" := (bind m (fun x => k))
  (at level 61, m at next level, right associativity).

(** What a call of a loop with a fuel bound can do. *)
Inductive outcome (A : Type) : Type :=
| Returned (a : A)
| Undefined (f : fault)
| OutOfFuel.
Arguments Returned {A} a.
Arguments Undefined {A} f.
Arguments OutOfFuel {A}.

(* ================================================================== *)
(** ** geometry.h: the data model *)

Module geometry.

(** [constexpr double EPS = 1e-7]: the value of the [double] literal,
    0x1.ad7f29abcaf48p-24 = 944473296573929 / 2^73, just below 1/10^7. *)
Definition EPS : Q := 944473296573929 # 9444732965739290427392.

Record Point : Type := mkPoint { p_x : Q; p_y : Q }.

Record Vector : Type := mkVector { v_x : Q; v_y : Q }.

(** [Vector(const Point &p1, const Point &p2)]: [p2 - p1]. *)
Definition Vector_of_points (p1 p2 : Point) : Vector :=
  mkVector (p_x p2 - p_x p1) (p_y p2 - p_y p1).

Record Line : Type := mkLine { l_a : Q; l_b : Q; l_c : Q }.

(** [Line(const Point &p1, const Point &p2)]. *)
Definition Line_of_points (p1 p2 : Point) : Line :=
  mkLine (p_y p1 - p_y p2)
         (p_x p2 - p_x p1)
         (p_x p1 * p_y p2 - p_x p2 * p_y p1).

(** [Line(const Vector &norm, const Point &p)]. *)
Definition Line_of_norm (norm : Vector) (p : Point) : Line :=
  mkLine (v_x norm) (v_y norm) (- v_x norm * p_x p - v_y norm * p_y p).

Record Segment : Type := mkSegment { s_a : Point; s_b : Point; s_line : Line }.

(** [Segment(const Point &p1, const Point &p2)]. *)
Definition Segment_of (p1 p2 : Point) : Segment :=
  mkSegment p1 p2 (Line_of_points p1 p2).

(** [std::array<Point, 4> points]. *)
Record Rectangle : Type :=
  mkRectangle { pt0 : Point; pt1 : Point; pt2 : Point; pt3 : Point }.

Definition points (r : Rectangle) : list Point :=
  [pt0 r; pt1 r; pt2 r; pt3 r].

(** [points[i]]; the array has four elements, so [i < 4] is in bounds. *)
Definition points_at (r : Rectangle) (i : nat) : Point :=
  nth i (points r) (pt0 r).

(* ================================================================== *)
(** ** geometry.cpp: primitives *)

(** [Point::operator+]. *)
Definition Point_add (p : Point) (v : Vector) : Point :=
  mkPoint (p_x p + v_x v) (p_y p + v_y v).

(** [Vector::operator*]. *)
Definition Vector_scale (v : Vector) (c : Q) : Vector :=
  mkVector (v_x v * c) (v_y v * c).

(** [Rectangle::toSegments]: one [emplace_back] before the loop, then the
    loop over [i = 0 .. size - 2]. *)
Definition toSegments (r : Rectangle) : list Segment :=
  let size := length (points r) in
  Segment_of (points_at r 0) (points_at r (size - 1))
  :: map (fun i => Segment_of (points_at r i) (points_at r (i + 1)))
         (seq 0 (size - 1)).

Definition crossProduct (v1 v2 : Vector) : Q :=
  v_x v1 * v_y v2 - v_y v1 * v_x v2.

Definition dotProduct (v1 v2 : Vector) : Q :=
  v_x v1 * v_x v2 + v_y v1 * v_y v2.

Definition distance2 (p1 p2 : Point) : Q :=
  (p_x p1 - p_x p2) * (p_x p1 - p_x p2) + (p_y p1 - p_y p2) * (p_y p1 - p_y p2).

Definition normOf (l : Line) : Vector := mkVector (l_a l) (l_b l).

Definition isLinesSameOrParallel (l1 l2 : Line) : bool :=
  let norm1 := normOf l1 in
  let norm2 := normOf l2 in
  Qltb (Qabs (crossProduct norm1 norm2)) EPS.

(** [linesIntersection]; the division is the field division of [Q]. *)
Definition linesIntersection (l1 l2 : Line) : Point :=
  let d := l_a l1 * l_b l2 - l_a l2 * l_b l1 in
  let dx := l_b l1 * l_c l2 - l_b l2 * l_c l1 in
  let dy := l_c l1 * l_a l2 - l_c l2 * l_a l1 in
  mkPoint (dx / d) (dy / d).

Definition isInSegment (p : Point) (s : Segment) : bool :=
  let AB := Vector_of_points (s_a s) (s_b s) in
  let AP := Vector_of_points (s_a s) p in
  let PB := Vector_of_points p (s_b s) in
  Qltb (Qabs (crossProduct AB AP)) EPS
  && Qgtb (dotProduct AB AP) 0
  && Qgtb (dotProduct AB PB) 0.

(* ================================================================== *)
(** ** geometry.cpp: the sweep of [generateHatch] *)

(** [v[i]] of a [std::vector<Point>]; past the size it is a fault. *)
Definition vec_at (v : list Point) (i : nat) : result Point :=
  match nth_error v i with
  | Some p => Ok p
  | None => Fault OutOfBounds
  end.

(** A [for] loop over the indices [idx] that threads the locals [s]. *)
Fixpoint for_each {S : Type} (idx : list nat) (body : nat -> S -> result S)
    (s : S) : result S :=
  match idx with
  | [] => Ok s
  | i :: rest => s' <- body i s ;; for_each rest body s'
  end.

(** The first inner loop: the crossing of the hatch line with the line of
    every edge that is not parallel to it, in the order of the edges. *)
Fixpoint collectIntersections (rectSegments : list Segment) (hatchLine : Line)
    : list Point :=
  match rectSegments with
  | [] => []
  | segment :: rest =>
      if negb (isLinesSameOrParallel (s_line segment) hatchLine)
      then linesIntersection (s_line segment) hatchLine
           :: collectIntersections rest hatchLine
      else collectIntersections rest hatchLine
  end.

(** The locals of the farthest-pair scan.  [farthest1] and [farthest2] are
    declared without an initialiser: [None] is "never assigned". *)
Record Farthest : Type :=
  mkFarthest {
    maxDistance2 : Q;
    farthest1 : option nat;
    farthest2 : option nat
  }.

(** The two nested loops over [i < j < intersections.size()]. *)
Definition farthestScan (intersections : list Point) : result Farthest :=
  let size := length intersections in
  for_each (seq 0 size)
    (fun i far =>
       for_each (seq (i + 1) (size - (i + 1)))
         (fun j far =>
            pi <- vec_at intersections i ;;
            pj <- vec_at intersections j ;;
            let d := distance2 pi pj in
            Ok (if Qltb (maxDistance2 far) d
                then mkFarthest d (Some i) (Some j)
                else far))
         far)
    (mkFarthest 0 None None).

Fixpoint remove_at (v : list Point) (i : nat) : list Point :=
  match v, i with
  | [], _ => []
  | _ :: rest, O => rest
  | p :: rest, S i' => p :: remove_at rest i'
  end.

(** [v.erase(v.begin() + idx)] where [idx] is a local that may never have
    been assigned. *)
Definition erase (v : list Point) (idx : option nat) : result (list Point) :=
  match idx with
  | None => Fault Uninitialized
  | Some i =>
      if (i <? length v)%nat then Ok (remove_at v i) else Fault OutOfBounds
  end.

(** The block guarded by [intersections.size() == 4]. *)
Definition reduceIntersections (intersections : list Point)
    : result (list Point) :=
  if (length intersections =? 4)%nat then
    far <- farthestScan intersections ;;
    v <- erase intersections (farthest2 far) ;;
    erase v (farthest1 far)
  else Ok intersections.

(** The second inner loop: the first edge that contains
    [intersections.front()] yields the segment to append and breaks. *)
Fixpoint findValid (rectSegments : list Segment) (intersections : list Point)
    : result (option Segment) :=
  match rectSegments with
  | [] => Ok None
  | segment :: rest =>
      front <- vec_at intersections 0 ;;
      if isInSegment front segment then
        i0 <- vec_at intersections 0 ;;
        i1 <- vec_at intersections 1 ;;
        Ok (Some (Segment_of i0 i1))
      else findValid rest intersections
  end.

(** The variables that live across iterations of the [while] loop. *)
Record SweepState : Type := mkSweepState {
  hatchNorm : Vector;
  point : Point;
  res : list Segment;
  forward : bool;
  isContinue : bool;
  firstIter : bool
}.

(** One iteration of the [while] loop. *)
Definition sweepBody (rect : Rectangle) (rectSegments : list Segment)
    (st : SweepState) : result SweepState :=
  let hatchLine := Line_of_norm (hatchNorm st) (point st) in
  let collected := collectIntersections rectSegments hatchLine in
  intersections <- reduceIntersections collected ;;
  found <- findValid rectSegments intersections ;;
  let isContinue1 := match found with Some _ => true | None => false end in
  let res1 := match found with Some s => res st ++ [s] | None => res st end in
  if negb isContinue1 && forward st && negb (firstIter st) then
    let hatchNorm1 := Vector_scale (hatchNorm st) (-1) in
    Ok (mkSweepState hatchNorm1 (Point_add (points_at rect 0) hatchNorm1)
                     res1 false true false)
  else
    Ok (mkSweepState (hatchNorm st) (Point_add (point st) (hatchNorm st))
                     res1 (forward st) isContinue1 false).

(** The [while (forward || isContinue)] loop, at most [fuel] evaluations of
    its condition. *)
Fixpoint sweepLoop (fuel : nat) (rect : Rectangle) (rectSegments : list Segment)
    (st : SweepState) : outcome (list Segment) :=
  match fuel with
  | O => OutOfFuel
  | S fuel' =>
      if forward st || isContinue st then
        match sweepBody rect rectSegments st with
        | Ok st' => sweepLoop fuel' rect rectSegments st'
        | Fault f => Undefined f
        end
      else Returned (res st)
  end.

(** The state on entry to the loop, for a given offset vector. *)
Definition initialState (rect : Rectangle) (norm : Vector) : SweepState :=
  mkSweepState norm (points_at rect 0) [] true false true.

Section Libm.

(** [std::sin], [std::cos] and [M_PI] of <cmath>. *)
Variables (sin cos : Q -> Q) (M_PI : Q).

Definition hatchNormOf (angle step : Q) : Vector :=
  let rad := angle * M_PI / 180 in
  Vector_scale (mkVector (sin rad) (cos rad)) step.

Definition generateHatch (fuel : nat) (rect : Rectangle) (angle step : Q)
    : outcome (list Segment) :=
  let hatchNorm0 := hatchNormOf angle step in
  let rectSegments := toSegments rect in
  sweepLoop fuel rect rectSegments (initialState rect hatchNorm0).

End Libm.

End geometry.

(* ================================================================== *)
(** ** svg_writer.cpp: the bounding box and the scale of [SVGWriter::draw] *)

Module svg.
Import geometry.

Inductive LineFormat : Type := CONTOUR | HATCH.

(** [std::numeric_limits<double>::max()]: (2^53 - 1) * 2^971. *)
Definition DBL_MAX : Q := inject_Z (2 ^ 1024 - 2 ^ 971).

(** [std::numeric_limits<double>::min()]: the least positive normal value,
    2^-1022. *)
Definition DBL_MIN : Q := 1 # (2 ^ 1022).

(** The members of [SVGWriter] that [draw] reads.  [formatSegments] lists the
    entries of the [unordered_map] in the order its iteration visits them. *)
Record SVGWriter : Type := mkSVGWriter {
  formatSegments : list (LineFormat * list Segment);
  width : Q;
  height : Q
}.

Record Box : Type := mkBox { minX : Q; minY : Q; maxX : Q; maxY : Q }.

(** The body of the inner loop of the bounding-box pass. *)
Definition growBox (b : Box) (segment : Segment) : Box :=
  let minX1 := std_min (minX b) (p_x (s_a segment)) in
  let minX2 := std_min minX1 (p_x (s_b segment)) in
  let minY1 := std_min (minY b) (p_y (s_a segment)) in
  let minY2 := std_min minY1 (p_y (s_b segment)) in
  let maxX1 := std_max (maxX b) (p_x (s_a segment)) in
  let maxX2 := std_max maxX1 (p_x (s_b segment)) in
  let maxY1 := std_max (maxY b) (p_y (s_a segment)) in
  let maxY2 := std_max maxY1 (p_y (s_b segment)) in
  mkBox minX2 minY2 maxX2 maxY2.

(** The bounding-box pass of [draw]. *)
Definition boundingBox (w : SVGWriter) : Box :=
  fold_left (fun b pair => fold_left growBox (snd pair) b)
            (formatSegments w)
            (mkBox DBL_MAX DBL_MAX DBL_MIN DBL_MIN).

(** [scale] of [draw]. *)
Definition scaleOf (w : SVGWriter) : Q :=
  let b := boundingBox w in
  let bw := maxX b - minX b in
  let bh := maxY b - minY b in
  std_min (width w / bw) (height w / bh).

(** One emitted [<line>] element: its four coordinates and stroke width. *)
Record SvgLine : Type := mkSvgLine {
  x1 : Q; y1 : Q; x2 : Q; y2 : Q; stroke_width : Q
}.

(** [strokeWidth]: initialised to 1.5, then set by the [switch]. *)
Definition strokeWidthOf (lf : LineFormat) : Q :=
  let strokeWidth := 15 # 10 in
  match lf with
  | CONTOUR => 2
  | HATCH => 1
  end.

(** The emitting pass of [draw]. *)
Definition draw (w : SVGWriter) : list SvgLine :=
  let b := boundingBox w in
  let scale := scaleOf w in
  flat_map
    (fun pair =>
       map (fun segment =>
              mkSvgLine (scale * (p_x (s_a segment) - minX b))
                        (scale * (- p_y (s_a segment) + maxY b))
                        (scale * (p_x (s_b segment) - minX b))
                        (scale * (- p_y (s_b segment) + maxY b))
                        (strokeWidthOf (fst pair)))
           (snd pair))
    (formatSegments w).

(** *** [SVGWriter::drawSegments] and the constructor *)

Definition LineFormat_eqb (a b : LineFormat) : bool :=
  match a, b with
  | CONTOUR, CONTOUR => true
  | HATCH, HATCH => true
  | _, _ => false
  end.

(** [formatSegments[lf].insert(end, segments)] on the entries of the map:
    [operator[]] finds the entry of [lf] or creates an empty one.  Where a
    new entry appears in the iteration order is unspecified by the standard;
    it is put last here. *)
Fixpoint insertAtKey (fs : list (LineFormat * list Segment)) (lf : LineFormat)
    (segments : list Segment) : list (LineFormat * list Segment) :=
  match fs with
  | [] => [(lf, [] ++ segments)]
  | (k, v) :: rest =>
      if LineFormat_eqb k lf then (k, v ++ segments) :: rest
      else (k, v) :: insertAtKey rest lf segments
  end.

(** [SVGWriter::drawSegments]. *)
Definition drawSegments (w : SVGWriter) (segments : list Segment)
    (lf : LineFormat) : SVGWriter :=
  mkSVGWriter (insertAtKey (formatSegments w) lf segments) (width w) (height w).

(** The members after the constructor [SVGWriter(outFile, w, h)]: an empty
    map.  The output file is outside the model. *)
Definition newWriter (w h : Q) : SVGWriter := mkSVGWriter [] w h.

End svg.

(* ================================================================== *)
(** ** cmdline_parser.cpp: [parse]

    [argv] is the list of its [argc] words.  [std::stod] is a parameter:
    it returns the number it reads or throws. *)

Module cmdline_parser.
Import String geometry.

Definition POINTS_ARG_NAME : String.string := "--points"%string.
Definition ANGLE_ARG_NAME : String.string := "--angle"%string.
Definition STEP_ARG_NAME : String.string := "--step"%string.
Definition SVG_ARG_NAME : String.string := "--svg"%string.

(** [struct Config]; the path is kept as the string it is built from. *)
Record Config : Type := mkConfig {
  rect : Rectangle;
  angle : Q;
  step : Q;
  outSVG : option String.string
}.

(** What [parse] throws: its own [std::invalid_argument] with the message,
    or the exception of a failed [std::stod], with the string it was
    given. *)
Inductive exception : Type :=
| invalid_argument (what : String.string)
| stod_exception (arg : String.string).

Inductive parsed (A : Type) : Type :=
| Parsed (a : A)
| Thrown (e : exception)
| ParseOutOfFuel.
Arguments Parsed {A} a.
Arguments Thrown {A} e.
Arguments ParseOutOfFuel {A}.

Definition bindP {A B : Type} (m : parsed A) (k : A -> parsed B) : parsed B :=
  match m with
  | Parsed a => k a
  | Thrown e => Thrown e
  | ParseOutOfFuel => ParseOutOfFuel
  end.

Notation "x <~ m ;; k" := (bindP m (fun x => k))
  (at level 61, m at next level, right associativity).

(** The four [std::optional] locals of [parse]. *)
Record Locals : Type := mkLocals {
  l_rect : option Rectangle;
  l_angle : option Q;
  l_step : option Q;
  l_svg : option String.string
}.

Definition has_value {A : Type} (o : option A) : bool :=
  match o with
  | Some _ => true
  | None => false
  end.

Section Stod.

(** [std::stod]: [None] when it throws. *)
Variable stod : String.string -> option Q.

(** [argv[i]]; every use is guarded by a comparison with [argc]. *)
Definition argv_at (argv : list String.string) (i : nat) : String.string :=
  nth i argv String.EmptyString.

Definition stod_at (argv : list String.string) (i : nat) : parsed Q :=
  match stod (argv_at argv i) with
  | Some d => Parsed d
  | None => Thrown (stod_exception (argv_at argv i))
  end.

(** One round of the loop over [j]: the point
    [{stod(argv[i + j * 2 + 1]), stod(argv[i + j * 2 + 2])}]. *)
Definition readPoint (argv : list String.string) (i j : nat) : parsed Point :=
  x <~ stod_at argv (i + j * 2 + 1) ;;
  y <~ stod_at argv (i + j * 2 + 2) ;;
  Parsed (mkPoint x y).

(** The [for] loop of [parse]; [fuel] bounds the evaluations of [i < argc]. *)
Fixpoint parseLoop (fuel : nat) (argv : list String.string) (i : nat) (st : Locals)
    : parsed Locals :=
  match fuel with
  | O => ParseOutOfFuel
  | S fuel' =>
      let argc := List.length argv in
      if (i <? argc)%nat then
        let currentArg := argv_at argv i in
        if String.eqb currentArg POINTS_ARG_NAME then
          if has_value (l_rect st) then
            Thrown (invalid_argument
                      (POINTS_ARG_NAME ++ " argument gets more then once")%string)
          else if (argc <=? i + 8)%nat then
            Thrown (invalid_argument
                      ("Expected <double> x 8 after " ++ POINTS_ARG_NAME)%string)
          else
            p0 <~ readPoint argv i 0 ;;
            p1 <~ readPoint argv i 1 ;;
            p2 <~ readPoint argv i 2 ;;
            p3 <~ readPoint argv i 3 ;;
            parseLoop fuel' argv (i + 8 + 1)
              (mkLocals (Some (mkRectangle p0 p1 p2 p3))
                        (l_angle st) (l_step st) (l_svg st))
        else if String.eqb currentArg ANGLE_ARG_NAME then
          if has_value (l_angle st) then
            Thrown (invalid_argument
                      (ANGLE_ARG_NAME ++ "argument gets more then once")%string)
          else if (argc <=? i + 1)%nat then
            Thrown (invalid_argument
                      ("Expected <double> after " ++ ANGLE_ARG_NAME)%string)
          else
            a <~ stod_at argv (i + 1) ;;
            parseLoop fuel' argv (i + 1 + 1)
              (mkLocals (l_rect st) (Some a) (l_step st) (l_svg st))
        else if String.eqb currentArg STEP_ARG_NAME then
          if has_value (l_step st) then
            Thrown (invalid_argument
                      (STEP_ARG_NAME ++ " argument gets more then once")%string)
          else if (argc <=? i + 1)%nat then
            Thrown (invalid_argument
                      ("Expected <double> after " ++ STEP_ARG_NAME)%string)
          else
            s <~ stod_at argv (i + 1) ;;
            parseLoop fuel' argv (i + 1 + 1)
              (mkLocals (l_rect st) (l_angle st) (Some s) (l_svg st))
        else if String.eqb currentArg SVG_ARG_NAME then
          if has_value (l_svg st) then
            Thrown (invalid_argument
                      (SVG_ARG_NAME ++ " argument gets more then once")%string)
          else if (argc <=? i + 1)%nat then
            Thrown (invalid_argument
                      ("Expected <path> after " ++ SVG_ARG_NAME)%string)
          else
            parseLoop fuel' argv (i + 1 + 1)
              (mkLocals (l_rect st) (l_angle st) (l_step st)
                        (Some (argv_at argv (i + 1))))
        else
          Thrown (invalid_argument
                    ("Unexpected argument: " ++ currentArg)%string)
      else Parsed st
  end.

(** [parse(argc, argv)], with [argc = length argv]. *)
Definition parse (argv : list String.string) : parsed Config :=
  st <~ parseLoop (S (List.length argv)) argv 1 (mkLocals None None None None) ;;
  match l_rect st, l_angle st, l_step st with
  | Some r, Some a, Some s => Parsed (mkConfig r a s (l_svg st))
  | _, _, _ => Thrown (invalid_argument "Required arg missing"%string)
  end.

End Stod.

End cmdline_parser.

(* ================================================================== *)
(** ** main.cpp: the writer that [main] fills *)

(** [SVGWriter writer(path, 400, 400)], then the two [drawSegments] calls. *)
Definition mainWriter (rect : geometry.Rectangle)
    (hatch : list geometry.Segment) : svg.SVGWriter :=
  svg.drawSegments
    (svg.drawSegments (svg.newWriter 400 400) hatch svg.HATCH)
    (geometry.toSegments rect) svg.CONTOUR.

(* ================================================================== *)
(** ** geometry.h and geometry.cpp in binary64

    The same code with [double] as the IEEE 754 binary64 format: every
    operator rounds to nearest, ties to even, and there are signed zeros,
    infinities and NaN, as specified in [SpecFloat].  Each operator of the
    source is one rounded operation: a product and the sum that follows it
    are not fused.  The statements that depend on rounding, underflow or
    overflow are made about these definitions. *)

Module binary64.

Definition prec : Z := 53.
Definition emax : Z := 1024.

(** A [double]: a signed zero, a signed infinity, NaN, or a finite number
    [(-1)^s * m * 2^e]. *)
Definition double : Type := spec_float.

Definition add : double -> double -> double := SFadd prec emax.
Definition sub : double -> double -> double := SFsub prec emax.
Definition mul : double -> double -> double := SFmul prec emax.
Definition div : double -> double -> double := SFdiv prec emax.
Definition opp : double -> double := SFopp.

(** [std::abs]. *)
Definition abs : double -> double := SFabs.

(** [x < y]: false when either side is NaN. *)
Definition ltb : double -> double -> bool := SFltb.

(** [x > y]. *)
Definition gtb (x y : double) : bool := ltb y x.

(** The [double] nearest to [m * 2^e]; that number itself when it has at
    most 53 significant bits and is in range. *)
Definition double_of (m e : Z) : double := binary_normalize prec emax m e false.

Definition zero : double := S754_zero false.

(** The number that a finite [double] stands for; 0 for the infinities and
    NaN. *)
Definition value (x : double) : Q :=
  match x with
  | S754_finite s m e => inject_Z (cond_Zopp s (Zpos m)) * 2 ^ e
  | _ => 0
  end.

Definition is_finite (x : double) : bool :=
  match x with
  | S754_zero _ | S754_finite _ _ _ => true
  | _ => false
  end.

Declare Scope double_scope.
Delimit Scope double_scope with double.
Infix "+" := add : double_scope.
Infix "-" := sub : double_scope.
Infix "*" := mul : double_scope.
Infix "/" := div : double_scope.
Notation "- x" := (opp x) : double_scope.
Infix "<?" := ltb : double_scope.
Infix ">?" := gtb : double_scope.
Local Open Scope double_scope.

(** [constexpr double EPS = 1e-7]: 0x1.ad7f29abcaf48p-24. *)
Definition EPS : double := double_of 7555786372591432 (-76).

Record Point : Type := mkPoint { p_x : double; p_y : double }.

Record Vector : Type := mkVector { v_x : double; v_y : double }.

(** [Vector(const Point &p1, const Point &p2)]: [p2 - p1]. *)
Definition Vector_of_points (p1 p2 : Point) : Vector :=
  mkVector (p_x p2 - p_x p1) (p_y p2 - p_y p1).

Record Line : Type := mkLine { l_a : double; l_b : double; l_c : double }.

(** [Line(const Point &p1, const Point &p2)]. *)
Definition Line_of_points (p1 p2 : Point) : Line :=
  mkLine (p_y p1 - p_y p2)
         (p_x p2 - p_x p1)
         (p_x p1 * p_y p2 - p_x p2 * p_y p1).

(** [Line(const Vector &norm, const Point &p)]. *)
Definition Line_of_norm (norm : Vector) (p : Point) : Line :=
  mkLine (v_x norm) (v_y norm) (- v_x norm * p_x p - v_y norm * p_y p).

Record Segment : Type := mkSegment { s_a : Point; s_b : Point; s_line : Line }.

(** [Segment(const Point &p1, const Point &p2)]. *)
Definition Segment_of (p1 p2 : Point) : Segment :=
  mkSegment p1 p2 (Line_of_points p1 p2).

Record Rectangle : Type :=
  mkRectangle { pt0 : Point; pt1 : Point; pt2 : Point; pt3 : Point }.

Definition points (r : Rectangle) : list Point :=
  [pt0 r; pt1 r; pt2 r; pt3 r].

Definition points_at (r : Rectangle) (i : nat) : Point :=
  nth i (points r) (pt0 r).

(** [Point::operator+]. *)
Definition Point_add (p : Point) (v : Vector) : Point :=
  mkPoint (p_x p + v_x v) (p_y p + v_y v).

(** [Vector::operator*]. *)
Definition Vector_scale (v : Vector) (c : double) : Vector :=
  mkVector (v_x v * c) (v_y v * c).

Definition toSegments (r : Rectangle) : list Segment :=
  let size := length (points r) in
  Segment_of (points_at r 0) (points_at r (size - 1))
  :: map (fun i => Segment_of (points_at r i) (points_at r (i + 1)))
         (seq 0 (size - 1)).

Definition crossProduct (v1 v2 : Vector) : double :=
  v_x v1 * v_y v2 - v_y v1 * v_x v2.

Definition dotProduct (v1 v2 : Vector) : double :=
  v_x v1 * v_x v2 + v_y v1 * v_y v2.

Definition distance2 (p1 p2 : Point) : double :=
  (p_x p1 - p_x p2) * (p_x p1 - p_x p2) + (p_y p1 - p_y p2) * (p_y p1 - p_y p2).

Definition normOf (l : Line) : Vector := mkVector (l_a l) (l_b l).

Definition isLinesSameOrParallel (l1 l2 : Line) : bool :=
  let norm1 := normOf l1 in
  let norm2 := normOf l2 in
  abs (crossProduct norm1 norm2) <? EPS.

Definition linesIntersection (l1 l2 : Line) : Point :=
  let d := l_a l1 * l_b l2 - l_a l2 * l_b l1 in
  let dx := l_b l1 * l_c l2 - l_b l2 * l_c l1 in
  let dy := l_c l1 * l_a l2 - l_c l2 * l_a l1 in
  mkPoint (dx / d) (dy / d).

Definition isInSegment (p : Point) (s : Segment) : bool :=
  let AB := Vector_of_points (s_a s) (s_b s) in
  let AP := Vector_of_points (s_a s) p in
  let PB := Vector_of_points p (s_b s) in
  (abs (crossProduct AB AP) <? EPS)
  && (dotProduct AB AP >? zero)
  && (dotProduct AB PB >? zero).

(** *** The sweep of [generateHatch] *)

Definition vec_at (v : list Point) (i : nat) : result Point :=
  match nth_error v i with
  | Some p => Ok p
  | None => Fault OutOfBounds
  end.

Fixpoint collectIntersections (rectSegments : list Segment) (hatchLine : Line)
    : list Point :=
  match rectSegments with
  | [] => []
  | segment :: rest =>
      if negb (isLinesSameOrParallel (s_line segment) hatchLine)
      then linesIntersection (s_line segment) hatchLine
           :: collectIntersections rest hatchLine
      else collectIntersections rest hatchLine
  end.

Record Farthest : Type :=
  mkFarthest {
    maxDistance2 : double;
    farthest1 : option nat;
    farthest2 : option nat
  }.

Definition farthestScan (intersections : list Point) : result Farthest :=
  let size := length intersections in
  geometry.for_each (seq 0 size)
    (fun i far =>
       geometry.for_each (seq (i + 1) (size - (i + 1)))
         (fun j far =>
            pi <- vec_at intersections i ;;
            pj <- vec_at intersections j ;;
            let d := distance2 pi pj in
            Ok (if maxDistance2 far <? d
                then mkFarthest d (Some i) (Some j)
                else far))
         far)
    (mkFarthest zero None None).

Fixpoint remove_at (v : list Point) (i : nat) : list Point :=
  match v, i with
  | [], _ => []
  | _ :: rest, O => rest
  | p :: rest, S i' => p :: remove_at rest i'
  end.

Definition erase (v : list Point) (idx : option nat) : result (list Point) :=
  match idx with
  | None => Fault Uninitialized
  | Some i =>
      if (i <? length v)%nat then Ok (remove_at v i) else Fault OutOfBounds
  end.

Definition reduceIntersections (intersections : list Point)
    : result (list Point) :=
  if (length intersections =? 4)%nat then
    far <- farthestScan intersections ;;
    v <- erase intersections (farthest2 far) ;;
    erase v (farthest1 far)
  else Ok intersections.

Fixpoint findValid (rectSegments : list Segment) (intersections : list Point)
    : result (option Segment) :=
  match rectSegments with
  | [] => Ok None
  | segment :: rest =>
      front <- vec_at intersections 0 ;;
      if isInSegment front segment then
        i0 <- vec_at intersections 0 ;;
        i1 <- vec_at intersections 1 ;;
        Ok (Some (Segment_of i0 i1))
      else findValid rest intersections
  end.

Record SweepState : Type := mkSweepState {
  hatchNorm : Vector;
  point : Point;
  res : list Segment;
  forward : bool;
  isContinue : bool;
  firstIter : bool
}.

(** One iteration of the [while] loop. *)
Definition sweepBody (rect : Rectangle) (rectSegments : list Segment)
    (st : SweepState) : result SweepState :=
  let hatchLine := Line_of_norm (hatchNorm st) (point st) in
  let collected := collectIntersections rectSegments hatchLine in
  intersections <- reduceIntersections collected ;;
  found <- findValid rectSegments intersections ;;
  let isContinue1 := match found with Some _ => true | None => false end in
  let res1 := match found with Some s => res st ++ [s] | None => res st end in
  if negb isContinue1 && forward st && negb (firstIter st) then
    let hatchNorm1 := Vector_scale (hatchNorm st) (double_of (-1) 0) in
    Ok (mkSweepState hatchNorm1 (Point_add (points_at rect 0) hatchNorm1)
                     res1 false true false)
  else
    Ok (mkSweepState (hatchNorm st) (Point_add (point st) (hatchNorm st))
                     res1 (forward st) isContinue1 false).

Fixpoint sweepLoop (fuel : nat) (rect : Rectangle) (rectSegments : list Segment)
    (st : SweepState) : outcome (list Segment) :=
  match fuel with
  | O => OutOfFuel
  | S fuel' =>
      if forward st || isContinue st then
        match sweepBody rect rectSegments st with
        | Ok st' => sweepLoop fuel' rect rectSegments st'
        | Fault f => Undefined f
        end
      else Returned (res st)
  end.

Definition initialState (rect : Rectangle) (norm : Vector) : SweepState :=
  mkSweepState norm (points_at rect 0) [] true false true.

Section Libm.

(** [std::sin], [std::cos] and [M_PI] of <cmath>. *)
Variables (sin cos : double -> double) (M_PI : double).

Definition hatchNormOf (angle step : double) : Vector :=
  let rad := angle * M_PI / double_of 180 0 in
  Vector_scale (mkVector (sin rad) (cos rad)) step.

Definition generateHatch (fuel : nat) (rect : Rectangle) (angle step : double)
    : outcome (list Segment) :=
  let hatchNorm0 := hatchNormOf angle step in
  let rectSegments := toSegments rect in
  sweepLoop fuel rect rectSegments (initialState rect hatchNorm0).

End Libm.

End binary64.

(* ================================================================== *)
(** ** Vocabulary of the statements *)

Import geometry.

(** Equality of points, coordinate by coordinate. *)
Definition Point_eq (p q : Point) : Prop :=
  p_x p == p_x q /\ p_y p == p_y q.

Definition Point_eqb (p q : Point) : bool :=
  Qeq_bool (p_x p) (p_x q) && Qeq_bool (p_y p) (p_y q).

(** In how many segments of [segs] the point [p] is the start [a]. *)
Definition startsAt (p : Point) (segs : list Segment) : nat :=
  length (filter (fun s => Point_eqb (s_a s) p) segs).

(** In how many segments of [segs] the point [p] is the end [b]. *)
Definition endsAt (p : Point) (segs : list Segment) : nat :=
  length (filter (fun s => Point_eqb (s_b s) p) segs).

(** [p] lies on the line through the endpoints of [s], strictly between
    them: [p = a + t (b - a)] for some [0 < t < 1], the endpoints distinct. *)
Definition strictlyBetween (p : Point) (s : Segment) : Prop :=
  ~ Point_eq (s_a s) (s_b s) /\
  exists t : Q,
    0 < t /\ t < 1 /\
    p_x p == p_x (s_a s) + t * (p_x (s_b s) - p_x (s_a s)) /\
    p_y p == p_y (s_a s) + t * (p_y (s_b s) - p_y (s_a s)).

(** [p] satisfies the equation [a x + b y + c = 0] of [l]. *)
Definition onLine (p : Point) (l : Line) : Prop :=
  l_a l * p_x p + l_b l * p_y p + l_c l == 0.

(** The candidate points of the probe made in state [st]: the crossings
    collected by the first inner loop of the body, after the reduction. *)
Definition collectedAt (rectSegments : list Segment) (st : SweepState)
    : list Point :=
  collectIntersections rectSegments (Line_of_norm (hatchNorm st) (point st)).

Definition candidatesAt (rectSegments : list Segment) (st : SweepState)
    : result (list Point) :=
  reduceIntersections (collectedAt rectSegments st).

(** No point of [candidates] is inside an edge of [rectSegments]. *)
Definition noCandidateInside (rectSegments : list Segment)
    (candidates : list Point) : bool :=
  forallb (fun p => forallb (fun s => negb (isInSegment p s)) rectSegments)
          candidates.


(** The state in which the body leaves the loop when it reverses the sweep. *)
Definition reversedState (rect : Rectangle) (n : Vector) (r : list Segment)
    : SweepState :=
  mkSweepState (Vector_scale n (-1))
               (Point_add (points_at rect 0) (Vector_scale n (-1)))
               r false true false.

(** The state in which the body leaves the loop otherwise. *)
Definition advancedState (st : SweepState) (r : list Segment) (c : bool)
    : SweepState :=
  mkSweepState (hatchNorm st) (Point_add (point st) (hatchNorm st))
               r (forward st) c false.

(** The squared distance between the [i]-th and the [j]-th point of [ps]. *)
Definition pairDistance (ps : list Point) (i j : nat) : Q :=
  distance2 (nth i ps (mkPoint 0 0)) (nth j ps (mkPoint 0 0)).

(** The pair [(i, j)] is visited by the two nested loops of the farthest-pair
    scan before the pair [(i', j')]. *)
Definition scannedBefore (i j i' j' : nat) : Prop :=
  (i < i')%nat \/ (i = i' /\ (j < j')%nat).

(** The points of [ps] at the indices other than [f1] and [f2], in order. *)
Definition othersThan (f1 f2 : nat) (ps : list Point) : list Point :=
  map snd
      (filter (fun e => negb (Nat.eqb (fst e) f1) && negb (Nat.eqb (fst e) f2))
              (combine (seq 0 (length ps)) ps)).

(** *** The sweep *)








(** *** The renderer *)

(** The vector stored under the tag [lf], empty when the tag is absent. *)
Definition segmentsOf (w : svg.SVGWriter) (lf : svg.LineFormat)
    : list Segment :=
  match find (fun e => svg.LineFormat_eqb (fst e) lf) (svg.formatSegments w)
  with
  | Some e => snd e
  | None => []
  end.

(** All segments of all tags, in the order [draw] visits them. *)
Definition allSegments (w : svg.SVGWriter) : list Segment :=
  flat_map snd (svg.formatSegments w).

Definition xCoords (segs : list Segment) : list Q :=
  flat_map (fun s => [p_x (s_a s); p_x (s_b s)]) segs.

Definition yCoords (segs : list Segment) : list Q :=
  flat_map (fun s => [p_y (s_a s); p_y (s_b s)]) segs.

(** [m] is the least / the greatest element of [l], up to [==]. *)
Definition isLeast (m : Q) (l : list Q) : Prop :=
  (exists x, In x l /\ m == x) /\ forall x, In x l -> m <= x.

Definition isGreatest (m : Q) (l : list Q) : Prop :=
  (exists x, In x l /\ m == x) /\ forall x, In x l -> x <= m.

(** The lines of [lines] whose stroke width is [sw]. *)
Definition strokeCount (sw : Q) (lines : list svg.SvgLine) : nat :=
  length (filter (fun ln => Qeq_bool (svg.stroke_width ln) sw) lines).

(** *** The command line *)

Module cmdline_args.
Import String cmdline_parser.

(** A flag together with the values that follow it on the command line. *)
Inductive group : Type :=
| GPoints (x1 y1 x2 y2 x3 y3 x4 y4 : string)
| GAngle (a : string)
| GStep (s : string)
| GSvg (path : string).

Definition flagOf (g : group) : string :=
  match g with
  | GPoints _ _ _ _ _ _ _ _ => POINTS_ARG_NAME
  | GAngle _ => ANGLE_ARG_NAME
  | GStep _ => STEP_ARG_NAME
  | GSvg _ => SVG_ARG_NAME
  end.

(** The words of a group as they stand in [argv]. *)
Definition render (g : group) : list string :=
  match g with
  | GPoints x1 y1 x2 y2 x3 y3 x4 y4 =>
      [POINTS_ARG_NAME; x1; y1; x2; y2; x3; y3; x4; y4]
  | GAngle a => [ANGLE_ARG_NAME; a]
  | GStep s => [STEP_ARG_NAME; s]
  | GSvg path => [SVG_ARG_NAME; path]
  end.

Section Stod.

Variable stod : string -> option Q.

(** The values a group stands for, when [stod] accepts its numbers. *)
Definition rectOf (g : group) : option Rectangle :=
  match g with
  | GPoints x1 y1 x2 y2 x3 y3 x4 y4 =>
      match stod x1, stod y1, stod x2, stod y2,
            stod x3, stod y3, stod x4, stod y4 with
      | Some a1, Some b1, Some a2, Some b2,
        Some a3, Some b3, Some a4, Some b4 =>
          Some (mkRectangle (mkPoint a1 b1) (mkPoint a2 b2)
                            (mkPoint a3 b3) (mkPoint a4 b4))
      | _, _, _, _, _, _, _, _ => None
      end
  | _ => None
  end.

Definition angleOf (g : group) : option Q :=
  match g with GAngle a => stod a | _ => None end.

Definition stepOf (g : group) : option Q :=
  match g with GStep s => stod s | _ => None end.

Definition svgOf (g : group) : option string :=
  match g with GSvg path => Some path | _ => None end.

(** [stod] accepts every number of the group. *)
Definition numbersParse (g : group) : Prop :=
  match g with
  | GPoints _ _ _ _ _ _ _ _ => rectOf g <> None
  | GAngle _ => angleOf g <> None
  | GStep _ => stepOf g <> None
  | GSvg _ => True
  end.

(** The first value that [f] finds in the groups. *)
Fixpoint pick {A : Type} (f : group -> option A) (gs : list group)
    : option A :=
  match gs with
  | [] => None
  | g :: rest =>
      match f g with
      | Some v => Some v
      | None => pick f rest
      end
  end.


(** The locals after the group [g] has been read. *)
Definition update (st : Locals) (g : group) : Locals :=
  match g with
  | GPoints _ _ _ _ _ _ _ _ =>
      mkLocals (rectOf g) (l_angle st) (l_step st) (l_svg st)
  | GAngle _ => mkLocals (l_rect st) (angleOf g) (l_step st) (l_svg st)
  | GStep _ => mkLocals (l_rect st) (l_angle st) (stepOf g) (l_svg st)
  | GSvg _ => mkLocals (l_rect st) (l_angle st) (l_step st) (svgOf g)
  end.

(** The flag of [g] has not been seen in the state [st]. *)
Definition fresh (st : Locals) (g : group) : Prop :=
  match g with
  | GPoints _ _ _ _ _ _ _ _ => l_rect st = None
  | GAngle _ => l_angle st = None
  | GStep _ => l_step st = None
  | GSvg _ => l_svg st = None
  end.

Fixpoint acceptable (st : Locals) (gs : list group) : Prop :=
  match gs with
  | [] => True
  | g :: rest => fresh st g /\ numbersParse g /\ acceptable (update st g) rest
  end.

End Stod.

(** The messages of the exceptions that concern the flag of [g]. *)
Definition repeatedMessage (g : group) : string :=
  match g with
  | GPoints _ _ _ _ _ _ _ _ => "--points argument gets more then once"
  | GAngle _ => "--angleargument gets more then once"
  | GStep _ => "--step argument gets more then once"
  | GSvg _ => "--svg argument gets more then once"
  end.

Definition expectedMessage (g : group) : string :=
  match g with
  | GPoints _ _ _ _ _ _ _ _ => "Expected <double> x 8 after --points"
  | GAngle _ => "Expected <double> after --angle"
  | GStep _ => "Expected <double> after --step"
  | GSvg _ => "Expected <path> after --svg"
  end.

(** How many words [parse] requires behind the flag of [g]. *)
Definition valuesNeeded (g : group) : nat :=
  match g with
  | GPoints _ _ _ _ _ _ _ _ => 8
  | _ => 1
  end.

Definition orElse {A : Type} (o d : option A) : option A :=
  match o with
  | Some v => Some v
  | None => d
  end.

(** What the loop returns: never out of fuel when the fuel covers the
    remaining words, and a local that is set on return was set on entry or
    its flag is a word of [argv]. *)
Definition loopPost (argv : list string) (st : Locals)
    (r : parsed Locals) : Prop :=
  match r with
  | ParseOutOfFuel => False
  | Thrown _ => True
  | Parsed st' =>
      (l_rect st' <> None -> l_rect st <> None \/ In POINTS_ARG_NAME argv)
      /\ (l_angle st' <> None -> l_angle st <> None \/ In ANGLE_ARG_NAME argv)
      /\ (l_step st' <> None -> l_step st <> None \/ In STEP_ARG_NAME argv)
  end.

End cmdline_args.

(** *** binary64 data and their exact values *)

(** The point with the coordinates [mx * 2^ex] and [my * 2^ey]. *)
Definition point64 (mx ex my ey : Z) : binary64.Point :=
  binary64.mkPoint (binary64.double_of mx ex) (binary64.double_of my ey).

(** The point of the plane that a binary64 point with finite coordinates
    stands for. *)
Definition exactPoint (p : binary64.Point) : Point :=
  mkPoint (binary64.value (binary64.p_x p)) (binary64.value (binary64.p_y p)).

Definition exactSegment (s : binary64.Segment) : Segment :=
  Segment_of (exactPoint (binary64.s_a s)) (exactPoint (binary64.s_b s)).

(** A zero of either sign, or NaN. *)
Definition zeroOrNaN (x : binary64.double) : Prop :=
  match x with
  | S754_zero _ | S754_nan => True
  | _ => False
  end.

(** NaN, or a zero, a finite number or an infinity with the sign bit
    clear. *)
Definition signClear (x : binary64.double) : Prop :=
  match x with
  | S754_nan => True
  | S754_zero s | S754_infinity s | S754_finite s _ _ => s = false
  end.

(** [v] is [- u], or both are [+0]: how [y - x] relates to [x - y]. *)
Definition negated (u v : binary64.double) : Prop :=
  v = binary64.opp u \/ (u = binary64.zero /\ v = binary64.zero).

(** The three tests of [isInSegment] come out in binary64 as they come out
    without rounding on the exact values of the coordinates. *)
Definition testsAgree (p : binary64.Point) (s : binary64.Segment) : Prop :=
  let AB := binary64.Vector_of_points (binary64.s_a s) (binary64.s_b s) in
  let AP := binary64.Vector_of_points (binary64.s_a s) p in
  let PB := binary64.Vector_of_points p (binary64.s_b s) in
  let AB' := Vector_of_points (s_a (exactSegment s)) (s_b (exactSegment s)) in
  let AP' := Vector_of_points (s_a (exactSegment s)) (exactPoint p) in
  let PB' := Vector_of_points (exactPoint p) (s_b (exactSegment s)) in
  binary64.ltb (binary64.abs (binary64.crossProduct AB AP)) binary64.EPS
    = Qltb (Qabs (crossProduct AB' AP')) EPS
  /\ binary64.gtb (binary64.dotProduct AB AP) binary64.zero
     = Qgtb (dotProduct AB' AP') 0
  /\ binary64.gtb (binary64.dotProduct AB PB) binary64.zero
     = Qgtb (dotProduct AB' PB') 0.

(** [p = a + t (b - a) + sigma * (- (b - a)_y, (b - a)_x)] with [0 < t < 1]
    and [|sigma| * |b - a|^2 < EPS], the endpoints [a], [b] of [s]
    distinct. *)
Definition inToleranceBand (p : Point) (s : Segment) : Prop :=
  let ux := p_x (s_b s) - p_x (s_a s) in
  let uy := p_y (s_b s) - p_y (s_a s) in
  0 < ux * ux + uy * uy
  /\ exists t sigma : Q,
       0 < t /\ t < 1
       /\ Qabs (sigma * (ux * ux + uy * uy)) < EPS
       /\ p_x p == p_x (s_a s) + t * ux - sigma * uy
       /\ p_y p == p_y (s_a s) + t * uy + sigma * ux.

(** *** Integers in binary64 *)

(** The [double] of the integer [n]. *)
Definition integer64 (n : Z) : binary64.double := binary64.double_of n 0.

(** [x] is the [double] of the integer [n], or [n = 0] and [x] is [-0]. *)
Definition represents (x : binary64.double) (n : Z) : Prop :=
  x = integer64 n \/ (n = 0%Z /\ x = S754_zero true).

(** The canonical [double] of the integer [(-1)^s * p], for [p < 2^53]. *)
Definition canonical (s : bool) (p : positive) : binary64.double :=
  S754_finite s
    (Pos.shiftl_nat p (Z.to_nat (53 - Zpos (digits2_pos p))%Z))
    (Zpos (digits2_pos p) - 53)%Z.

(** The integer [(-1)^s * p]. *)
Definition signed (s : bool) (p : positive) : Z := cond_Zopp s (Zpos p).

(** An integer of magnitude below 2^25. *)
Definition smallInteger (n : Z) : Prop := (Z.abs n < 2 ^ 25)%Z.

(** A point whose coordinates are integers of magnitude below 2^25. *)
Definition integerPoint (p : binary64.Point) : Prop :=
  exists x y : Z, smallInteger x /\ smallInteger y /\ p = point64 x 0 y 0.

(** *** The reduction, in binary64 *)

(** The squared Euclidean distance of two points of the plane. *)
Definition squaredDistance (p q : Point) : Q :=
  (p_x q - p_x p) * (p_x q - p_x p) + (p_y q - p_y p) * (p_y q - p_y p).

(** The [i]-th of the collected points. *)
Definition collected64 (ps : list binary64.Point) (i : nat) : binary64.Point :=
  nth i ps (binary64.mkPoint binary64.zero binary64.zero).

(** The squared Euclidean distance between the exact [i]-th and [j]-th
    point of [ps]. *)
Definition exactDistance (ps : list binary64.Point) (i j : nat) : Q :=
  squaredDistance (exactPoint (collected64 ps i)) (exactPoint (collected64 ps j)).

(** Every comparison of the farthest-pair scan on [ps], of 0 with a
    computed squared distance or of two computed squared distances, comes
    out as the comparison of the exact squared distances. *)
Definition distancesAgree (ps : list binary64.Point) : Prop :=
  (forall p q, In p ps -> In q ps ->
      binary64.ltb binary64.zero (binary64.distance2 p q)
      = Qltb 0 (squaredDistance (exactPoint p) (exactPoint q)))
  /\ (forall p q r s, In p ps -> In q ps -> In r ps -> In s ps ->
        binary64.ltb (binary64.distance2 p q) (binary64.distance2 r s)
        = Qltb (squaredDistance (exactPoint p) (exactPoint q))
               (squaredDistance (exactPoint r) (exactPoint s))).

(** The points of [ps] at the indices other than [f1] and [f2], in order. *)
Definition keptPoints (f1 f2 : nat) (ps : list binary64.Point)
    : list binary64.Point :=
  map snd
      (filter (fun e => negb (Nat.eqb (fst e) f1) && negb (Nat.eqb (fst e) f2))
              (combine (seq 0 (length ps)) ps)).

(** [p] lies on the closed segment from [a] to [b]. *)
Definition betweenClosed (p a b : Point) : Prop :=
  exists t : Q,
    0 <= t /\ t <= 1
    /\ p_x p == p_x a + t * (p_x b - p_x a)
    /\ p_y p == p_y a + t * (p_y b - p_y a).

(** All points of [ps] lie, exactly, on one line. *)
Definition onOneLine (ps : list binary64.Point) : Prop :=
  exists l : Line,
    ~ (l_a l == 0 /\ l_b l == 0)
    /\ forall p, In p ps -> onLine (exactPoint p) l.

(* ================================================================== *)
(** ** Inputs used in the examples *)

(** The square with corners (0,0), (10,0), (10,10), (0,10). *)
Definition square : Rectangle :=
  mkRectangle (mkPoint 0 0) (mkPoint 10 0) (mkPoint 10 10) (mkPoint 0 10).

(** The segment ((0,0),(10,0)). *)
Definition baseEdge : Segment := Segment_of (mkPoint 0 0) (mkPoint 10 0).

(** The values of [std::sin] and [std::cos] at a zero angle, as constant
    functions, and the value of the [double] constant [M_PI]; they stand for
    <cmath> in the closed examples, all of which have [angle = 0]. *)
Definition sin_zero (_ : Q) : Q := 0.
Definition cos_zero (_ : Q) : Q := 1.
Definition M_PI_double : Q := 884279719003555 # 281474976710656.

(** The candidates of the first probe of the square at angle 0, step 5. *)
Definition squareFirstCandidates : list Point :=
  Eval vm_compute in
    match candidatesAt (toSegments square)
            (initialState square
               (hatchNormOf sin_zero cos_zero M_PI_double 0 5)) with
    | Ok candidates => candidates
    | Fault _ => []
    end.

(** A step of 1e-9. *)
Definition tinyStep : Q := 1 # 1000000000.

(** A quadrilateral with corners (0,0), (1,4e-8), (2,8e-8), (3,1.2e-7). *)
Definition sliver : Rectangle :=
  mkRectangle (mkPoint 0 0)
              (mkPoint 1 (4 # 100000000))
              (mkPoint 2 (8 # 100000000))
              (mkPoint 3 (12 # 100000000)).

(** The square with corners (-10,-10), (-5,-10), (-5,-5), (-10,-5), and the
    writer that [main] builds for it on its 400 x 400 canvas when the hatch
    is empty (as it is for angle 0 and step 100). *)
Definition negativeSquare : Rectangle :=
  mkRectangle (mkPoint (-10) (-10)) (mkPoint (-5) (-10))
              (mkPoint (-5) (-5)) (mkPoint (-10) (-5)).

Definition negativeWriter : svg.SVGWriter :=
  svg.mkSVGWriter [(svg.HATCH, []); (svg.CONTOUR, toSegments negativeSquare)]
                  400 400.

(** Four points on the line y = 0, at x = 0, 1, 3, 2. *)
Definition fourOnLine : list Point :=
  [mkPoint 0 0; mkPoint 1 0; mkPoint 3 0; mkPoint 2 0].


Definition midline : Segment := Segment_of (mkPoint 0 5) (mkPoint 10 5).

Definition squareWriter : svg.SVGWriter := mainWriter square [midline].

Definition squareWriterSwapped : svg.SVGWriter :=
  svg.mkSVGWriter [(svg.CONTOUR, toSegments square); (svg.HATCH, [midline])]
                  400 400.


(** A stand-in for [std::stod] and sample groups of arguments. *)
Module cmdline_samples.
Import String cmdline_parser cmdline_args.

(** A stand-in for [std::stod] that knows three numerals. *)
Definition sampleStod (s : string) : option Q :=
  if String.eqb s "0" then Some 0
  else if String.eqb s "5" then Some 5
  else if String.eqb s "10" then Some 10
  else None.

Definition squareGroup : group := GPoints "0" "0" "10" "0" "10" "10" "0" "10".

Definition sampleGroups : list group := [GAngle "0"; GStep "5"; squareGroup].

End cmdline_samples.


(** *** binary64 inputs *)

(** The segment ((0,0),(10,0)) and the points (0,0), (10,0), (5,0). *)
Definition baseEdge64 : binary64.Segment :=
  binary64.Segment_of (point64 0 0 0 0) (point64 10 0 0 0).

(** The segment from (2^-24, 7 * 2^-24) to (2^27, 7 * 2^27) on the line
    y = 7 x, and the point (1,7) of that line. *)
Definition steepSegment : binary64.Segment :=
  binary64.Segment_of (point64 1 (-24) 7 (-24)) (point64 1 27 7 27).

Definition steepPoint : binary64.Point := point64 1 0 7 0.

(** The segment from (0,0) to (2^-600, 0) and its midpoint. *)
Definition tinySegment : binary64.Segment :=
  binary64.Segment_of (point64 0 0 0 0) (point64 1 (-600) 0 0).

Definition tinyMidpoint : binary64.Point := point64 1 (-601) 0 0.

(** The points (2^-37, 7 * 2^-37) and (12288, 86016) of the line y = 7 x. *)
Definition slantStart : binary64.Point := point64 1 (-37) 7 (-37).
Definition slantEnd : binary64.Point := point64 12288 0 86016 0.

(** Four points on the line y = 0, at x = 0, 1, 3, 2. *)
Definition fourOnLine64 : list binary64.Point :=
  [point64 0 0 0 0; point64 1 0 0 0; point64 3 0 0 0; point64 2 0 0 0].

(** Four points on the line y = 0, at x = 0, 1, 1/2, -2^-60. *)
Definition nearTie : list binary64.Point :=
  [point64 0 0 0 0; point64 1 0 0 0; point64 1 (-1) 0 0; point64 (-1) (-60) 0 0].

(** Four points on the line y = 0, at x = 0, 2^-600, 2^-599, 3 * 2^-600. *)
Definition tinyFour : list binary64.Point :=
  [point64 0 0 0 0; point64 1 (-600) 0 0; point64 1 (-599) 0 0;
   point64 3 (-600) 0 0].

(** [std::sin] and [std::cos] at a zero angle, and [M_PI]. *)
Definition sin_zero64 (_ : binary64.double) : binary64.double := binary64.zero.
Definition cos_zero64 (_ : binary64.double) : binary64.double :=
  binary64.double_of 1 0.
Definition M_PI_double64 : binary64.double :=
  binary64.double_of 884279719003555 (-48).

(** The unit square, and the step 0.1: the [double] 0x1.999999999999ap-4. *)
Definition unitSquare64 : binary64.Rectangle :=
  binary64.mkRectangle (point64 0 0 0 0) (point64 1 0 0 0)
                       (point64 1 0 1 0) (point64 0 0 1 0).

Definition tenth64 : binary64.double := binary64.double_of 7205759403792794 (-56).

(** The same square and step in exact arithmetic. *)
Definition unitSquare : Rectangle :=
  mkRectangle (mkPoint 0 0) (mkPoint 1 0) (mkPoint 1 1) (mkPoint 0 1).

Definition tenthExact : Q := binary64.value tenth64.

(** The rectangle with corners (0, 2^53 - 2), (10, 2^53 - 2), (10, 2^53 + 4),
    (0, 2^53 + 4); every coordinate is a [double]. *)
Definition tallRectangle : binary64.Rectangle :=
  binary64.mkRectangle
    (point64 0 0 (2 ^ 53 - 2) 0) (point64 10 0 (2 ^ 53 - 2) 0)
    (point64 10 0 (2 ^ 53 + 4) 0) (point64 0 0 (2 ^ 53 + 4) 0).

(** The square with corners (0,0), (10,0), (10,10), (0,10) and the step
    1e-9, the [double] 0x1.12e0be826d695p-30. *)
Definition square64 : binary64.Rectangle :=
  binary64.mkRectangle (point64 0 0 0 0) (point64 10 0 0 0)
                       (point64 10 0 10 0) (point64 0 0 10 0).

Definition tinyStep64 : binary64.double :=
  binary64.double_of 4835703278458517 (-82).

(** What [generateHatch] returns on the unit square with angle 0 and step
    0.1, in binary64 and in exact arithmetic. *)
Definition unitSquareHatch64 : list binary64.Segment :=
  Eval vm_compute in
    match binary64.generateHatch sin_zero64 cos_zero64 M_PI_double64 14
            unitSquare64 binary64.zero tenth64 with
    | Returned l => l
    | _ => []
    end.

Definition unitSquareHatch : list Segment :=
  Eval vm_compute in
    match generateHatch sin_zero cos_zero M_PI_double 13
            unitSquare 0 tenthExact with
    | Returned l => l
    | _ => []
    end.

(** The offset vector (0, 1), and the state of the sweep of
    [tallRectangle] with the probe point at (0, 2^53), in the forward phase,
    when [res] has been emitted. *)
Definition unitUp : binary64.Vector :=
  binary64.mkVector binary64.zero (binary64.double_of 1 0).

Definition stuckState (res : list binary64.Segment) : binary64.SweepState :=
  binary64.mkSweepState unitUp (point64 0 0 (2 ^ 53) 0) res true true false.

(** The hatch segment of [tallRectangle] at y = 2^53 - 1, and the one at
    y = 2^53. *)
Definition tallFirst : binary64.Segment :=
  binary64.Segment_of (point64 0 0 (2 ^ 53 - 1) 0) (point64 8 0 (2 ^ 53 - 1) 0).

Definition tallStuck : binary64.Segment :=
  binary64.Segment_of (point64 0 0 (2 ^ 53) 0) (point64 8 0 (2 ^ 53) 0).

(* ================================================================== *)
(** * Properties *)

(** ** Comparisons *)

Lemma Qltb_lt (x y : Q) : Qltb x y = true <-> x < y.
Proof.
  unfold Qltb. rewrite Qlt_alt.
  destruct (x ?= y); split; intro H; congruence.
Qed.

Lemma Qltb_ge (x y : Q) : Qltb x y = false <-> y <= x.
Proof.
  split; intro H.
  - apply Qnot_lt_le. intro L. apply Qltb_lt in L. congruence.
  - destruct (Qltb x y) eqn:E; [| reflexivity].
    apply Qltb_lt in E. lra.
Qed.

Lemma Qgtb_gt (x y : Q) : Qgtb x y = true <-> y < x.
Proof. unfold Qgtb. apply Qltb_lt. Qed.

Lemma sum_squares_pos (u v : Q) : ~ (u == 0 /\ v == 0) -> 0 < u * u + v * v.
Proof.
  intro H.
  destruct (Qeq_dec u 0) as [Hu | Hu].
  - destruct (Qeq_dec v 0) as [Hv | Hv]; [tauto |].
    assert (0 < v * v) by (destruct (Qlt_le_dec 0 v); nra).
    nra.
  - assert (0 < u * u) by (destruct (Qlt_le_dec 0 u); nra).
    nra.
Qed.

Lemma Qltb_proper (x x' y y' : Q) :
  x == x' -> y == y' -> Qltb x y = Qltb x' y'.
Proof.
  intros Hx Hy. unfold Qltb. rewrite (Qcompare_comp _ _ Hx _ _ Hy). reflexivity.
Qed.

(** ** Shape decomposition *)

Lemma toSegments_unfold (r : Rectangle) :
  toSegments r =
  [Segment_of (pt0 r) (pt3 r); Segment_of (pt0 r) (pt1 r);
   Segment_of (pt1 r) (pt2 r); Segment_of (pt2 r) (pt3 r)].
Proof. reflexivity. Qed.

(** C6.  On the square (0,0),(10,0),(10,10),(0,10) [toSegments] returns four
    segments whose first one runs from [points[0]] to [points[3]]: its start
    is (0,0) and its end is (0,10).  The list is not the one that begins
    with the edge from [points[3]] to [points[0]]. *)
Theorem toSegments_first_edge_reversed :
  toSegments square =
    [Segment_of (pt0 square) (pt3 square); Segment_of (pt0 square) (pt1 square);
     Segment_of (pt1 square) (pt2 square); Segment_of (pt2 square) (pt3 square)]
  /\ (s_a (hd baseEdge (toSegments square)) = mkPoint 0 0
      /\ s_b (hd baseEdge (toSegments square)) = mkPoint 0 10)
  /\ toSegments square <>
    [Segment_of (pt3 square) (pt0 square); Segment_of (pt0 square) (pt1 square);
     Segment_of (pt1 square) (pt2 square); Segment_of (pt2 square) (pt3 square)].
Proof.
  split; [reflexivity |]. split; [split; reflexivity |].
  intro H. discriminate H.
Qed.

(** C7.  On the same square the corner [points[0]] is the start of two of the
    segments of [toSegments] and the end of none, and the corner [points[3]]
    is the end of two and the start of none; the two other corners are once
    a start and once an end. *)
Theorem toSegments_corner_counts :
  length (toSegments square) = 4%nat
  /\ startsAt (pt0 square) (toSegments square) = 2%nat
  /\ endsAt (pt0 square) (toSegments square) = 0%nat
  /\ startsAt (pt3 square) (toSegments square) = 0%nat
  /\ endsAt (pt3 square) (toSegments square) = 2%nat
  /\ startsAt (pt1 square) (toSegments square) = 1%nat
  /\ endsAt (pt1 square) (toSegments square) = 1%nat
  /\ startsAt (pt2 square) (toSegments square) = 1%nat
  /\ endsAt (pt2 square) (toSegments square) = 1%nat.
Proof. repeat split. Qed.

(** ** Predicates *)

Lemma isInSegment_true_iff (p : Point) (s : Segment) :
  isInSegment p s = true <->
  Qabs (crossProduct (Vector_of_points (s_a s) (s_b s))
                     (Vector_of_points (s_a s) p)) < EPS
  /\ 0 < dotProduct (Vector_of_points (s_a s) (s_b s))
                    (Vector_of_points (s_a s) p)
  /\ 0 < dotProduct (Vector_of_points (s_a s) (s_b s))
                    (Vector_of_points p (s_b s)).
Proof.
  unfold isInSegment. cbv zeta.
  rewrite !andb_true_iff, !Qgtb_gt, Qltb_lt. tauto.
Qed.

Lemma isInSegment_between (p : Point) (s : Segment) :
  strictlyBetween p s -> isInSegment p s = true.
Proof.
  intros [Hne (t & Ht0 & Ht1 & Hx & Hy)].
  apply isInSegment_true_iff.
  unfold crossProduct, dotProduct, Vector_of_points; cbn [v_x v_y].
  set (ux := p_x (s_b s) - p_x (s_a s)).
  set (uy := p_y (s_b s) - p_y (s_a s)).
  assert (Hpx : p_x p - p_x (s_a s) == t * ux) by (rewrite Hx; unfold ux; ring).
  assert (Hpy : p_y p - p_y (s_a s) == t * uy) by (rewrite Hy; unfold uy; ring).
  assert (Hbx : p_x (s_b s) - p_x p == (1 - t) * ux)
    by (rewrite Hx; unfold ux; ring).
  assert (Hby : p_y (s_b s) - p_y p == (1 - t) * uy)
    by (rewrite Hy; unfold uy; ring).
  assert (Hpos : 0 < ux * ux + uy * uy).
  { apply sum_squares_pos. intros [Hu Hv]. apply Hne. unfold Point_eq.
    unfold ux in Hu. unfold uy in Hv. split; lra. }
  rewrite Hpx, Hpy, Hbx, Hby.
  split; [| split].
  - assert (Hz : ux * (t * uy) - uy * (t * ux) == 0) by ring.
    rewrite Hz. reflexivity.
  - assert (Hz : ux * (t * ux) + uy * (t * uy) == t * (ux * ux + uy * uy))
      by ring.
    rewrite Hz. nra.
  - assert (Hz : ux * ((1 - t) * ux) + uy * ((1 - t) * uy)
                 == (1 - t) * (ux * ux + uy * uy)) by ring.
    rewrite Hz. nra.
Qed.

(** A point that [isInSegment] accepts and that lies exactly on the line
    through the endpoints lies strictly between them. *)
Lemma isInSegment_on_line (p : Point) (s : Segment) :
  isInSegment p s = true ->
  crossProduct (Vector_of_points (s_a s) (s_b s))
               (Vector_of_points (s_a s) p) == 0 ->
  strictlyBetween p s.
Proof.
  intros Hin Hc.
  apply isInSegment_true_iff in Hin. destruct Hin as (_ & He & Hf).
  unfold crossProduct, dotProduct, Vector_of_points in Hc, He, Hf.
  cbn [v_x v_y] in Hc, He, Hf.
  unfold strictlyBetween.
  set (ux := p_x (s_b s) - p_x (s_a s)) in *.
  set (uy := p_y (s_b s) - p_y (s_a s)) in *.
  set (wx := p_x p - p_x (s_a s)) in *.
  set (wy := p_y p - p_y (s_a s)) in *.
  set (U := ux * ux + uy * uy).
  assert (Hb : ux * (p_x (s_b s) - p_x p) + uy * (p_y (s_b s) - p_y p)
               == U - (ux * wx + uy * wy))
    by (unfold U, ux, uy, wx, wy; ring).
  rewrite Hb in Hf.
  assert (HU : 0 < U) by lra.
  split.
  - intros [Hx Hy].
    assert (Hux : ux == 0) by (unfold ux; lra).
    assert (Huy : uy == 0) by (unfold uy; lra).
    assert (HU0 : U == 0) by (unfold U; rewrite Hux, Huy; ring).
    lra.
  - exists ((ux * wx + uy * wy) / U).
    assert (HtU : (ux * wx + uy * wy) / U * U == ux * wx + uy * wy)
      by (field; lra).
    assert (Ex : wx * U - (ux * wx + uy * wy) * ux
                 == - uy * (ux * wy - uy * wx)) by (unfold U; ring).
    assert (Ey : wy * U - (ux * wx + uy * wy) * uy
                 == ux * (ux * wy - uy * wx)) by (unfold U; ring).
    rewrite Hc in Ex, Ey.
    assert (Hwx : wx == (ux * wx + uy * wy) / U * ux).
    { assert (E : wx * U == (ux * wx + uy * wy) * ux) by lra.
      apply (Qmult_inj_r _ _ U); [lra |].
      rewrite E. field. lra. }
    assert (Hwy : wy == (ux * wx + uy * wy) / U * uy).
    { assert (E : wy * U == (ux * wx + uy * wy) * uy) by lra.
      apply (Qmult_inj_r _ _ U); [lra |].
      rewrite E. field. lra. }
    repeat split.
    + apply (Qmult_lt_r _ _ U HU). rewrite HtU. lra.
    + apply (Qmult_lt_r _ _ U HU). rewrite HtU. lra.
    + rewrite <- Hwx. unfold wx. ring.
    + rewrite <- Hwy. unfold wy. ring.
Qed.

(** ** binary64: zeros, NaN and signs *)

Lemma sub_self_zeroOrNaN (x : binary64.double) : zeroOrNaN (binary64.sub x x).
Proof.
  destruct x as [s | s | | s m e]; cbn.
  - destruct s; exact I.
  - destruct s; exact I.
  - exact I.
  - rewrite Z.sub_diag. exact I.
Qed.

Lemma mul_zeroOrNaN_r (x y : binary64.double) :
  zeroOrNaN y -> zeroOrNaN (binary64.mul x y).
Proof. destruct x, y; cbn; trivial; contradiction. Qed.

Lemma add_zeroOrNaN (x y : binary64.double) :
  zeroOrNaN x -> zeroOrNaN y -> zeroOrNaN (binary64.add x y).
Proof.
  destruct x as [s | | |], y as [s' | | |]; cbn; trivial; try contradiction.
  destruct s, s'; trivial.
Qed.

Lemma gtb_zeroOrNaN (x : binary64.double) :
  zeroOrNaN x -> binary64.gtb x binary64.zero = false.
Proof. destruct x; cbn; trivial; contradiction. Qed.

Lemma dotProduct_zeroOrNaN (u v : binary64.Vector) :
  zeroOrNaN (binary64.v_x v) -> zeroOrNaN (binary64.v_y v) ->
  binary64.gtb (binary64.dotProduct u v) binary64.zero = false.
Proof.
  intros Hx Hy. apply gtb_zeroOrNaN. unfold binary64.dotProduct.
  apply add_zeroOrNaN; apply mul_zeroOrNaN_r; assumption.
Qed.

Lemma isInSegment64_start (s : binary64.Segment) :
  binary64.isInSegment (binary64.s_a s) s = false.
Proof.
  unfold binary64.isInSegment. cbv zeta.
  rewrite (dotProduct_zeroOrNaN _ (binary64.Vector_of_points _ _)).
  - rewrite andb_false_r. reflexivity.
  - apply sub_self_zeroOrNaN.
  - apply sub_self_zeroOrNaN.
Qed.

Lemma isInSegment64_end (s : binary64.Segment) :
  binary64.isInSegment (binary64.s_b s) s = false.
Proof.
  unfold binary64.isInSegment. cbv zeta.
  rewrite (dotProduct_zeroOrNaN _ (binary64.Vector_of_points (binary64.s_b s) _)).
  - apply andb_false_r.
  - apply sub_self_zeroOrNaN.
  - apply sub_self_zeroOrNaN.
Qed.

Lemma isInSegment64_exact (p : binary64.Point) (s : binary64.Segment) :
  testsAgree p s ->
  binary64.isInSegment p s = isInSegment (exactPoint p) (exactSegment s).
Proof.
  intros (H1 & H2 & H3).
  unfold binary64.isInSegment, isInSegment. cbv zeta.
  rewrite H1, H2, H3. reflexivity.
Qed.

(** ** binary64: small integers are computed exactly *)

Module binary64_integers.
Local Open Scope Z_scope.

Lemma iter_pos_nat {A : Type} (f : A -> A) (n : positive) (x : A) :
  iter_pos f n x = Nat.iter (Pos.to_nat n) f x.
Proof.
  revert x. induction n as [n IH | n IH |]; intro x; cbn [iter_pos].
  - rewrite !IH. rewrite Pos2Nat.inj_xI.
    rewrite <- Nat.iter_add. rewrite <- Nat.iter_succ_r.
    f_equal. lia.
  - rewrite !IH. rewrite Pos2Nat.inj_xO.
    rewrite <- Nat.iter_add. f_equal. lia.
  - reflexivity.
Qed.

Lemma digits2_shiftl_nat (p : positive) (k : nat) :
  Zpos (digits2_pos (Pos.shiftl_nat p k)) = Zpos (digits2_pos p) + Z.of_nat k.
Proof.
  induction k as [| k IH]; [cbn; lia |].
  cbn [Pos.shiftl_nat nat_rect digits2_pos].
  change (nat_rect _ p (fun _ => xO) k) with (Pos.shiftl_nat p k).
  rewrite Pos2Z.inj_succ, IH. lia.
Qed.

Lemma shiftl_nat_value (p : positive) (k : nat) :
  Zpos (Pos.shiftl_nat p k) = Zpos p * 2 ^ Z.of_nat k.
Proof.
  induction k as [| k IH]; [cbn; lia |].
  cbn [Pos.shiftl_nat nat_rect].
  change (nat_rect _ p (fun _ => xO) k) with (Pos.shiftl_nat p k).
  rewrite Pos2Z.inj_xO, IH, Nat2Z.inj_succ, Z.pow_succ_r by lia. ring.
Qed.

Lemma shiftl_nat_add (p : positive) (j k : nat) :
  Pos.shiftl_nat (Pos.shiftl_nat p j) k = Pos.shiftl_nat p (j + k).
Proof.
  apply Pos2Z.inj. rewrite !shiftl_nat_value, Nat2Z.inj_add, Z.pow_add_r by lia.
  ring.
Qed.

Lemma iter_xO_shiftl (p q : positive) :
  Pos.iter xO p q = Pos.shiftl_nat p (Pos.to_nat q).
Proof.
  rewrite Pos2Nat.inj_iter. reflexivity.
Qed.

(** Shifting out zero bits is exact. *)
Lemma shr_exact (p : positive) (k : nat) :
  Nat.iter k shr_1 (Build_shr_record (Zpos (Pos.shiftl_nat p k)) false false)
  = Build_shr_record (Zpos p) false false.
Proof.
  induction k as [| k IH]; [reflexivity |].
  rewrite Nat.iter_succ_r.
  cbn [Pos.shiftl_nat nat_rect shr_1 orb].
  exact IH.
Qed.

Lemma fexp_normal (x : Z) :
  -1021 <= x -> fexp binary64.prec binary64.emax x = x - 53.
Proof.
  intro H. unfold fexp, emin, binary64.prec, binary64.emax. lia.
Qed.

(** A mantissa of 53 bits in range is left as it is. *)
Lemma round_aux_53 (s : bool) (m : positive) (e : Z) :
  Zpos (digits2_pos m) = 53 -> -1074 <= e <= 971 ->
  binary_round_aux binary64.prec binary64.emax s (Zpos m) e loc_Exact
  = S754_finite s m e.
Proof.
  intros Hd He.
  assert (Hs : shr_fexp binary64.prec binary64.emax (Zpos m) e loc_Exact
               = (Build_shr_record (Zpos m) false false, e)).
  { unfold shr_fexp. cbn [Zdigits2 shr_record_of_loc].
    rewrite Hd, fexp_normal by lia.
    replace (53 + e - 53 - e) with 0 by lia. reflexivity. }
  unfold binary_round_aux. rewrite Hs.
  cbn [shr_m loc_of_shr_record round_nearest_even]. rewrite Hs.
  cbn [shr_m].
  replace (e <=? binary64.emax - binary64.prec) with true; [reflexivity |].
  symmetry. apply Z.leb_le. unfold binary64.emax, binary64.prec. lia.
Qed.

(** A mantissa with more than 53 bits whose surplus bits are zero is
    shifted without rounding. *)
Lemma round_aux_exact (s : bool) (p : positive) (k n : nat) (e : Z) :
  Zpos (digits2_pos p) + Z.of_nat k = 53 ->
  -1074 <= e + Z.of_nat n <= 971 ->
  binary_round_aux binary64.prec binary64.emax s
                   (Zpos (Pos.shiftl_nat p (k + n))) e loc_Exact
  = S754_finite s (Pos.shiftl_nat p k) (e + Z.of_nat n).
Proof.
  intros Hd He.
  assert (Hdk : Zpos (digits2_pos (Pos.shiftl_nat p k)) = 53)
    by (rewrite digits2_shiftl_nat; exact Hd).
  destruct n as [| n].
  - rewrite Nat.add_0_r, Z.add_0_r in *. apply round_aux_53; assumption.
  - assert (Hs : shr_fexp binary64.prec binary64.emax
                   (Zpos (Pos.shiftl_nat p (k + S n))) e loc_Exact
                 = (Build_shr_record (Zpos (Pos.shiftl_nat p k)) false false,
                    e + Z.of_nat (S n))).
    { unfold shr_fexp. cbn [Zdigits2 shr_record_of_loc].
      rewrite digits2_shiftl_nat, fexp_normal by lia.
      replace (Zpos (digits2_pos p) + Z.of_nat (k + S n) + e - 53 - e)
        with (Zpos (Pos.of_succ_nat n)) by lia.
      unfold shr. rewrite iter_pos_nat, SuccNat2Pos.id_succ.
      rewrite <- shiftl_nat_add, shr_exact.
      reflexivity. }
    unfold binary_round_aux. rewrite Hs.
    cbn [shr_m loc_of_shr_record round_nearest_even].
    assert (Hs2 : shr_fexp binary64.prec binary64.emax
                    (Zpos (Pos.shiftl_nat p k)) (e + Z.of_nat (S n)) loc_Exact
                  = (Build_shr_record (Zpos (Pos.shiftl_nat p k)) false false,
                     e + Z.of_nat (S n))).
    { unfold shr_fexp. cbn [Zdigits2 shr_record_of_loc].
      rewrite Hdk, fexp_normal by lia.
      replace (53 + (e + Z.of_nat (S n)) - 53 - (e + Z.of_nat (S n)))
        with 0 by lia.
      reflexivity. }
    rewrite Hs2. cbn [shr_m].
    replace (e + Z.of_nat (S n) <=? binary64.emax - binary64.prec) with true;
      [reflexivity |].
    symmetry. apply Z.leb_le. unfold binary64.emax, binary64.prec. lia.
Qed.

Lemma digits2_pos_bound (p : positive) :
  Zpos p < 2 ^ Zpos (digits2_pos p).
Proof.
  induction p as [p IH | p IH |]; cbn [digits2_pos].
  - rewrite Pos2Z.inj_succ, Z.pow_succ_r by lia. lia.
  - rewrite Pos2Z.inj_succ, Z.pow_succ_r by lia. lia.
  - reflexivity.
Qed.

Lemma digits2_pos_lower (p : positive) :
  2 ^ (Zpos (digits2_pos p) - 1) <= Zpos p.
Proof.
  induction p as [p IH | p IH |]; cbn [digits2_pos].
  - rewrite Pos2Z.inj_succ.
    replace (Z.succ (Zpos (digits2_pos p)) - 1)
      with (Z.succ (Zpos (digits2_pos p) - 1)) by lia.
    rewrite Z.pow_succ_r by lia. lia.
  - rewrite Pos2Z.inj_succ.
    replace (Z.succ (Zpos (digits2_pos p)) - 1)
      with (Z.succ (Zpos (digits2_pos p) - 1)) by lia.
    rewrite Z.pow_succ_r by lia. lia.
  - reflexivity.
Qed.

Lemma digits2_pos_small (p : positive) :
  Zpos p < 2 ^ 53 -> Zpos (digits2_pos p) <= 53.
Proof.
  intro H. pose proof (digits2_pos_lower p) as L.
  destruct (Z_le_gt_dec (Zpos (digits2_pos p)) 53) as [Hle | Hgt]; [exact Hle |].
  exfalso.
  assert (2 ^ 53 <= 2 ^ (Zpos (digits2_pos p) - 1))
    by (apply Z.pow_le_mono_r; lia).
  lia.
Qed.

(** The [double] of the integer [(-1)^s * p], for [p < 2^53]. *)
Lemma round_integer (s : bool) (p : positive) (j : nat) :
  Zpos p < 2 ^ 53 ->
  (j <= 1074)%nat ->
  binary_round binary64.prec binary64.emax s (Pos.shiftl_nat p j)
               (- Z.of_nat j)
  = S754_finite s
      (Pos.shiftl_nat p (Z.to_nat (53 - Zpos (digits2_pos p))))
      (Zpos (digits2_pos p) - 53).
Proof.
  intros Hp Hj.
  pose proof (digits2_pos_small p Hp) as Hd.
  set (d := Zpos (digits2_pos p)) in *.
  assert (Hd1 : 1 <= d) by (unfold d; lia).
  set (k := Z.to_nat (53 - d)).
  assert (Hk : Z.of_nat k = 53 - d) by (unfold k; lia).
  unfold binary_round.
  rewrite digits2_shiftl_nat. fold d.
  rewrite fexp_normal by lia.
  unfold shl_align.
  replace (d + Z.of_nat j + - Z.of_nat j - 53 - - Z.of_nat j)
    with (Z.of_nat j - Z.of_nat k) by lia.
  destruct (Z.of_nat j - Z.of_nat k) as [| q | q] eqn:Hq.
  - replace j with (k + 0)%nat by lia.
    rewrite (round_aux_exact s p k 0); [f_equal; lia | fold d; lia | lia].
  - replace j with (k + Pos.to_nat q)%nat by lia.
    rewrite (round_aux_exact s p k (Pos.to_nat q)); [f_equal; lia | fold d; lia | lia].
  - rewrite iter_xO_shiftl, shiftl_nat_add.
    replace (j + Pos.to_nat q)%nat with k by lia.
    rewrite round_aux_53; [f_equal; lia | | lia].
    rewrite digits2_shiftl_nat. fold d. lia.
Qed.

Lemma normalize_scaled (c : Z) (j : nat) :
  Z.abs c < 2 ^ 53 -> (j <= 1074)%nat ->
  binary_normalize binary64.prec binary64.emax (c * 2 ^ Z.of_nat j)
                   (- Z.of_nat j) false
  = match c with
    | Z0 => S754_zero false
    | Zpos p => canonical false p
    | Zneg p => canonical true p
    end.
Proof.
  intros Hc Hj. destruct c as [| p | p].
  - reflexivity.
  - rewrite <- shiftl_nat_value. cbn [binary_normalize].
    apply round_integer; [lia | exact Hj].
  - change (Zneg p) with (- Zpos p).
    rewrite Z.mul_opp_l, <- shiftl_nat_value. cbn [Z.opp binary_normalize].
    apply round_integer; [lia | exact Hj].
Qed.

Lemma integer64_canonical (c : Z) :
  Z.abs c < 2 ^ 53 ->
  integer64 c = match c with
                | Z0 => S754_zero false
                | Zpos p => canonical false p
                | Zneg p => canonical true p
                end.
Proof.
  intro Hc. unfold integer64, binary64.double_of.
  etransitivity; [| apply (normalize_scaled c 0 Hc); lia].
  f_equal. cbn. lia.
Qed.

(** The mantissa of a canonical integer, aligned to the exponent [- j]. *)
Lemma canonical_aligned (p : positive) (j : nat) :
  Zpos p < 2 ^ 53 ->
  - Z.of_nat j <= Zpos (digits2_pos p) - 53 ->
  Zpos (fst (shl_align
               (Pos.shiftl_nat p (Z.to_nat (53 - Zpos (digits2_pos p))))
               (Zpos (digits2_pos p) - 53) (- Z.of_nat j)))
  = Zpos p * 2 ^ Z.of_nat j.
Proof.
  intros Hp Hj. pose proof (digits2_pos_small p Hp) as Hd.
  set (d := Zpos (digits2_pos p)) in *.
  assert (Hd1 : 1 <= d) by (unfold d; lia).
  unfold shl_align.
  destruct (- Z.of_nat j - (d - 53)) as [| q | q] eqn:Hq; cbn [fst].
  - rewrite shiftl_nat_value. do 2 f_equal. lia.
  - lia.
  - rewrite iter_xO_shiftl, shiftl_nat_add, shiftl_nat_value.
    do 2 f_equal. lia.
Qed.

Lemma canonical_sub (sa sb : bool) (pa pb : positive) :
  Zpos pa < 2 ^ 53 -> Zpos pb < 2 ^ 53 ->
  Z.abs (signed sa pa - signed sb pb) < 2 ^ 53 ->
  binary64.sub (canonical sa pa) (canonical sb pb)
  = integer64 (signed sa pa - signed sb pb).
Proof.
  intros Ha Hb Hc.
  pose proof (digits2_pos_small pa Ha) as Hda.
  pose proof (digits2_pos_small pb Hb) as Hdb.
  rewrite (integer64_canonical _ Hc).
  unfold binary64.sub, canonical, SFsub. cbv zeta.
  set (da := Zpos (digits2_pos pa)) in *.
  set (db := Zpos (digits2_pos pb)) in *.
  assert (Hda1 : 1 <= da) by (unfold da; lia).
  assert (Hdb1 : 1 <= db) by (unfold db; lia).
  set (j := Z.to_nat (- Z.min (da - 53) (db - 53))).
  assert (Hj : Z.min (da - 53) (db - 53) = - Z.of_nat j) by (unfold j; lia).
  rewrite Hj.
  unfold da, db. rewrite !canonical_aligned by (fold da db; lia).
  replace (cond_Zopp sa (Zpos pa * 2 ^ Z.of_nat j)
           - cond_Zopp sb (Zpos pb * 2 ^ Z.of_nat j))
    with ((signed sa pa - signed sb pb) * 2 ^ Z.of_nat j)
    by (unfold signed; destruct sa, sb; cbn [cond_Zopp]; ring).
  apply normalize_scaled; [exact Hc | lia].
Qed.

Lemma canonical_add (sa sb : bool) (pa pb : positive) :
  Zpos pa < 2 ^ 53 -> Zpos pb < 2 ^ 53 ->
  Z.abs (signed sa pa + signed sb pb) < 2 ^ 53 ->
  binary64.add (canonical sa pa) (canonical sb pb)
  = integer64 (signed sa pa + signed sb pb).
Proof.
  intros Ha Hb Hc.
  pose proof (digits2_pos_small pa Ha) as Hda.
  pose proof (digits2_pos_small pb Hb) as Hdb.
  rewrite (integer64_canonical _ Hc).
  unfold binary64.add, canonical, SFadd. cbv zeta.
  set (da := Zpos (digits2_pos pa)) in *.
  set (db := Zpos (digits2_pos pb)) in *.
  assert (Hda1 : 1 <= da) by (unfold da; lia).
  assert (Hdb1 : 1 <= db) by (unfold db; lia).
  set (j := Z.to_nat (- Z.min (da - 53) (db - 53))).
  assert (Hj : Z.min (da - 53) (db - 53) = - Z.of_nat j) by (unfold j; lia).
  rewrite Hj.
  unfold da, db. rewrite !canonical_aligned by (fold da db; lia).
  replace (cond_Zopp sa (Zpos pa * 2 ^ Z.of_nat j)
           + cond_Zopp sb (Zpos pb * 2 ^ Z.of_nat j))
    with ((signed sa pa + signed sb pb) * 2 ^ Z.of_nat j)
    by (unfold signed; destruct sa, sb; cbn [cond_Zopp]; ring).
  apply normalize_scaled; [exact Hc | lia].
Qed.

Lemma digits2_pos_mul (pa pb : positive) :
  Zpos (digits2_pos pa) + Zpos (digits2_pos pb) - 1
  <= Zpos (digits2_pos (pa * pb)).
Proof.
  pose proof (digits2_pos_lower pa) as La.
  pose proof (digits2_pos_lower pb) as Lb.
  pose proof (digits2_pos_bound (pa * pb)) as U.
  set (da := Zpos (digits2_pos pa)) in *.
  set (db := Zpos (digits2_pos pb)) in *.
  set (dp := Zpos (digits2_pos (pa * pb))) in *.
  assert (Hda1 : 1 <= da) by (unfold da; lia).
  assert (Hdb1 : 1 <= db) by (unfold db; lia).
  assert (H : 2 ^ (da - 1 + (db - 1)) < 2 ^ dp).
  { rewrite Z.pow_add_r by lia. rewrite Pos2Z.inj_mul in U. nia. }
  apply Z.pow_lt_mono_r_iff in H; lia.
Qed.

Lemma canonical_mul (sa sb : bool) (pa pb : positive) :
  Zpos pa * Zpos pb < 2 ^ 53 ->
  binary64.mul (canonical sa pa) (canonical sb pb)
  = canonical (xorb sa sb) (pa * pb).
Proof.
  intro Hc.
  assert (Ha : Zpos pa < 2 ^ 53) by nia.
  assert (Hb : Zpos pb < 2 ^ 53) by nia.
  pose proof (digits2_pos_small pa Ha) as Hda.
  pose proof (digits2_pos_small pb Hb) as Hdb.
  pose proof (digits2_pos_small (pa * pb) Hc) as Hdp.
  pose proof (digits2_pos_mul pa pb) as Hm.
  unfold binary64.mul, canonical, SFmul.
  set (da := Zpos (digits2_pos pa)) in *.
  set (db := Zpos (digits2_pos pb)) in *.
  set (dp := Zpos (digits2_pos (pa * pb))) in *.
  assert (Hda1 : 1 <= da) by (unfold da; lia).
  assert (Hdb1 : 1 <= db) by (unfold db; lia).
  assert (Hdp1 : 1 <= dp) by (unfold dp; lia).
  set (k := Z.to_nat (53 - dp)).
  set (n := Z.to_nat (53 - da - db + dp)).
  assert (E : (Pos.shiftl_nat pa (Z.to_nat (53 - da))
               * Pos.shiftl_nat pb (Z.to_nat (53 - db)))%positive
              = Pos.shiftl_nat (pa * pb) (k + n)).
  { apply Pos2Z.inj. rewrite Pos2Z.inj_mul, !shiftl_nat_value, Pos2Z.inj_mul.
    replace (Z.of_nat (k + n))
      with (Z.of_nat (Z.to_nat (53 - da)) + Z.of_nat (Z.to_nat (53 - db)))
      by (unfold k, n; lia).
    rewrite Z.pow_add_r by lia. ring. }
  rewrite E.
  rewrite (round_aux_exact (xorb sa sb) (pa * pb) k n).
  - f_equal. unfold n. lia.
  - fold dp. unfold k. lia.
  - unfold n. lia.
Qed.

Lemma signed_abs (s : bool) (p : positive) : Z.abs (signed s p) = Zpos p.
Proof. destruct s; reflexivity. Qed.

Lemma integer64_signed (s : bool) (p : positive) :
  Zpos p < 2 ^ 53 -> integer64 (signed s p) = canonical s p.
Proof.
  intro Hp. rewrite integer64_canonical by (rewrite signed_abs; exact Hp).
  destruct s; reflexivity.
Qed.

Lemma represents_cases (x : binary64.double) (n : Z) :
  represents x n -> Z.abs n < 2 ^ 53 ->
  (n = 0 /\ exists s, x = S754_zero s)
  \/ (exists s p, n = signed s p /\ x = canonical s p /\ Zpos p < 2 ^ 53).
Proof.
  intros [-> | [-> ->]] Hn.
  - rewrite (integer64_canonical n Hn). destruct n as [| p | p].
    + left. split; [reflexivity | exists false; reflexivity].
    + right. exists false, p. repeat split. exact Hn.
    + right. exists true, p. repeat split. exact Hn.
  - left. split; [reflexivity | exists true; reflexivity].
Qed.

Lemma represents_zero (s : bool) : represents (S754_zero s) 0.
Proof. destruct s; [right; split; reflexivity | left; reflexivity]. Qed.

Lemma represents_integer64 (n : Z) : represents (integer64 n) n.
Proof. left. reflexivity. Qed.

Lemma represents_canonical (s : bool) (p : positive) :
  Zpos p < 2 ^ 53 -> represents (canonical s p) (signed s p).
Proof. intro Hp. left. symmetry. apply integer64_signed. exact Hp. Qed.

Lemma represents_sub (x y : binary64.double) (a b : Z) :
  represents x a -> represents y b ->
  Z.abs a < 2 ^ 53 -> Z.abs b < 2 ^ 53 -> Z.abs (a - b) < 2 ^ 53 ->
  represents (binary64.sub x y) (a - b).
Proof.
  intros Hx Hy Ha Hb Hc.
  destruct (represents_cases x a Hx Ha)
    as [(-> & sx & ->) | (sx & px & -> & -> & Hpx)];
    destruct (represents_cases y b Hy Hb)
      as [(-> & sy & ->) | (sy & py & -> & -> & Hpy)].
  - destruct sx, sy; cbn; apply represents_zero.
  - replace (0 - signed sy py) with (signed (negb sy) py)
      by (destruct sy; reflexivity).
    apply (represents_canonical (negb sy) py Hpy).
  - rewrite Z.sub_0_r. apply (represents_canonical sx px Hpx).
  - left. apply canonical_sub; assumption.
Qed.

Lemma represents_add (x y : binary64.double) (a b : Z) :
  represents x a -> represents y b ->
  Z.abs a < 2 ^ 53 -> Z.abs b < 2 ^ 53 -> Z.abs (a + b) < 2 ^ 53 ->
  represents (binary64.add x y) (a + b).
Proof.
  intros Hx Hy Ha Hb Hc.
  destruct (represents_cases x a Hx Ha)
    as [(-> & sx & ->) | (sx & px & -> & -> & Hpx)];
    destruct (represents_cases y b Hy Hb)
      as [(-> & sy & ->) | (sy & py & -> & -> & Hpy)].
  - destruct sx, sy; cbn; apply represents_zero.
  - rewrite Z.add_0_l. apply (represents_canonical sy py Hpy).
  - rewrite Z.add_0_r. apply (represents_canonical sx px Hpx).
  - left. apply canonical_add; assumption.
Qed.

Lemma represents_mul (x y : binary64.double) (a b : Z) :
  represents x a -> represents y b ->
  Z.abs a < 2 ^ 53 -> Z.abs b < 2 ^ 53 -> Z.abs (a * b) < 2 ^ 53 ->
  represents (binary64.mul x y) (a * b).
Proof.
  intros Hx Hy Ha Hb Hc.
  destruct (represents_cases x a Hx Ha)
    as [(-> & sx & ->) | (sx & px & -> & -> & Hpx)];
    destruct (represents_cases y b Hy Hb)
      as [(-> & sy & ->) | (sy & py & -> & -> & Hpy)].
  - cbn. apply represents_zero.
  - rewrite Z.mul_0_l. cbn. apply represents_zero.
  - rewrite Z.mul_0_r. cbn. apply represents_zero.
  - rewrite Z.abs_mul, !signed_abs in Hc.
    rewrite canonical_mul by exact Hc.
    replace (signed sx px * signed sy py) with (signed (xorb sx sy) (px * py))
      by (destruct sx, sy; reflexivity).
    apply represents_canonical. rewrite Pos2Z.inj_mul. exact Hc.
Qed.

Lemma represents_positive (x : binary64.double) (n : Z) :
  represents x n -> Z.abs n < 2 ^ 53 ->
  binary64.gtb x binary64.zero = (0 <? n).
Proof.
  intros Hx Hn.
  destruct (represents_cases x n Hx Hn)
    as [(-> & s & ->) | (s & p & -> & -> & Hp)].
  - reflexivity.
  - destruct s; reflexivity.
Qed.

Lemma EPS_bits : binary64.EPS = S754_finite false 7555786372591432 (-76).
Proof. vm_compute. reflexivity. Qed.

Lemma represents_below_EPS (x : binary64.double) (n : Z) :
  represents x n -> Z.abs n < 2 ^ 53 ->
  binary64.ltb (binary64.abs x) binary64.EPS = (n =? 0).
Proof.
  intros Hx Hn. rewrite EPS_bits.
  destruct (represents_cases x n Hx Hn)
    as [(-> & s & ->) | (s & p & -> & -> & Hp)].
  - reflexivity.
  - pose proof (digits2_pos_small p Hp) as Hd.
    replace (signed s p =? 0) with false by (destruct s; reflexivity).
    unfold canonical, binary64.abs, binary64.ltb, SFabs, SFltb, SFcompare.
    destruct (Z.compare_spec (Zpos (digits2_pos p) - 53) (-76));
      [lia | lia | reflexivity].
Qed.

Local Open Scope Q_scope.

Lemma product_bound (u v : Z) :
  (Z.abs u < 2 ^ 26)%Z -> (Z.abs v < 2 ^ 26)%Z -> (Z.abs (u * v) < 2 ^ 52)%Z.
Proof.
  intros Hu Hv. rewrite Z.abs_mul.
  change (2 ^ 52)%Z with (2 ^ 26 * 2 ^ 26)%Z.
  apply Z.mul_lt_mono_nonneg; lia.
Qed.

Lemma integer_difference (u v : Z) :
  smallInteger u -> smallInteger v ->
  represents (binary64.sub (binary64.double_of u 0) (binary64.double_of v 0))
             (u - v)
  /\ (Z.abs (u - v) < 2 ^ 26)%Z.
Proof.
  unfold smallInteger. intros Hu Hv. split; [| lia].
  apply represents_sub; try apply represents_integer64; lia.
Qed.

Lemma integer_crossProduct (x1 y1 x2 y2 : binary64.double) (u1 v1 u2 v2 : Z) :
  represents x1 u1 -> represents y1 v1 -> represents x2 u2 -> represents y2 v2 ->
  (Z.abs u1 < 2 ^ 26)%Z -> (Z.abs v1 < 2 ^ 26)%Z ->
  (Z.abs u2 < 2 ^ 26)%Z -> (Z.abs v2 < 2 ^ 26)%Z ->
  represents (binary64.crossProduct (binary64.mkVector x1 y1)
                                    (binary64.mkVector x2 y2))
             (u1 * v2 - v1 * u2)
  /\ (Z.abs (u1 * v2 - v1 * u2) < 2 ^ 53)%Z.
Proof.
  intros X1 Y1 X2 Y2 B1 B2 B3 B4.
  pose proof (product_bound u1 v2 B1 B4) as P1.
  pose proof (product_bound v1 u2 B2 B3) as P2.
  split; [| lia].
  unfold binary64.crossProduct. cbn [binary64.v_x binary64.v_y].
  apply represents_sub; try lia; apply represents_mul; try assumption; lia.
Qed.

Lemma integer_dotProduct (x1 y1 x2 y2 : binary64.double) (u1 v1 u2 v2 : Z) :
  represents x1 u1 -> represents y1 v1 -> represents x2 u2 -> represents y2 v2 ->
  (Z.abs u1 < 2 ^ 26)%Z -> (Z.abs v1 < 2 ^ 26)%Z ->
  (Z.abs u2 < 2 ^ 26)%Z -> (Z.abs v2 < 2 ^ 26)%Z ->
  represents (binary64.dotProduct (binary64.mkVector x1 y1)
                                  (binary64.mkVector x2 y2))
             (u1 * u2 + v1 * v2)
  /\ (Z.abs (u1 * u2 + v1 * v2) < 2 ^ 53)%Z.
Proof.
  intros X1 Y1 X2 Y2 B1 B2 B3 B4.
  pose proof (product_bound u1 u2 B1 B3) as P1.
  pose proof (product_bound v1 v2 B2 B4) as P2.
  split; [| lia].
  unfold binary64.dotProduct. cbn [binary64.v_x binary64.v_y].
  apply represents_add; try lia; apply represents_mul; try assumption; lia.
Qed.

Lemma value_represents (x : binary64.double) (n : Z) :
  represents x n -> (Z.abs n < 2 ^ 53)%Z ->
  binary64.value x == inject_Z n.
Proof.
  intros Hx Hn.
  destruct (represents_cases x n Hx Hn)
    as [(-> & s & ->) | (s & p & -> & -> & Hp)].
  - reflexivity.
  - pose proof (digits2_pos_small p Hp) as Hd.
    unfold canonical, binary64.value.
    set (k := Z.to_nat (53 - Zpos (digits2_pos p))).
    replace (Zpos (digits2_pos p) - 53)%Z with (- Z.of_nat k)%Z
      by (unfold k; lia).
    replace (cond_Zopp s (Zpos (Pos.shiftl_nat p k)))
      with (signed s p * 2 ^ Z.of_nat k)%Z
      by (rewrite shiftl_nat_value; unfold signed; destruct s;
          cbn [cond_Zopp]; ring).
    rewrite inject_Z_mult, Zpower_Qpower by lia.
    rewrite Qpower_opp.
    change (inject_Z 2) with 2.
    assert (Ht : 0 < 2 ^ Z.of_nat k) by (apply Qpower_0_lt; reflexivity).
    field. lra.
Qed.

Lemma Qabs_inject_Z (c : Z) : Qabs (inject_Z c) = inject_Z (Z.abs c).
Proof. reflexivity. Qed.

Lemma Qltb_inject_Z (m n : Z) : Qltb (inject_Z m) (inject_Z n) = (m <? n)%Z.
Proof.
  destruct (Z.ltb_spec m n) as [H | H].
  - apply Qltb_lt. rewrite <- Zlt_Qlt. exact H.
  - apply Qltb_ge. rewrite <- Zle_Qle. exact H.
Qed.

Lemma integer_below_EPS (c : Z) :
  Qltb (Qabs (inject_Z c)) EPS = (c =? 0)%Z.
Proof.
  rewrite Qabs_inject_Z.
  destruct (Z.eqb_spec c 0) as [-> | Hc].
  - reflexivity.
  - apply Qltb_ge.
    assert (H1 : (1 <= Z.abs c)%Z) by lia.
    rewrite Zle_Qle in H1.
    assert (EPS <= 1) by (unfold EPS; discriminate).
    change (inject_Z 1) with 1 in H1. lra.
Qed.

Lemma integer_value (n : Z) :
  smallInteger n -> binary64.value (binary64.double_of n 0) == inject_Z n.
Proof.
  unfold smallInteger. intro H.
  apply (value_represents _ n (represents_integer64 n)). lia.
Qed.

(** For points with small integer coordinates every operation of
    [isInSegment] is exact. *)
Lemma integer_tests_agree (ax ay bx by' px py : Z) :
  smallInteger ax -> smallInteger ay -> smallInteger bx -> smallInteger by' ->
  smallInteger px -> smallInteger py ->
  testsAgree (point64 px 0 py 0)
             (binary64.Segment_of (point64 ax 0 ay 0) (point64 bx 0 by' 0)).
Proof.
  intros Hax Hay Hbx Hby Hpx Hpy.
  destruct (integer_difference bx ax Hbx Hax) as [RABx BABx].
  destruct (integer_difference by' ay Hby Hay) as [RABy BABy].
  destruct (integer_difference px ax Hpx Hax) as [RAPx BAPx].
  destruct (integer_difference py ay Hpy Hay) as [RAPy BAPy].
  destruct (integer_difference bx px Hbx Hpx) as [RPBx BPBx].
  destruct (integer_difference by' py Hby Hpy) as [RPBy BPBy].
  destruct (integer_crossProduct _ _ _ _ _ _ _ _ RABx RABy RAPx RAPy
              BABx BABy BAPx BAPy) as [Rc Bc].
  destruct (integer_dotProduct _ _ _ _ _ _ _ _ RABx RABy RAPx RAPy
              BABx BABy BAPx BAPy) as [Rd1 Bd1].
  destruct (integer_dotProduct _ _ _ _ _ _ _ _ RABx RABy RPBx RPBy
              BABx BABy BPBx BPBy) as [Rd2 Bd2].
  pose proof (integer_value ax Hax) as Vax.
  pose proof (integer_value ay Hay) as Vay.
  pose proof (integer_value bx Hbx) as Vbx.
  pose proof (integer_value by' Hby) as Vby.
  pose proof (integer_value px Hpx) as Vpx.
  pose proof (integer_value py Hpy) as Vpy.
  unfold testsAgree, point64, exactSegment, exactPoint.
  cbv zeta.
  unfold binary64.Vector_of_points, binary64.Segment_of, Vector_of_points,
    Segment_of.
  cbn [binary64.s_a binary64.s_b binary64.p_x binary64.p_y s_a s_b p_x p_y].
  split; [| split].
  - rewrite (represents_below_EPS _ _ Rc Bc).
    rewrite <- integer_below_EPS.
    symmetry. apply Qltb_proper; [| reflexivity].
    unfold crossProduct. cbn [v_x v_y].
    rewrite Vax, Vay, Vbx, Vby, Vpx, Vpy.
    unfold Qminus.
    rewrite <- !inject_Z_opp, <- !inject_Z_plus, <- !inject_Z_mult,
      <- !inject_Z_opp, <- !inject_Z_plus.
    reflexivity.
  - rewrite (represents_positive _ _ Rd1 Bd1).
    rewrite <- Qltb_inject_Z. unfold Qgtb.
    symmetry. apply Qltb_proper; [reflexivity |].
    unfold dotProduct. cbn [v_x v_y].
    rewrite Vax, Vay, Vbx, Vby, Vpx, Vpy.
    unfold Qminus.
    rewrite <- !inject_Z_opp, <- !inject_Z_plus, <- !inject_Z_mult,
      <- !inject_Z_plus.
    reflexivity.
  - rewrite (represents_positive _ _ Rd2 Bd2).
    rewrite <- Qltb_inject_Z. unfold Qgtb.
    symmetry. apply Qltb_proper; [reflexivity |].
    unfold dotProduct. cbn [v_x v_y].
    rewrite Vax, Vay, Vbx, Vby, Vpx, Vpy.
    unfold Qminus.
    rewrite <- !inject_Z_opp, <- !inject_Z_plus, <- !inject_Z_mult,
      <- !inject_Z_plus.
    reflexivity.
Qed.

Lemma represents_ltb (x y : binary64.double) (m n : Z) :
  represents x m -> represents y n ->
  (0 <= m < 2 ^ 53)%Z -> (0 <= n < 2 ^ 53)%Z ->
  binary64.ltb x y = (m <? n)%Z.
Proof.
  intros Hx Hy Hm Hn.
  destruct (represents_cases x m Hx ltac:(lia))
    as [(-> & sx & ->) | (sx & px & -> & -> & Hpx)];
    destruct (represents_cases y n Hy ltac:(lia))
      as [(-> & sy & ->) | (sy & py & -> & -> & Hpy)].
  - reflexivity.
  - destruct sy; [cbn in Hn; lia |]. reflexivity.
  - destruct sx; [cbn in Hm; lia |]. reflexivity.
  - destruct sx; [cbn in Hm; lia |]. destruct sy; [cbn in Hn; lia |].
    cbn [signed cond_Zopp].
    pose proof (digits2_pos_small px Hpx) as Hdx.
    pose proof (digits2_pos_small py Hpy) as Hdy.
    pose proof (digits2_pos_bound px) as Ux.
    pose proof (digits2_pos_lower px) as Lx.
    pose proof (digits2_pos_bound py) as Uy.
    pose proof (digits2_pos_lower py) as Ly.
    unfold canonical, binary64.ltb, SFltb, SFcompare.
    set (dx := Zpos (digits2_pos px)) in *.
    set (dy := Zpos (digits2_pos py)) in *.
    assert (Hdx1 : (1 <= dx)%Z) by (unfold dx; lia).
    assert (Hdy1 : (1 <= dy)%Z) by (unfold dy; lia).
    destruct (Z.compare_spec (dx - 53) (dy - 53)) as [E | L | G].
    + assert (Edx : dx = dy) by lia. rewrite Edx.
      rewrite Pos.compare_cont_spec. cbn [Pos.switch_Eq].
      change (Pos.compare ?a ?b) with (Zpos a ?= Zpos b)%Z.
      rewrite !shiftl_nat_value.
      set (t := (2 ^ Z.of_nat (Z.to_nat (53 - dy)))%Z).
      assert (Ht : (0 < t)%Z) by (unfold t; apply Z.pow_pos_nonneg; lia).
      destruct (Z.compare_spec (Zpos px * t) (Zpos py * t)) as [E' | L' | G'];
        symmetry.
      * apply Z.ltb_ge. nia.
      * apply Z.ltb_lt. nia.
      * apply Z.ltb_ge. nia.
    + symmetry. apply Z.ltb_lt.
      assert (2 ^ dx <= 2 ^ (dy - 1))%Z by (apply Z.pow_le_mono_r; lia).
      lia.
    + symmetry. apply Z.ltb_ge.
      assert (2 ^ dy <= 2 ^ (dx - 1))%Z by (apply Z.pow_le_mono_r; lia).
      lia.
Qed.

Lemma integer_distance2 (x1 y1 x2 y2 : Z) :
  smallInteger x1 -> smallInteger y1 -> smallInteger x2 -> smallInteger y2 ->
  let d := ((x2 - x1) * (x2 - x1) + (y2 - y1) * (y2 - y1))%Z in
  represents (binary64.distance2 (point64 x1 0 y1 0) (point64 x2 0 y2 0)) d
  /\ (0 <= d < 2 ^ 53)%Z
  /\ squaredDistance (exactPoint (point64 x1 0 y1 0))
                     (exactPoint (point64 x2 0 y2 0)) == inject_Z d.
Proof.
  intros H1 H2 H3 H4 d.
  destruct (integer_difference x1 x2 H1 H3) as [Rx Bx].
  destruct (integer_difference y1 y2 H2 H4) as [Ry By].
  pose proof (product_bound _ _ Bx Bx) as Px.
  pose proof (product_bound _ _ By By) as Py.
  assert (Hd : d = ((x1 - x2) * (x1 - x2) + (y1 - y2) * (y1 - y2))%Z)
    by (unfold d; ring).
  assert (Hnn : (0 <= d)%Z).
  { rewrite Hd. pose proof (Z.square_nonneg (x1 - x2)).
    pose proof (Z.square_nonneg (y1 - y2)). lia. }
  split; [| split].
  - rewrite Hd. unfold binary64.distance2, point64.
    cbn [binary64.p_x binary64.p_y].
    apply represents_add; try lia; apply represents_mul; try assumption; lia.
  - split; [exact Hnn |]. rewrite Hd. lia.
  - unfold squaredDistance, exactPoint, point64.
    cbn [binary64.p_x binary64.p_y p_x p_y].
    rewrite (integer_value x1 H1), (integer_value y1 H2),
      (integer_value x2 H3), (integer_value y2 H4).
    unfold d, Qminus.
    rewrite <- !inject_Z_opp, <- !inject_Z_plus, <- !inject_Z_mult,
      <- !inject_Z_plus.
    reflexivity.
Qed.

(** For points with small integer coordinates every comparison of the
    farthest-pair scan is exact. *)
Lemma integer_distances_agree (ps : list binary64.Point) :
  Forall integerPoint ps -> distancesAgree ps.
Proof.
  intro Hall. rewrite Forall_forall in Hall. split.
  - intros p q Hp Hq.
    destruct (Hall p Hp) as (x1 & y1 & H1 & H2 & ->).
    destruct (Hall q Hq) as (x2 & y2 & H3 & H4 & ->).
    destruct (integer_distance2 x1 y1 x2 y2 H1 H2 H3 H4) as (R & B & V).
    rewrite (represents_ltb binary64.zero _ 0 _ (represents_zero false) R)
      by lia.
    rewrite <- Qltb_inject_Z.
    symmetry. apply Qltb_proper; [reflexivity | exact V].
  - intros p q r s Hp Hq Hr Hs.
    destruct (Hall p Hp) as (x1 & y1 & H1 & H2 & ->).
    destruct (Hall q Hq) as (x2 & y2 & H3 & H4 & ->).
    destruct (Hall r Hr) as (x3 & y3 & H5 & H6 & ->).
    destruct (Hall s Hs) as (x4 & y4 & H7 & H8 & ->).
    destruct (integer_distance2 x1 y1 x2 y2 H1 H2 H3 H4) as (R & B & V).
    destruct (integer_distance2 x3 y3 x4 y4 H5 H6 H7 H8) as (R' & B' & V').
    rewrite (represents_ltb _ _ _ _ R R') by lia.
    rewrite <- Qltb_inject_Z.
    symmetry. apply Qltb_proper; assumption.
Qed.

Lemma integer_cross_value (ax ay bx by' px py : Z) :
  smallInteger ax -> smallInteger ay -> smallInteger bx -> smallInteger by' ->
  smallInteger px -> smallInteger py ->
  let s := binary64.Segment_of (point64 ax 0 ay 0) (point64 bx 0 by' 0) in
  crossProduct (Vector_of_points (s_a (exactSegment s)) (s_b (exactSegment s)))
               (Vector_of_points (s_a (exactSegment s))
                                 (exactPoint (point64 px 0 py 0)))
  == inject_Z ((bx - ax) * (py - ay) - (by' - ay) * (px - ax)).
Proof.
  intros Hax Hay Hbx Hby Hpx Hpy s. unfold s.
  unfold point64, exactSegment, exactPoint, binary64.Segment_of,
    Vector_of_points, Segment_of, crossProduct.
  cbn [binary64.s_a binary64.s_b binary64.p_x binary64.p_y s_a s_b p_x p_y
       v_x v_y].
  rewrite (integer_value ax Hax), (integer_value ay Hay),
    (integer_value bx Hbx), (integer_value by' Hby),
    (integer_value px Hpx), (integer_value py Hpy).
  unfold Qminus, Z.sub.
  repeat first [rewrite inject_Z_plus | rewrite inject_Z_mult
                | rewrite inject_Z_opp].
  ring.
Qed.

Lemma integer_points_agree (a b p : binary64.Point) :
  integerPoint a -> integerPoint b -> integerPoint p ->
  testsAgree p (binary64.Segment_of a b).
Proof.
  intros (ax & ay & Hax & Hay & ->) (bx & by' & Hbx & Hby & ->)
         (px & py & Hpx & Hpy & ->).
  apply integer_tests_agree; assumption.
Qed.

(** For points with small integer coordinates [isInSegment] in binary64
    accepts exactly the points strictly between the endpoints. *)
Lemma integer_isInSegment (a b p : binary64.Point) :
  integerPoint a -> integerPoint b -> integerPoint p ->
  (binary64.isInSegment p (binary64.Segment_of a b) = true
   <-> strictlyBetween (exactPoint p) (exactSegment (binary64.Segment_of a b))).
Proof.
  intros Ha Hb Hp.
  rewrite (isInSegment64_exact p _ (integer_points_agree a b p Ha Hb Hp)).
  split; [| apply isInSegment_between].
  intro Hin. apply isInSegment_on_line; [exact Hin |].
  destruct Ha as (ax & ay & Hax & Hay & ->).
  destruct Hb as (bx & by' & Hbx & Hby & ->).
  destruct Hp as (px & py & Hpx & Hpy & ->).
  pose proof (integer_cross_value ax ay bx by' px py Hax Hay Hbx Hby Hpx Hpy)
    as Hv.
  cbv zeta in Hv.
  apply isInSegment_true_iff in Hin. destruct Hin as (Hc & _).
  rewrite Hv in Hc |- *.
  apply Qltb_lt in Hc. rewrite integer_below_EPS in Hc.
  apply Z.eqb_eq in Hc. rewrite Hc. reflexivity.
Qed.

Lemma integerPoint_point64 (x y : Z) :
  smallInteger x -> smallInteger y -> integerPoint (point64 x 0 y 0).
Proof. intros Hx Hy. exists x, y. repeat split; assumption. Qed.

End binary64_integers.

Lemma steepPoint_strictlyBetween :
  strictlyBetween (exactPoint steepPoint) (exactSegment steepSegment).
Proof.
  split.
  - intros [H _]. vm_compute in H. discriminate H.
  - exists ((2 ^ 24 - 1) / (2 ^ 51 - 1)).
    repeat split; vm_compute; reflexivity.
Qed.

Lemma tinyMidpoint_strictlyBetween :
  strictlyBetween (exactPoint tinyMidpoint) (exactSegment tinySegment).
Proof.
  split.
  - intros [H _]. vm_compute in H. discriminate H.
  - exists (1 # 2). repeat split; vm_compute; reflexivity.
Qed.

(** C3, as stated, fails in binary64.  The point (1,7) lies strictly between
    the endpoints (2^-24, 7 * 2^-24) and (2^27, 7 * 2^27) on the line
    y = 7 x, yet [isInSegment] returns false: the differences of the
    coordinates are rounded and the computed cross product is 2^-23, not
    below [EPS].  The midpoint (2^-601, 0) of the segment from (0,0) to
    (2^-600, 0) is rejected as well: both dot products underflow to 0. *)
Lemma isInSegment_rejects_interior_points :
  (strictlyBetween (exactPoint steepPoint) (exactSegment steepSegment)
   /\ binary64.isInSegment steepPoint steepSegment = false)
  /\ (strictlyBetween (exactPoint tinyMidpoint) (exactSegment tinySegment)
      /\ binary64.isInSegment tinyMidpoint tinySegment = false).
Proof.
  split; split.
  - exact steepPoint_strictlyBetween.
  - vm_compute. reflexivity.
  - exact tinyMidpoint_strictlyBetween.
  - vm_compute. reflexivity.
Qed.

(** C3, amended.  In binary64 [isInSegment] is false at both endpoints of
    every segment, whatever the coordinates are (also infinite or NaN).  At
    a point strictly between the endpoints it is true whenever its three
    tests come out as they do without rounding.  They do so whenever the
    coordinates of the point and of the endpoints are integers of magnitude
    below 2^25: there [isInSegment] is true exactly at the points strictly
    between the endpoints.  For the segment ((0,0),(10,0)) it is false at
    (0,0) and at (10,0) and true at (5,0). *)
Theorem isInSegment_strict_interior_up_to_rounding :
  (forall s : binary64.Segment,
      binary64.isInSegment (binary64.s_a s) s = false
      /\ binary64.isInSegment (binary64.s_b s) s = false)
  /\ (forall (p : binary64.Point) (s : binary64.Segment),
         testsAgree p s ->
         strictlyBetween (exactPoint p) (exactSegment s) ->
         binary64.isInSegment p s = true)
  /\ (forall a b p : binary64.Point,
         integerPoint a -> integerPoint b -> integerPoint p ->
         testsAgree p (binary64.Segment_of a b)
         /\ (binary64.isInSegment p (binary64.Segment_of a b) = true
             <-> strictlyBetween (exactPoint p)
                                 (exactSegment (binary64.Segment_of a b))))
  /\ (binary64.isInSegment (point64 0 0 0 0) baseEdge64 = false
      /\ binary64.isInSegment (point64 10 0 0 0) baseEdge64 = false
      /\ binary64.isInSegment (point64 5 0 0 0) baseEdge64 = true).
Proof.
  split; [| split; [| split]].
  - intro s. split; [apply isInSegment64_start | apply isInSegment64_end].
  - intros p s Hagree Hbetween.
    rewrite (isInSegment64_exact p s Hagree).
    apply isInSegment_between. exact Hbetween.
  - intros a b p Ha Hb Hp. split.
    + apply binary64_integers.integer_points_agree; assumption.
    + apply binary64_integers.integer_isInSegment; assumption.
  - repeat split; vm_compute; reflexivity.
Qed.

Lemma baseEdge64_tests : testsAgree (point64 5 0 0 0) baseEdge64.
Proof. repeat split; vm_compute; reflexivity. Qed.

Lemma baseEdge64_midpoint :
  strictlyBetween (exactPoint (point64 5 0 0 0)) (exactSegment baseEdge64).
Proof.
  split.
  - intros [H _]. vm_compute in H. discriminate H.
  - exists (1 # 2). repeat split; vm_compute; reflexivity.
Qed.

Lemma isInSegment_strict_interior_up_to_rounding_witness :
  (integerPoint (point64 0 0 0 0) /\ integerPoint (point64 10 0 0 0)
   /\ integerPoint (point64 5 0 0 0))
  /\ testsAgree (point64 5 0 0 0) baseEdge64
  /\ strictlyBetween (exactPoint (point64 5 0 0 0)) (exactSegment baseEdge64)
  /\ binary64.isInSegment (point64 5 0 0 0) baseEdge64 = true.
Proof.
  assert (H0 : integerPoint (point64 0 0 0 0))
    by (apply binary64_integers.integerPoint_point64; reflexivity).
  assert (H10 : integerPoint (point64 10 0 0 0))
    by (apply binary64_integers.integerPoint_point64; reflexivity).
  assert (H5 : integerPoint (point64 5 0 0 0))
    by (apply binary64_integers.integerPoint_point64; reflexivity).
  split; [repeat split; assumption |].
  split;
    [exact (proj1 (proj1 (proj2 (proj2
              isInSegment_strict_interior_up_to_rounding))
              _ _ _ H0 H10 H5)) |].
  split; [exact baseEdge64_midpoint |].
  exact (proj1 (proj2 isInSegment_strict_interior_up_to_rounding)
           (point64 5 0 0 0) baseEdge64 baseEdge64_tests baseEdge64_midpoint).
Defined.

Lemma linesIntersection_onLine (l1 l2 : Line) :
  ~ l_a l1 * l_b l2 - l_a l2 * l_b l1 == 0 ->
  onLine (linesIntersection l1 l2) l1 /\ onLine (linesIntersection l1 l2) l2.
Proof.
  intro Hd. unfold onLine, linesIntersection; simpl.
  split; field; exact Hd.
Qed.

(** C4.  For all lines [l1], [l2] with nonzero determinant
    [l1.a * l2.b - l2.a * l1.b], the point returned by [linesIntersection]
    satisfies [a x + b y + c = 0] for both lines, in exact arithmetic. *)
Theorem linesIntersection_on_both_lines (l1 l2 : Line) :
  ~ l_a l1 * l_b l2 - l_a l2 * l_b l1 == 0 ->
  l_a l1 * p_x (linesIntersection l1 l2)
    + l_b l1 * p_y (linesIntersection l1 l2) + l_c l1 == 0
  /\ l_a l2 * p_x (linesIntersection l1 l2)
    + l_b l2 * p_y (linesIntersection l1 l2) + l_c l2 == 0.
Proof.
  intro Hd. exact (linesIntersection_onLine l1 l2 Hd).
Qed.

Lemma linesIntersection_on_both_lines_witness :
  let l1 := mkLine (-10) 0 0 in
  let l2 := mkLine 0 5 (-25) in
  ~ l_a l1 * l_b l2 - l_a l2 * l_b l1 == 0
  /\ l_a l1 * p_x (linesIntersection l1 l2)
       + l_b l1 * p_y (linesIntersection l1 l2) + l_c l1 == 0
  /\ l_a l2 * p_x (linesIntersection l1 l2)
       + l_b l2 * p_y (linesIntersection l1 l2) + l_c l2 == 0.
Proof.
  intros l1 l2.
  assert (Hd : ~ l_a l1 * l_b l2 - l_a l2 * l_b l1 == 0)
    by (intro H; discriminate H).
  split; [exact Hd |].
  exact (linesIntersection_on_both_lines l1 l2 Hd).
Defined.

(** ** The farthest-pair scan *)

Lemma pair_cases (i j : nat) :
  (i < j < 4)%nat ->
  ((i = 0 /\ j = 1) \/ (i = 0 /\ j = 2) \/ (i = 0 /\ j = 3) \/
   (i = 1 /\ j = 2) \/ (i = 1 /\ j = 3) \/ (i = 2 /\ j = 3))%nat.
Proof. lia. Qed.

(** Decide the next comparison of the farthest-pair scan whose left operand
    is already a value. *)
Ltac scan_step :=
  match goal with
  | |- context [Qltb ?x ?y] =>
      lazymatch x with
      | context [Qltb] => fail
      | _ =>
          let E := fresh "E" in
          destruct (Qltb x y) eqn:E;
          [apply Qltb_lt in E | apply Qltb_ge in E];
          cbn [maxDistance2]
      end
  end.

Ltac pair_value := unfold pairDistance; cbn [nth].

Ltac split_pairs H :=
  destruct (pair_cases _ _ H)
    as [[-> ->]|[[-> ->]|[[-> ->]|[[-> ->]|[[-> ->]|[-> ->]]]]]].

Lemma square_nonneg (u : Q) : 0 <= u * u.
Proof. destruct (Qlt_le_dec 0 u); nra. Qed.

(** The scan over four points: either it ends with both indices assigned to
    the first pair, in scan order, of greatest distance, or no distance is
    positive and nothing was assigned. *)
Lemma scan_four (a b c d : Point) :
  let ps := [a; b; c; d] in
  (exists f1 f2,
     farthestScan ps
       = Ok (mkFarthest (pairDistance ps f1 f2) (Some f1) (Some f2))
     /\ (f1 < f2 < 4)%nat
     /\ 0 < pairDistance ps f1 f2
     /\ (forall i j, (i < j < 4)%nat ->
                     pairDistance ps i j <= pairDistance ps f1 f2)
     /\ (forall i j, (i < j < 4)%nat -> scannedBefore i j f1 f2 ->
                     pairDistance ps i j < pairDistance ps f1 f2)
     /\ remove_at (remove_at ps f2) f1 = othersThan f1 f2 ps)
  \/ (farthestScan ps = Ok (mkFarthest 0 None None)
      /\ forall i j, (i < j < 4)%nat -> pairDistance ps i j <= 0).
Proof.
  intro ps. subst ps.
  unfold farthestScan.
  cbn [length seq for_each bind vec_at nth_error Nat.add Nat.sub].
  cbn [maxDistance2].
  repeat scan_step.
  all: try (right; split; [reflexivity |];
            intros i j H; split_pairs H; pair_value; lra).
  all: left.
  all: match goal with
       | |- context [mkFarthest _ (Some ?x) (Some ?y)] => exists x; exists y
       end.
  all: split; [reflexivity |].
  all: split; [lia |].
  all: split; [pair_value; lra |].
  all: split; [intros i j H; split_pairs H; pair_value; lra |].
  all: split; [| reflexivity].
  all: intros i j H [Hb | [Hb1 Hb2]]; split_pairs H; try lia; pair_value; lra.
Qed.

Lemma reduce_assigned (a b c d : Point) (m : Q) (f1 f2 : nat) :
  farthestScan [a; b; c; d] = Ok (mkFarthest m (Some f1) (Some f2)) ->
  (f1 < f2 < 4)%nat ->
  reduceIntersections [a; b; c; d]
    = Ok (remove_at (remove_at [a; b; c; d] f2) f1).
Proof.
  intros Hscan H. unfold reduceIntersections.
  cbn [length Nat.eqb]. rewrite Hscan.
  split_pairs H; reflexivity.
Qed.

Lemma reduce_unassigned (a b c d : Point) (m : Q) :
  farthestScan [a; b; c; d] = Ok (mkFarthest m None None) ->
  reduceIntersections [a; b; c; d] = Fault Uninitialized.
Proof.
  intros Hscan. unfold reduceIntersections.
  cbn [length Nat.eqb]. rewrite Hscan. reflexivity.
Qed.

(** ** The farthest pair and the middle points *)

Lemma squaredDistance_sym (p q : Point) :
  squaredDistance p q == squaredDistance q p.
Proof. unfold squaredDistance. ring. Qed.

(** Two vectors orthogonal to one nonzero vector are parallel. *)
Lemma orthogonal_parallel (a b ux uy wx wy : Q) :
  ~ (a == 0 /\ b == 0) ->
  a * ux + b * uy == 0 -> a * wx + b * wy == 0 ->
  ux * wy - uy * wx == 0.
Proof.
  intros Hn Hu Hw.
  assert (Ha : a * (ux * wy - uy * wx) == 0).
  { assert (E : a * (ux * wy - uy * wx)
                == (a * ux + b * uy) * wy - (a * wx + b * wy) * uy) by ring.
    rewrite E, Hu, Hw. ring. }
  assert (Hb : b * (ux * wy - uy * wx) == 0).
  { assert (E : b * (ux * wy - uy * wx)
                == (a * wx + b * wy) * ux - (a * ux + b * uy) * wx) by ring.
    rewrite E, Hu, Hw. ring. }
  destruct (Qeq_dec (ux * wy - uy * wx) 0) as [H0 | H0]; [exact H0 |].
  exfalso. apply Hn. split.
  - destruct (Qmult_integral _ _ Ha) as [H | H]; [exact H | contradiction].
  - destruct (Qmult_integral _ _ Hb) as [H | H]; [exact H | contradiction].
Qed.

(** On a line, a point that is not farther from either end of the farthest
    pair than the ends are from each other lies between them. *)
Lemma farthest_pair_encloses (l : Line) (a b p : Point) :
  ~ (l_a l == 0 /\ l_b l == 0) ->
  onLine a l -> onLine b l -> onLine p l ->
  0 < squaredDistance a b ->
  squaredDistance a p <= squaredDistance a b ->
  squaredDistance p b <= squaredDistance a b ->
  betweenClosed p a b.
Proof.
  unfold onLine, squaredDistance, betweenClosed.
  intros Hn Ha Hb Hp Hpos H1 H2.
  set (ux := p_x b - p_x a) in *. set (uy := p_y b - p_y a) in *.
  set (wx := p_x p - p_x a) in *. set (wy := p_y p - p_y a) in *.
  assert (Hu : l_a l * ux + l_b l * uy == 0).
  { unfold ux, uy.
    assert (E : l_a l * (p_x b - p_x a) + l_b l * (p_y b - p_y a)
                == (l_a l * p_x b + l_b l * p_y b + l_c l)
                   - (l_a l * p_x a + l_b l * p_y a + l_c l)) by ring.
    rewrite E, Ha, Hb. ring. }
  assert (Hw : l_a l * wx + l_b l * wy == 0).
  { unfold wx, wy.
    assert (E : l_a l * (p_x p - p_x a) + l_b l * (p_y p - p_y a)
                == (l_a l * p_x p + l_b l * p_y p + l_c l)
                   - (l_a l * p_x a + l_b l * p_y a + l_c l)) by ring.
    rewrite E, Ha, Hp. ring. }
  pose proof (orthogonal_parallel _ _ _ _ _ _ Hn Hu Hw) as Hc.
  set (U := ux * ux + uy * uy) in *.
  set (d := ux * wx + uy * wy).
  set (W := wx * wx + wy * wy) in *.
  assert (H2' : (ux - wx) * (ux - wx) + (uy - wy) * (uy - wy) <= U).
  { assert (E : (ux - wx) * (ux - wx) + (uy - wy) * (uy - wy)
                == (p_x b - p_x p) * (p_x b - p_x p)
                   + (p_y b - p_y p) * (p_y b - p_y p))
      by (unfold ux, uy, wx, wy; ring).
    rewrite E. exact H2. }
  assert (HW : 0 <= W).
  { unfold W. pose proof (square_nonneg wx). pose proof (square_nonneg wy).
    lra. }
  assert (Hlag : d * d == U * W).
  { assert (E : U * W - d * d == (ux * wy - uy * wx) * (ux * wy - uy * wx))
      by (unfold U, W, d; ring).
    rewrite Hc in E. lra. }
  assert (Hd0 : 0 <= d).
  { assert (E : (ux - wx) * (ux - wx) + (uy - wy) * (uy - wy)
                == U - 2 * d + W) by (unfold U, W, d; ring).
    rewrite E in H2'. lra. }
  assert (HdU : d <= U).
  { destruct (Qlt_le_dec U d) as [Hgt | Hle]; [| exact Hle].
    exfalso. assert (U * U < d * d) by nra.
    assert (U * W <= U * U) by nra. lra. }
  assert (Hx : wx * U == d * ux).
  { assert (E : wx * U - d * ux == - uy * (ux * wy - uy * wx))
      by (unfold U, d; ring).
    rewrite Hc in E. lra. }
  assert (Hy : wy * U == d * uy).
  { assert (E : wy * U - d * uy == ux * (ux * wy - uy * wx))
      by (unfold U, d; ring).
    rewrite Hc in E. lra. }
  exists (d / U).
  assert (HdU' : d / U * U == d) by (field; lra).
  split; [| split; [| split]].
  - apply (Qmult_le_r _ _ U Hpos). rewrite HdU'. lra.
  - apply (Qmult_le_r _ _ U Hpos). rewrite HdU'. lra.
  - assert (E : wx == d / U * ux).
    { apply (Qmult_inj_r _ _ U); [lra |].
      rewrite Hx. field. lra. }
    unfold wx in E. lra.
  - assert (E : wy == d / U * uy).
    { apply (Qmult_inj_r _ _ U); [lra |].
      rewrite Hy. field. lra. }
    unfold wy in E. lra.
Qed.

(** ** The reduction in binary64 *)

(** Replace the next comparison of the binary64 scan by the comparison of
    the exact squared distances, and decide it. *)
Ltac scan64_step Hz Hd :=
  match goal with
  | |- context [binary64.ltb binary64.zero (binary64.distance2 ?p ?q)] =>
      rewrite (Hz p q) by (simpl; tauto)
  | |- context [binary64.ltb (binary64.distance2 ?p ?q)
                             (binary64.distance2 ?r ?s)] =>
      rewrite (Hd p q r s) by (simpl; tauto)
  end;
  match goal with
  | |- context [Qltb ?x ?y] =>
      let E := fresh "E" in
      destruct (Qltb x y) eqn:E;
      [apply Qltb_lt in E | apply Qltb_ge in E];
      cbn [binary64.maxDistance2]
  end.

Ltac pair_value64 := unfold exactDistance, collected64; cbn [nth].

Lemma scan_four64 (a b c d : binary64.Point) :
  let ps := [a; b; c; d] in
  distancesAgree ps ->
  (exists f1 f2,
     binary64.farthestScan ps
       = Ok (binary64.mkFarthest
               (binary64.distance2 (collected64 ps f1) (collected64 ps f2))
               (Some f1) (Some f2))
     /\ (f1 < f2 < 4)%nat
     /\ 0 < exactDistance ps f1 f2
     /\ (forall i j, (i < j < 4)%nat ->
                     exactDistance ps i j <= exactDistance ps f1 f2)
     /\ (forall i j, (i < j < 4)%nat -> scannedBefore i j f1 f2 ->
                     exactDistance ps i j < exactDistance ps f1 f2)
     /\ binary64.remove_at (binary64.remove_at ps f2) f1 = keptPoints f1 f2 ps)
  \/ (binary64.farthestScan ps
        = Ok (binary64.mkFarthest binary64.zero None None)
      /\ forall i j, (i < j < 4)%nat -> exactDistance ps i j <= 0).
Proof.
  intros ps [Hz Hd]. subst ps.
  unfold binary64.farthestScan.
  cbn [length seq for_each bind binary64.vec_at nth_error Nat.add Nat.sub].
  cbn [binary64.maxDistance2].
  do 6 scan64_step Hz Hd.
  all: try (right; split; [reflexivity |];
            intros i j H; split_pairs H; pair_value64; lra).
  all: left.
  all: match goal with
       | |- context [binary64.mkFarthest _ (Some ?x) (Some ?y)] =>
           exists x; exists y
       end.
  all: split; [reflexivity |].
  all: split; [lia |].
  all: split; [pair_value64; lra |].
  all: split; [intros i j H; split_pairs H; pair_value64; lra |].
  all: split; [| reflexivity].
  all: intros i j H [Hb | [Hb1 Hb2]]; split_pairs H; try lia; pair_value64; lra.
Qed.

Lemma reduce_assigned64 (a b c d : binary64.Point) (m : binary64.double)
    (f1 f2 : nat) :
  binary64.farthestScan [a; b; c; d]
    = Ok (binary64.mkFarthest m (Some f1) (Some f2)) ->
  (f1 < f2 < 4)%nat ->
  binary64.reduceIntersections [a; b; c; d]
    = Ok (binary64.remove_at (binary64.remove_at [a; b; c; d] f2) f1).
Proof.
  intros Hscan H. unfold binary64.reduceIntersections.
  cbn [length Nat.eqb]. rewrite Hscan.
  split_pairs H; reflexivity.
Qed.

Lemma exactDistance_bound (ps : list binary64.Point) (f1 f2 : nat) :
  0 < exactDistance ps f1 f2 ->
  (forall i j, (i < j < 4)%nat ->
               exactDistance ps i j <= exactDistance ps f1 f2) ->
  forall i j, (i < 4)%nat -> (j < 4)%nat ->
              exactDistance ps i j <= exactDistance ps f1 f2.
Proof.
  intros Hpos Hmax i j Hi Hj.
  destruct (Nat.lt_total i j) as [Hlt | [-> | Hgt]].
  - apply Hmax. lia.
  - assert (E : exactDistance ps j j == 0)
      by (unfold exactDistance, squaredDistance; ring).
    rewrite E. lra.
  - assert (E : exactDistance ps i j == exactDistance ps j i)
      by (unfold exactDistance; apply squaredDistance_sym).
    rewrite E. apply Hmax. lia.
Qed.

Lemma kept_between (a b c d : binary64.Point) (f1 f2 : nat) :
  let ps := [a; b; c; d] in
  (f1 < 4)%nat -> (f2 < 4)%nat ->
  0 < exactDistance ps f1 f2 ->
  (forall i j, (i < j < 4)%nat ->
               exactDistance ps i j <= exactDistance ps f1 f2) ->
  onOneLine ps ->
  forall p, In p ps ->
    betweenClosed (exactPoint p) (exactPoint (collected64 ps f1))
                  (exactPoint (collected64 ps f2)).
Proof.
  intros ps H1 H2 Hpos Hmax (l & Hn & Hon) p Hin.
  pose proof (exactDistance_bound ps f1 f2 Hpos Hmax) as Hall.
  assert (Hnth : forall k, (k < 4)%nat -> In (collected64 ps k) ps).
  { intros k Hk. unfold collected64. apply nth_In. exact Hk. }
  destruct (In_nth ps p (binary64.mkPoint binary64.zero binary64.zero) Hin)
    as (k & Hk & Hp).
  change (length ps) with 4%nat in Hk.
  apply (farthest_pair_encloses l).
  - exact Hn.
  - apply Hon, Hnth, H1.
  - apply Hon, Hnth, H2.
  - apply Hon, Hin.
  - exact Hpos.
  - rewrite <- Hp. exact (Hall f1 k H1 Hk).
  - rewrite <- Hp. exact (Hall k f2 Hk H2).
Qed.

(** C10, as stated, fails in binary64.  For the four points of the line
    y = 0 at x = 0, 1, 1/2, -2^-60 the difference 1 - (-2^-60) rounds to 1,
    the pair (0, 1) found first keeps the maximum, and the reduction leaves
    the points at 1/2 and at -2^-60: the pair that was removed is not the
    farthest one and the point at -2^-60 is not a middle point.  For the
    four distinct points at x = 0, 2^-600, 2^-599, 3 * 2^-600 every computed
    squared distance underflows to 0: the indices are never assigned,
    although the pairwise squared distances are positive. *)
Lemma farthest_pair_lost_to_rounding :
  (binary64.reduceIntersections nearTie
   = Ok [point64 1 (-1) 0 0; point64 (-1) (-60) 0 0]
   /\ exactDistance nearTie 0 1 < exactDistance nearTie 1 3
   /\ p_x (exactPoint (collected64 nearTie 3))
      < p_x (exactPoint (collected64 nearTie 0))
   /\ p_x (exactPoint (collected64 nearTie 0))
      < p_x (exactPoint (collected64 nearTie 2))
   /\ p_x (exactPoint (collected64 nearTie 2))
      < p_x (exactPoint (collected64 nearTie 1)))
  /\ (0 < exactDistance tinyFour 0 1
      /\ binary64.farthestScan tinyFour
         = Ok (binary64.mkFarthest binary64.zero None None)
      /\ binary64.reduceIntersections tinyFour = Fault Uninitialized).
Proof.
  repeat split; vm_compute; reflexivity.
Qed.

(** C10, amended.  For four collected points in binary64, whenever every
    comparison of the scan comes out as the comparison of the exact squared
    distances, as it does when all coordinates are integers of magnitude
    below 2^25: if some pairwise squared distance is positive, the scan
    assigns both indices, [farthest1 < farthest2], to the first pair in scan
    order whose squared Euclidean distance is the greatest; erasing
    [farthest2] then [farthest1] leaves exactly the two other points, and
    when the four points lie on one line these two lie between the two
    points that were removed.  If all pairwise squared distances are zero,
    the indices are never assigned and the erase reads an uninitialised
    index. *)
Theorem farthest_pair_reduction_up_to_rounding (ps : list binary64.Point) :
  length ps = 4%nat ->
  (Forall integerPoint ps -> distancesAgree ps)
  /\ (distancesAgree ps ->
     ((exists i j, (i < j < 4)%nat /\ 0 < exactDistance ps i j) ->
      exists f1 f2,
        binary64.farthestScan ps
          = Ok (binary64.mkFarthest
                  (binary64.distance2 (collected64 ps f1) (collected64 ps f2))
                  (Some f1) (Some f2))
        /\ (f1 < f2 < 4)%nat
        /\ (forall i j, (i < j < 4)%nat ->
                        exactDistance ps i j <= exactDistance ps f1 f2)
        /\ (forall i j, (i < j < 4)%nat -> scannedBefore i j f1 f2 ->
                        exactDistance ps i j < exactDistance ps f1 f2)
        /\ binary64.erase ps (Some f2) = Ok (binary64.remove_at ps f2)
        /\ binary64.erase (binary64.remove_at ps f2) (Some f1)
           = Ok (keptPoints f1 f2 ps)
        /\ binary64.reduceIntersections ps = Ok (keptPoints f1 f2 ps)
        /\ length (keptPoints f1 f2 ps) = 2%nat
        /\ incl (keptPoints f1 f2 ps) ps
        /\ (onOneLine ps ->
            forall p, In p (keptPoints f1 f2 ps) ->
              betweenClosed (exactPoint p) (exactPoint (collected64 ps f1))
                            (exactPoint (collected64 ps f2))))
     /\ ((forall i j, (i < j < 4)%nat -> exactDistance ps i j == 0) ->
         binary64.farthestScan ps
           = Ok (binary64.mkFarthest binary64.zero None None)
         /\ binary64.erase ps None = Fault Uninitialized
         /\ binary64.reduceIntersections ps = Fault Uninitialized)).
Proof.
  intros Hlen.
  split; [apply binary64_integers.integer_distances_agree |].
  intros Hagree.
  destruct ps as [| a [| b [| c [| d [| e ps]]]]]; try discriminate Hlen.
  clear Hlen.
  destruct (scan_four64 a b c d Hagree)
    as [(f1 & f2 & Hscan & Hlt & Hpos & Hmax & Hfirst & Hrest)
       | (Hscan & Hall)].
  - split.
    + intros _. exists f1, f2.
      pose proof (reduce_assigned64 a b c d _ f1 f2 Hscan Hlt) as Hred.
      rewrite Hrest in Hred.
      assert (Hincl : incl (keptPoints f1 f2 [a; b; c; d]) [a; b; c; d]).
      { split_pairs Hlt; intros p Hp; cbn in Hp; cbn; tauto. }
      repeat split; try assumption; try lia.
      * split_pairs Hlt; reflexivity.
      * split_pairs Hlt; reflexivity.
      * split_pairs Hlt; reflexivity.
      * intros Hline p Hp.
        apply (kept_between a b c d f1 f2); try assumption; try lia.
        apply Hincl. exact Hp.
    + intros Hzero. exfalso.
      specialize (Hzero f1 f2 Hlt). lra.
  - split.
    + intros (i & j & Hij & Hpos). exfalso.
      specialize (Hall i j Hij). lra.
    + intros _. split; [exact Hscan |]. split; [reflexivity |].
      unfold binary64.reduceIntersections.
      cbn [length Nat.eqb]. rewrite Hscan. reflexivity.
Qed.

Lemma fourOnLine64_onOneLine : onOneLine fourOnLine64.
Proof.
  exists (mkLine 0 1 0). split.
  - intros [_ H]. discriminate H.
  - intros p Hp. cbn in Hp.
    repeat match goal with
           | H : _ \/ _ |- _ => destruct H as [<- | H]
           | H : False |- _ => destruct H
           end; vm_compute; reflexivity.
Qed.

Lemma farthest_pair_reduction_up_to_rounding_witness :
  length fourOnLine64 = 4%nat
  /\ Forall integerPoint fourOnLine64
  /\ distancesAgree fourOnLine64
  /\ (exists i j, (i < j < 4)%nat /\ 0 < exactDistance fourOnLine64 i j)
  /\ onOneLine fourOnLine64
  /\ exists f1 f2,
       binary64.reduceIntersections fourOnLine64
         = Ok (keptPoints f1 f2 fourOnLine64)
       /\ forall p, In p (keptPoints f1 f2 fourOnLine64) ->
            betweenClosed (exactPoint p)
                          (exactPoint (collected64 fourOnLine64 f1))
                          (exactPoint (collected64 fourOnLine64 f2)).
Proof.
  assert (Hpos : exists i j,
             (i < j < 4)%nat /\ 0 < exactDistance fourOnLine64 i j).
  { exists 0%nat, 1%nat. split; [lia | vm_compute; reflexivity]. }
  assert (Hint : Forall integerPoint fourOnLine64).
  { repeat constructor;
      apply binary64_integers.integerPoint_point64; reflexivity. }
  pose proof (proj1 (farthest_pair_reduction_up_to_rounding fourOnLine64
                       eq_refl) Hint) as Hagree.
  split; [reflexivity |]. split; [exact Hint |]. split; [exact Hagree |].
  split; [exact Hpos |]. split; [exact fourOnLine64_onOneLine |].
  destruct (proj1 (proj2 (farthest_pair_reduction_up_to_rounding fourOnLine64
                            eq_refl) Hagree) Hpos)
    as (f1 & f2 & _ & _ & _ & _ & _ & _ & Hred & _ & _ & Hmid).
  exists f1, f2. split; [exact Hred |].
  exact (Hmid fourOnLine64_onOneLine).
Defined.

(** ** The probe *)

Lemma findValid_shape (segs : list Segment) (ints : list Point) :
  findValid segs ints =
  match segs, ints with
  | [], _ => Ok None
  | _ :: _, [] => Fault OutOfBounds
  | _ :: _, [p] =>
      if existsb (isInSegment p) segs then Fault OutOfBounds else Ok None
  | _ :: _, p :: q :: _ =>
      Ok (if existsb (isInSegment p) segs then Some (Segment_of p q) else None)
  end.
Proof.
  destruct segs as [| s0 segs]; [reflexivity |].
  destruct ints as [| p [| q ints]]; [reflexivity | |].
  - revert s0. induction segs as [| s1 segs IH]; intro s0.
    + cbn. destruct (isInSegment p s0); reflexivity.
    + specialize (IH s1).
      cbn [findValid vec_at nth_error bind existsb] in *.
      destruct (isInSegment p s0); [reflexivity | exact IH].
  - revert s0. induction segs as [| s1 segs IH]; intro s0.
    + cbn. destruct (isInSegment p s0); reflexivity.
    + specialize (IH s1).
      cbn [findValid vec_at nth_error bind existsb] in *.
      destruct (isInSegment p s0); [reflexivity | exact IH].
Qed.

Lemma sweepBody_steps (rect : Rectangle) (segs : list Segment)
    (st : SweepState) (ints : list Point) (found : option Segment) :
  candidatesAt segs st = Ok ints ->
  findValid segs ints = Ok found ->
  sweepBody rect segs st =
  Ok (match found with
      | Some s =>
          mkSweepState (hatchNorm st) (Point_add (point st) (hatchNorm st))
                       (res st ++ [s]) (forward st) true false
      | None =>
          if forward st && negb (firstIter st) then
            mkSweepState (Vector_scale (hatchNorm st) (-1))
                         (Point_add (points_at rect 0)
                                    (Vector_scale (hatchNorm st) (-1)))
                         (res st) false true false
          else
            mkSweepState (hatchNorm st) (Point_add (point st) (hatchNorm st))
                         (res st) (forward st) false false
      end).
Proof.
  unfold candidatesAt, collectedAt, sweepBody. intros H1 H2.
  rewrite H1. cbn [bind]. rewrite H2.
  cbn [bind]. destruct found; cbn [negb andb]; [reflexivity |].
  destruct (forward st && negb (firstIter st)); reflexivity.
Qed.

Lemma sweepBody_fault_candidates (rect : Rectangle) (segs : list Segment)
    (st : SweepState) (f : fault) :
  candidatesAt segs st = Fault f -> sweepBody rect segs st = Fault f.
Proof.
  unfold candidatesAt, collectedAt, sweepBody. intros ->. reflexivity.
Qed.

Lemma sweepBody_fault_findValid (rect : Rectangle) (segs : list Segment)
    (st : SweepState) (ints : list Point) (f : fault) :
  candidatesAt segs st = Ok ints ->
  findValid segs ints = Fault f ->
  sweepBody rect segs st = Fault f.
Proof.
  unfold candidatesAt, collectedAt, sweepBody. intros H1 H2.
  rewrite H1. cbn [bind]. rewrite H2. reflexivity.
Qed.

Lemma noCandidateInside_front (segs : list Segment) (p : Point)
    (ints : list Point) :
  noCandidateInside segs (p :: ints) = true ->
  existsb (isInSegment p) segs = false.
Proof.
  unfold noCandidateInside. cbn [forallb].
  rewrite andb_true_iff. intros [H _].
  induction segs as [| s segs IH]; [reflexivity |].
  cbn [forallb existsb] in *.
  apply andb_true_iff in H. destruct H as [H1 H2].
  apply negb_true_iff in H1. rewrite H1. exact (IH H2).
Qed.

(** ** The loop *)

Lemma sweepLoop_more_fuel (rect : Rectangle) (segs : list Segment) :
  forall (n m : nat) (st : SweepState),
    (n <= m)%nat ->
    sweepLoop n rect segs st <> OutOfFuel ->
    sweepLoop m rect segs st = sweepLoop n rect segs st.
Proof.
  induction n as [| n IH]; intros m st Hle Hn.
  - exfalso. apply Hn. reflexivity.
  - destruct m as [| m]; [lia |].
    cbn [sweepLoop] in *.
    destruct (forward st || isContinue st); [| reflexivity].
    destruct (sweepBody rect segs st) as [st' | f]; [| reflexivity].
    apply IH; [lia | exact Hn].
Qed.

Lemma rad_zero (M_PI : Q) : 0 * M_PI / 180 == 0.
Proof. field. Qed.

(** At a zero angle the offset vector is [(0, 1) * step], whatever [M_PI]
    is, as soon as [sin] and [cos] are exact at zero. *)
Lemma generateHatch_angle_zero (sin cos : Q -> Q) (M_PI : Q) :
  (forall x, x == 0 -> sin x = 0) ->
  (forall x, x == 0 -> cos x = 1) ->
  forall (fuel : nat) (rect : Rectangle) (step : Q),
    generateHatch sin cos M_PI fuel rect 0 step
    = sweepLoop fuel rect (toSegments rect)
                (initialState rect (Vector_scale (mkVector 0 1) step)).
Proof.
  intros Hsin Hcos fuel rect step.
  unfold generateHatch, hatchNormOf. cbv zeta.
  rewrite (Hsin _ (rad_zero M_PI)), (Hcos _ (rad_zero M_PI)).
  reflexivity.
Qed.

Lemma sin_zero_exact : forall x, x == 0 -> sin_zero x = 0.
Proof. reflexivity. Qed.

Lemma cos_zero_exact : forall x, x == 0 -> cos_zero x = 1.
Proof. reflexivity. Qed.

(** C2.  With [sin] and [cos] exact at a zero angle, [generateHatch] on the
    square (0,0),(10,0),(10,10),(0,10) with angle 0 and step 5 returns
    exactly one segment, from (0,5) to (10,5); five evaluations of the loop
    condition are enough. *)
Theorem generateHatch_square_midline (sin cos : Q -> Q) (M_PI : Q) :
  (forall x, x == 0 -> sin x = 0) ->
  (forall x, x == 0 -> cos x = 1) ->
  exists s : Segment,
    (forall fuel, (5 <= fuel)%nat ->
        generateHatch sin cos M_PI fuel square 0 5 = Returned [s])
    /\ (p_x (s_a s) == 0 /\ p_y (s_a s) == 5
        /\ p_x (s_b s) == 10 /\ p_y (s_b s) == 5)
    /\ (Qabs (p_x (s_a s) - 0) < EPS /\ Qabs (p_y (s_a s) - 5) < EPS
        /\ Qabs (p_x (s_b s) - 10) < EPS /\ Qabs (p_y (s_b s) - 5) < EPS).
Proof.
  intros Hsin Hcos.
  assert (Hrun : exists s,
             sweepLoop 5 square (toSegments square)
               (initialState square (Vector_scale (mkVector 0 1) 5))
             = Returned [s]
             /\ (p_x (s_a s) == 0 /\ p_y (s_a s) == 5
                 /\ p_x (s_b s) == 10 /\ p_y (s_b s) == 5)
             /\ (Qabs (p_x (s_a s) - 0) < EPS /\ Qabs (p_y (s_a s) - 5) < EPS
                 /\ Qabs (p_x (s_b s) - 10) < EPS
                 /\ Qabs (p_y (s_b s) - 5) < EPS)).
  { eexists. split; [vm_compute; reflexivity |].
    split; repeat split. }
  destruct Hrun as (s & Hrun & Hexact & Hnear).
  exists s. split; [| split; assumption].
  intros fuel Hfuel.
  rewrite (generateHatch_angle_zero sin cos M_PI Hsin Hcos).
  rewrite (sweepLoop_more_fuel square (toSegments square) 5 fuel);
    [exact Hrun | exact Hfuel | rewrite Hrun; discriminate].
Qed.

Lemma generateHatch_square_midline_witness :
  exists s : Segment,
    generateHatch sin_zero cos_zero M_PI_double 5 square 0 5 = Returned [s]
    /\ p_x (s_a s) == 0 /\ p_y (s_a s) == 5
    /\ p_x (s_b s) == 10 /\ p_y (s_b s) == 5.
Proof.
  destruct (generateHatch_square_midline sin_zero cos_zero M_PI_double
              sin_zero_exact cos_zero_exact)
    as (s & Hrun & Hexact & _).
  exists s. split; [apply Hrun; lia | exact Hexact].
Defined.

(** ** The sweep: crossings, faults and phases *)

Lemma remove_at_incl (v : list Point) : forall i, incl (remove_at v i) v.
Proof.
  induction v as [| p v IH]; intros i; [apply incl_refl |].
  destruct i as [| i]; cbn [remove_at].
  - apply incl_tl, incl_refl.
  - apply incl_cons; [left; reflexivity |].
    apply incl_tl, IH.
Qed.

Lemma erase_incl (v v' : list Point) (idx : option nat) :
  erase v idx = Ok v' -> incl v' v.
Proof.
  unfold erase. destruct idx as [i |]; [| discriminate].
  destruct (i <? length v)%nat; [| discriminate].
  intro H. injection H as <-. apply remove_at_incl.
Qed.

Lemma reduce_incl (collected ints : list Point) :
  reduceIntersections collected = Ok ints -> incl ints collected.
Proof.
  unfold reduceIntersections.
  destruct (length collected =? 4)%nat.
  - destruct (farthestScan collected) as [far |]; cbn [bind]; [| discriminate].
    destruct (erase collected (farthest2 far)) as [v |] eqn:Hv; cbn [bind];
      [| discriminate].
    intro H. apply erase_incl in H. apply erase_incl in Hv.
    exact (incl_tran H Hv).
  - intro H. injection H as <-. apply incl_refl.
Qed.




Lemma sweepLoop_S (fuel : nat) (rect : Rectangle) (segs : list Segment)
    (st : SweepState) :
  sweepLoop (S fuel) rect segs st =
  if forward st || isContinue st then
    match sweepBody rect segs st with
    | Ok st' => sweepLoop fuel rect segs st'
    | Fault f => Undefined f
    end
  else Returned (res st).
Proof. reflexivity. Qed.

Lemma tiny_step_run (sin cos : Q -> Q) (M_PI : Q) :
  (forall x, x == 0 -> sin x = 0) ->
  (forall x, x == 0 -> cos x = 1) ->
  forall fuel, (1 <= fuel)%nat ->
    generateHatch sin cos M_PI fuel square 0 tinyStep = Undefined OutOfBounds.
Proof.
  intros Hsin Hcos fuel Hfuel.
  rewrite (generateHatch_angle_zero sin cos M_PI Hsin Hcos).
  rewrite (sweepLoop_more_fuel square (toSegments square) 1 fuel);
    [reflexivity | exact Hfuel | discriminate].
Qed.

Lemma sweepLoop64_S (fuel : nat) (rect : binary64.Rectangle)
    (segs : list binary64.Segment) (st : binary64.SweepState) :
  binary64.sweepLoop (S fuel) rect segs st =
  if binary64.forward st || binary64.isContinue st then
    match binary64.sweepBody rect segs st with
    | Ok st' => binary64.sweepLoop fuel rect segs st'
    | Fault f => Undefined f
    end
  else Returned (binary64.res st).
Proof. reflexivity. Qed.

Lemma sweepLoop64_more_fuel (rect : binary64.Rectangle)
    (segs : list binary64.Segment) :
  forall (n m : nat) (st : binary64.SweepState),
    (n <= m)%nat ->
    binary64.sweepLoop n rect segs st <> OutOfFuel ->
    binary64.sweepLoop m rect segs st = binary64.sweepLoop n rect segs st.
Proof.
  induction n as [| n IH]; intros m st Hle Hn.
  - exfalso. apply Hn. reflexivity.
  - destruct m as [| m]; [lia |].
    rewrite !sweepLoop64_S in *.
    destruct (binary64.forward st || binary64.isContinue st); [| reflexivity].
    destruct (binary64.sweepBody rect segs st) as [st' | f]; [| reflexivity].
    apply IH; [lia | exact Hn].
Qed.

(** C1.  [generateHatch] does not return a sequence of segments for every
    convex quadrilateral and every step > 0.  On the convex square
    (0,0),(10,0),(10,10),(0,10) with angle 0 and the positive step 1e-9, with
    [sin] and [cos] exact at a zero angle, the first probe collects no
    intersection (every edge line is within [EPS] of parallel to the hatch
    line) and the call reads [intersections.front()] of the empty vector,
    in exact arithmetic and in binary64 alike; no fuel makes it return. *)
Theorem generateHatch_tiny_step_faults (sin cos : Q -> Q) (M_PI : Q) :
  (forall x, x == 0 -> sin x = 0) ->
  (forall x, x == 0 -> cos x = 1) ->
  0 < tinyStep
  /\ collectedAt (toSegments square)
                 (initialState square (hatchNormOf sin cos M_PI 0 tinyStep))
     = []
  /\ (forall fuel, (1 <= fuel)%nat ->
        generateHatch sin cos M_PI fuel square 0 tinyStep
        = Undefined OutOfBounds)
  /\ (forall fuel (l : list Segment),
        generateHatch sin cos M_PI fuel square 0 tinyStep <> Returned l)
  /\ (forall fuel,
        binary64.generateHatch sin_zero64 cos_zero64 M_PI_double64 (S fuel)
                               square64 binary64.zero tinyStep64
        = Undefined OutOfBounds).
Proof.
  intros Hsin Hcos.
  pose proof (tiny_step_run sin cos M_PI Hsin Hcos) as Hrun.
  split; [reflexivity |]. split; [| split; [exact Hrun | split]].
  - unfold hatchNormOf. cbv zeta.
    rewrite (Hsin _ (rad_zero M_PI)), (Hcos _ (rad_zero M_PI)).
    reflexivity.
  - intros fuel l. destruct fuel as [| fuel].
    + discriminate.
    + rewrite Hrun by lia. discriminate.
  - intro fuel. unfold binary64.generateHatch. cbv zeta.
    rewrite (sweepLoop64_more_fuel _ _ 1 (S fuel)); [| lia |].
    + vm_compute. reflexivity.
    + vm_compute. discriminate.
Qed.

Lemma generateHatch_tiny_step_faults_witness :
  0 < tinyStep
  /\ generateHatch sin_zero cos_zero M_PI_double 1 square 0 tinyStep
     = Undefined OutOfBounds.
Proof.
  destruct (generateHatch_tiny_step_faults sin_zero cos_zero M_PI_double
              sin_zero_exact cos_zero_exact)
    as (Hpos & _ & Hrun & _).
  split; [exact Hpos | apply Hrun; lia].
Defined.

(** C5, as stated, fails on the square with angle 0 and step 5: the first
    probe, at the corner (0,0), has no candidate inside any edge, yet the
    call never returns the empty sequence; it goes on and returns one
    segment. *)
Lemma first_probe_miss_does_not_stop :
  (exists candidates,
      candidatesAt (toSegments square)
        (initialState square (hatchNormOf sin_zero cos_zero M_PI_double 0 5))
      = Ok candidates
      /\ noCandidateInside (toSegments square) candidates = true)
  /\ (forall fuel,
         generateHatch sin_zero cos_zero M_PI_double fuel square 0 5
         <> Returned [])
  /\ generateHatch sin_zero cos_zero M_PI_double 2 square 0 5 = OutOfFuel
  /\ exists s,
       generateHatch sin_zero cos_zero M_PI_double 5 square 0 5 = Returned [s].
Proof.
  assert (Hrun : exists s,
             generateHatch sin_zero cos_zero M_PI_double 5 square 0 5
             = Returned [s]).
  { eexists. vm_compute. reflexivity. }
  split; [| split; [| split; [reflexivity | exact Hrun]]].
  - eexists. split; [vm_compute; reflexivity | reflexivity].
  - intro fuel. destruct Hrun as (s & Hrun).
    destruct (le_lt_dec 5 fuel) as [Hge | Hlt].
    + unfold generateHatch in *. cbv zeta in *.
      rewrite (sweepLoop_more_fuel square (toSegments square) 5 fuel);
        [rewrite Hrun; discriminate | exact Hge | rewrite Hrun; discriminate].
    + do 5 (destruct fuel as [| fuel]; [discriminate |]). lia.
Qed.

(** C5, amended.  When the first probe has at least one candidate and no
    candidate inside any edge, the body emits nothing, leaves [forward] set,
    clears [firstIter] and moves the probe point by [hatchNorm]; the loop
    condition still holds, so the call continues with the next probe. *)
Theorem first_probe_miss_continues_forward (sin cos : Q -> Q) (M_PI : Q)
    (rect : Rectangle) (angle step : Q) (candidates : list Point) :
  let norm := hatchNormOf sin cos M_PI angle step in
  let st0 := initialState rect norm in
  let st1 := mkSweepState norm (Point_add (points_at rect 0) norm)
                          [] true false false in
  candidatesAt (toSegments rect) st0 = Ok candidates ->
  candidates <> [] ->
  noCandidateInside (toSegments rect) candidates = true ->
  sweepBody rect (toSegments rect) st0 = Ok st1
  /\ forward st1 || isContinue st1 = true
  /\ (forall fuel,
         generateHatch sin cos M_PI (S fuel) rect angle step
         = sweepLoop fuel rect (toSegments rect) st1)
  /\ (forall l : list Segment,
         generateHatch sin cos M_PI 2 rect angle step <> Returned l).
Proof.
  intros norm st0 st1 Hcand Hne Hmiss.
  destruct candidates as [| p rest]; [congruence |].
  pose proof (noCandidateInside_front _ _ _ Hmiss) as Hfront.
  assert (Hfind : findValid (toSegments rect) (p :: rest) = Ok None).
  { rewrite findValid_shape, toSegments_unfold.
    rewrite toSegments_unfold in Hfront.
    destruct rest; rewrite Hfront; reflexivity. }
  assert (Hbody : sweepBody rect (toSegments rect) st0 = Ok st1).
  { rewrite (sweepBody_steps rect _ st0 _ _ Hcand Hfind). reflexivity. }
  assert (Hloop : forall fuel,
             generateHatch sin cos M_PI (S fuel) rect angle step
             = sweepLoop fuel rect (toSegments rect) st1).
  { intro fuel. unfold generateHatch. cbv zeta.
    fold norm. fold st0. cbn [sweepLoop].
    change (forward st0 || isContinue st0) with true. cbv iota.
    rewrite Hbody. reflexivity. }
  split; [exact Hbody |]. split; [reflexivity |]. split; [exact Hloop |].
  intro l. rewrite Hloop. cbn [sweepLoop].
  change (forward st1 || isContinue st1) with true. cbv iota.
  destruct (sweepBody rect (toSegments rect) st1); discriminate.
Qed.

Lemma first_probe_miss_continues_forward_witness :
  let norm := hatchNormOf sin_zero cos_zero M_PI_double 0 5 in
  candidatesAt (toSegments square) (initialState square norm)
    = Ok squareFirstCandidates
  /\ squareFirstCandidates <> []
  /\ noCandidateInside (toSegments square) squareFirstCandidates = true
  /\ sweepBody square (toSegments square) (initialState square norm)
     = Ok (mkSweepState norm (Point_add (points_at square 0) norm)
                        [] true false false).
Proof.
  intro norm.
  assert (Hc : candidatesAt (toSegments square) (initialState square norm)
               = Ok squareFirstCandidates) by reflexivity.
  assert (Hne : squareFirstCandidates <> []) by discriminate.
  assert (Hmiss : noCandidateInside (toSegments square) squareFirstCandidates
                  = true) by reflexivity.
  split; [exact Hc |]. split; [exact Hne |]. split; [exact Hmiss |].
  exact (proj1 (first_probe_miss_continues_forward
                  sin_zero cos_zero M_PI_double square 0 5
                  squareFirstCandidates Hc Hne Hmiss)).
Defined.

(** C9, as stated, fails on the quadrilateral (0,0),(1,4e-8),(2,8e-8),
    (3,1.2e-7) with angle 0 and step 1: the first probe collects exactly one
    intersection, fewer than two, and its body completes without a fault;
    the whole call returns the empty sequence. *)
Lemma one_crossing_without_fault :
  length (collectedAt (toSegments sliver)
            (initialState sliver
               (hatchNormOf sin_zero cos_zero M_PI_double 0 1))) = 1%nat
  /\ (exists st1,
         sweepBody sliver (toSegments sliver)
           (initialState sliver
              (hatchNormOf sin_zero cos_zero M_PI_double 0 1)) = Ok st1)
  /\ generateHatch sin_zero cos_zero M_PI_double 4 sliver 0 1 = Returned [].
Proof.
  split; [reflexivity |]. split; [| reflexivity].
  eexists. vm_compute. reflexivity.
Qed.

Lemma reduce_other_size (ints : list Point) :
  length ints <> 4%nat -> reduceIntersections ints = Ok ints.
Proof.
  intro H. unfold reduceIntersections.
  destruct (Nat.eqb_spec (length ints) 4); [contradiction | reflexivity].
Qed.

Lemma findValid_two_ok (segs : list Segment) (p q : Point)
    (rest : list Point) :
  exists found, findValid segs (p :: q :: rest) = Ok found.
Proof.
  rewrite findValid_shape. destruct segs; eexists; reflexivity.
Qed.

(** C9, amended.  In every probe of a rectangle: when at least two
    intersections are collected no vector read is out of bounds; when none
    is collected the read of [intersections.front()] is out of bounds; when
    exactly one is collected, a read is out of bounds exactly when that
    point is inside some edge, where [intersections[1]] is read. *)
Theorem probe_reads_in_bounds (rect : Rectangle) (st : SweepState) :
  let segs := toSegments rect in
  let collected := collectedAt segs st in
  ((2 <= length collected)%nat -> sweepBody rect segs st <> Fault OutOfBounds)
  /\ (collected = [] -> sweepBody rect segs st = Fault OutOfBounds)
  /\ (forall p, collected = [p] ->
        (sweepBody rect segs st = Fault OutOfBounds
         <-> existsb (isInSegment p) segs = true)).
Proof.
  intros segs collected.
  split; [| split].
  - intro Hlen.
    destruct (Nat.eq_dec (length collected) 4) as [H4 | H4].
    + destruct collected as [| a [| b [| c [| d [| e l]]]]] eqn:Hc;
        try discriminate H4.
      destruct (scan_four a b c d)
        as [(f1 & f2 & Hscan & Hlt & _ & _ & _ & _) | (Hscan & _)].
      * pose proof (reduce_assigned a b c d _ f1 f2 Hscan Hlt) as Hred.
        assert (Hfound : exists found,
                   findValid segs (remove_at (remove_at [a; b; c; d] f2) f1)
                   = Ok found).
        { split_pairs Hlt; cbn [remove_at]; apply findValid_two_ok. }
        destruct Hfound as (found & Hfound).
        unfold candidatesAt in *. fold collected in Hc.
        assert (Hcand : candidatesAt segs st
                        = Ok (remove_at (remove_at [a; b; c; d] f2) f1)).
        { unfold candidatesAt. fold collected. rewrite Hc. exact Hred. }
        rewrite (sweepBody_steps rect segs st _ _ Hcand Hfound).
        discriminate.
      * assert (Hcand : candidatesAt segs st = Fault Uninitialized).
        { unfold candidatesAt. fold collected. rewrite Hc.
          exact (reduce_unassigned a b c d _ Hscan). }
        rewrite (sweepBody_fault_candidates rect segs st _ Hcand).
        discriminate.
    + assert (Hcand : candidatesAt segs st = Ok collected).
      { unfold candidatesAt. fold collected. apply reduce_other_size.
        exact H4. }
      destruct collected as [| p [| q l]] eqn:Hc; cbn [length] in Hlen;
        try lia.
      destruct (findValid_two_ok segs p q l) as (found & Hfound).
      rewrite (sweepBody_steps rect segs st _ _ Hcand Hfound).
      discriminate.
  - intro Hc.
    assert (Hcand : candidatesAt segs st = Ok []).
    { unfold candidatesAt. fold collected. rewrite Hc. reflexivity. }
    apply (sweepBody_fault_findValid rect segs st [] _ Hcand).
    reflexivity.
  - intros p Hc.
    assert (Hcand : candidatesAt segs st = Ok [p]).
    { unfold candidatesAt. fold collected. rewrite Hc. reflexivity. }
    pose proof (findValid_shape segs [p]) as Hshape.
    unfold segs in Hshape at 2. rewrite toSegments_unfold in Hshape.
    cbv iota in Hshape.
    destruct (existsb (isInSegment p) segs) eqn:Hin.
    + rewrite (sweepBody_fault_findValid rect segs st _ _ Hcand Hshape).
      tauto.
    + rewrite (sweepBody_steps rect segs st _ _ Hcand Hshape).
      split; discriminate.
Qed.

Lemma probe_reads_in_bounds_witness :
  (2 <= length (collectedAt (toSegments square)
                  (initialState square (mkVector 0 5))))%nat
  /\ sweepBody square (toSegments square) (initialState square (mkVector 0 5))
     <> Fault OutOfBounds.
Proof.
  assert (Hlen : (2 <= length (collectedAt (toSegments square)
                                 (initialState square (mkVector 0 5))))%nat)
    by (vm_compute; lia).
  split; [exact Hlen |].
  exact (proj1 (probe_reads_in_bounds square
                  (initialState square (mkVector 0 5))) Hlen).
Defined.

(** ** The renderer's bounding box *)

Lemma DBL_MIN_pos : 0 < svg.DBL_MIN.
Proof. reflexivity. Qed.

Lemma std_max_ge_l (a b : Q) : a <= std_max a b.
Proof.
  unfold std_max. destruct (Qltb a b) eqn:E.
  - apply Qltb_lt in E. lra.
  - lra.
Qed.

Lemma growBox_max (b : svg.Box) (segment : Segment) :
  svg.maxX b <= svg.maxX (svg.growBox b segment)
  /\ svg.maxY b <= svg.maxY (svg.growBox b segment).
Proof.
  unfold svg.growBox. cbn [svg.maxX svg.maxY].
  split.
  - pose proof (std_max_ge_l (svg.maxX b) (p_x (s_a segment))).
    pose proof (std_max_ge_l (std_max (svg.maxX b) (p_x (s_a segment)))
                             (p_x (s_b segment))).
    lra.
  - pose proof (std_max_ge_l (svg.maxY b) (p_y (s_a segment))).
    pose proof (std_max_ge_l (std_max (svg.maxY b) (p_y (s_a segment)))
                             (p_y (s_b segment))).
    lra.
Qed.

Lemma growBox_fold_max (segments : list Segment) :
  forall b : svg.Box,
    svg.maxX b <= svg.maxX (fold_left svg.growBox segments b)
    /\ svg.maxY b <= svg.maxY (fold_left svg.growBox segments b).
Proof.
  induction segments as [| segment segments IH]; intro b; cbn [fold_left].
  - split; lra.
  - destruct (growBox_max b segment) as [Hx Hy].
    destruct (IH (svg.growBox b segment)) as [Hx' Hy'].
    split; lra.
Qed.

(** Whatever the segments, the running maxima of [draw] never go below
    their initial value [DBL_MIN]: they are positive. *)
Lemma boundingBox_max_positive (w : svg.SVGWriter) :
  0 < svg.maxX (svg.boundingBox w) /\ 0 < svg.maxY (svg.boundingBox w).
Proof.
  unfold svg.boundingBox.
  assert (H : forall fs b,
             svg.maxX b
             <= svg.maxX (fold_left
                            (fun b0 (pair : svg.LineFormat * list Segment) =>
                               fold_left svg.growBox (snd pair) b0)
                            fs b)
             /\ svg.maxY b
                <= svg.maxY (fold_left
                               (fun b0
                                    (pair : svg.LineFormat * list Segment) =>
                                  fold_left svg.growBox (snd pair) b0)
                               fs b)).
  { induction fs as [| pair fs IH]; intro b; cbn [fold_left].
    - split; lra.
    - destruct (growBox_fold_max (snd pair) b) as [Hx Hy].
      destruct (IH (fold_left svg.growBox (snd pair) b)) as [Hx' Hy'].
      split; lra. }
  destruct (H (svg.formatSegments w)
              (svg.mkBox svg.DBL_MAX svg.DBL_MAX svg.DBL_MIN svg.DBL_MIN))
    as [Hx Hy].
  cbn [svg.maxX svg.maxY] in Hx, Hy.
  pose proof DBL_MIN_pos. split; lra.
Qed.

(** The hatch of the negative square at angle 0 and step 100 is empty. *)
Lemma negativeSquare_hatch_empty :
  generateHatch sin_zero cos_zero M_PI_double 4 negativeSquare 0 100
  = Returned [].
Proof. reflexivity. Qed.

(** C8.  For the contour of the square (-10,-10),(-5,-10),(-5,-5),(-10,-5),
    whose coordinates are all negative, [draw] computes [minX = minY = -10]
    but [maxX = maxY = DBL_MIN], a positive number, not the greatest
    endpoint coordinate -5; the scale is 400 / (DBL_MIN + 10), not
    min(400 / 5, 400 / 5) = 80. *)
Theorem draw_box_of_negative_coordinates :
  svg.minX (svg.boundingBox negativeWriter) == -10
  /\ svg.minY (svg.boundingBox negativeWriter) == -10
  /\ svg.maxX (svg.boundingBox negativeWriter) == svg.DBL_MIN
  /\ svg.maxY (svg.boundingBox negativeWriter) == svg.DBL_MIN
  /\ ~ svg.maxX (svg.boundingBox negativeWriter) == -5
  /\ ~ svg.maxY (svg.boundingBox negativeWriter) == -5
  /\ svg.scaleOf negativeWriter == 400 / (svg.DBL_MIN + 10)
  /\ svg.scaleOf negativeWriter < 80.
Proof.
  repeat split; try reflexivity; intro H; vm_compute in H; discriminate H.
Qed.

(* ================================================================== *)
(** * Further properties of the code *)

(** ** Predicates *)

Lemma crossProduct_antisym (v1 v2 : Vector) :
  crossProduct v1 v2 == - crossProduct v2 v1.
Proof. unfold crossProduct. ring. Qed.

Lemma parallel_sym (l1 l2 : Line) :
  isLinesSameOrParallel l1 l2 = isLinesSameOrParallel l2 l1.
Proof.
  unfold isLinesSameOrParallel. cbv zeta.
  apply Qltb_proper; [| reflexivity].
  rewrite (crossProduct_antisym (normOf l1) (normOf l2)).
  apply Qabs_opp.
Qed.

(** X1.  [isLinesSameOrParallel] gives the same answer whichever of the two
    lines comes first. *)
Theorem isLinesSameOrParallel_symmetric (l1 l2 : Line) :
  isLinesSameOrParallel l1 l2 = isLinesSameOrParallel l2 l1.
Proof. exact (parallel_sym l1 l2). Qed.


Lemma sub_self_finite (x : binary64.double) :
  binary64.is_finite x = true -> binary64.sub x x = binary64.zero.
Proof.
  destruct x as [s | s | | s m e]; cbn; try discriminate; intros _.
  - destruct s; reflexivity.
  - rewrite Z.sub_diag. reflexivity.
Qed.

(** The cross product of the zero vector with a finite vector, on either
    side, is a zero. *)
Lemma crossProduct_zero_l (v : binary64.Vector) :
  binary64.is_finite (binary64.v_x v) = true ->
  binary64.is_finite (binary64.v_y v) = true ->
  exists s,
    binary64.crossProduct (binary64.mkVector binary64.zero binary64.zero) v
    = S754_zero s.
Proof.
  destruct v as [[sx | sx | | sx mx ex] [sy | sy | | sy my ey]];
    cbn; try discriminate; intros _ _;
    repeat match goal with s : bool |- _ => destruct s end;
    cbn; eexists; reflexivity.
Qed.

Lemma crossProduct_zero_r (v : binary64.Vector) :
  binary64.is_finite (binary64.v_x v) = true ->
  binary64.is_finite (binary64.v_y v) = true ->
  exists s,
    binary64.crossProduct v (binary64.mkVector binary64.zero binary64.zero)
    = S754_zero s.
Proof.
  destruct v as [[sx | sx | | sx mx ex] [sy | sy | | sy my ey]];
    cbn; try discriminate; intros _ _;
    repeat match goal with s : bool |- _ => destruct s end;
    cbn; eexists; reflexivity.
Qed.

Lemma degenerate_line_normal (p : binary64.Point) :
  binary64.is_finite (binary64.p_x p) = true ->
  binary64.is_finite (binary64.p_y p) = true ->
  binary64.normOf (binary64.Line_of_points p p)
  = binary64.mkVector binary64.zero binary64.zero.
Proof.
  intros Hx Hy. unfold binary64.normOf, binary64.Line_of_points.
  cbn [binary64.l_a binary64.l_b].
  rewrite (sub_self_finite _ Hx), (sub_self_finite _ Hy). reflexivity.
Qed.

(** X2.  In binary64, the line of a segment whose two endpoints are the same
    point with finite coordinates passes the parallel test against every
    line with finite coefficients [a], [b], on either side of the test:
    such an edge never contributes an intersection. *)
Theorem degenerate_lines_are_parallel (p : binary64.Point) (l : binary64.Line) :
  binary64.is_finite (binary64.p_x p) = true ->
  binary64.is_finite (binary64.p_y p) = true ->
  binary64.is_finite (binary64.l_a l) = true ->
  binary64.is_finite (binary64.l_b l) = true ->
  binary64.isLinesSameOrParallel (binary64.Line_of_points p p) l = true
  /\ binary64.isLinesSameOrParallel l (binary64.Line_of_points p p) = true
  /\ binary64.collectIntersections [binary64.Segment_of p p] l = [].
Proof.
  intros Hx Hy Ha Hb.
  assert (H1 : binary64.isLinesSameOrParallel (binary64.Line_of_points p p) l
               = true).
  { unfold binary64.isLinesSameOrParallel. cbv zeta.
    rewrite (degenerate_line_normal p Hx Hy).
    destruct (crossProduct_zero_l (binary64.normOf l) Ha Hb) as (s & ->).
    reflexivity. }
  split; [exact H1 |]. split.
  - unfold binary64.isLinesSameOrParallel. cbv zeta.
    rewrite (degenerate_line_normal p Hx Hy).
    destruct (crossProduct_zero_r (binary64.normOf l) Ha Hb) as (s & ->).
    reflexivity.
  - cbn [binary64.collectIntersections binary64.Segment_of binary64.s_line].
    rewrite H1. reflexivity.
Qed.

Lemma degenerate_lines_are_parallel_witness :
  binary64.collectIntersections
    [binary64.Segment_of (point64 1 0 2 0) (point64 1 0 2 0)]
    (binary64.s_line baseEdge64) = [].
Proof.
  apply (degenerate_lines_are_parallel (point64 1 0 2 0)
           (binary64.s_line baseEdge64)); reflexivity.
Defined.





(** X5.  When the determinant is nonzero, [linesIntersection] returns the same
    point whichever of the two lines comes first. *)
Theorem linesIntersection_symmetric (l1 l2 : Line) :
  ~ l_a l1 * l_b l2 - l_a l2 * l_b l1 == 0 ->
  Point_eq (linesIntersection l1 l2) (linesIntersection l2 l1).
Proof.
  intro Hd. unfold Point_eq, linesIntersection. cbn [p_x p_y].
  assert (Hd' : ~ l_a l2 * l_b l1 - l_a l1 * l_b l2 == 0).
  { intro H. apply Hd. lra. }
  split; field; split; assumption.
Qed.

Lemma linesIntersection_symmetric_witness :
  Point_eq (linesIntersection (mkLine (-10) 0 0) (mkLine 0 5 (-25)))
           (linesIntersection (mkLine 0 5 (-25)) (mkLine (-10) 0 0)).
Proof.
  apply (linesIntersection_symmetric (mkLine (-10) 0 0) (mkLine 0 5 (-25))).
  intro H. discriminate H.
Defined.

(** X6.  In binary64 [isInSegment] depends on the order of the endpoints: on
    the line y = 7 x the point (1,7), which lies strictly between
    (2^-37, 7 * 2^-37) and (12288, 86016), is inside the segment from the
    first to the second and not inside the segment from the second to the
    first. *)
Theorem isInSegment_depends_on_orientation :
  strictlyBetween (exactPoint steepPoint)
                  (exactSegment (binary64.Segment_of slantStart slantEnd))
  /\ binary64.isInSegment steepPoint (binary64.Segment_of slantStart slantEnd)
     = true
  /\ binary64.isInSegment steepPoint (binary64.Segment_of slantEnd slantStart)
     = false.
Proof.
  split; [| split; vm_compute; reflexivity].
  split.
  - intros [H _]. vm_compute in H. discriminate H.
  - exists ((2 ^ 37 - 1) / (12288 * 2 ^ 37 - 1)).
    repeat split; vm_compute; reflexivity.
Qed.

Lemma binary_round_aux_sign (mx ex : Z) (lx : location) :
  binary_round_aux binary64.prec binary64.emax true mx ex lx
  = SFopp (binary_round_aux binary64.prec binary64.emax false mx ex lx)
  /\ signClear (binary_round_aux binary64.prec binary64.emax false mx ex lx).
Proof.
  unfold binary_round_aux.
  destruct (shr_fexp binary64.prec binary64.emax mx ex lx) as [mrs' e'].
  destruct (shr_fexp binary64.prec binary64.emax _ e' loc_Exact) as [mrs'' e''].
  destruct (shr_m mrs'') as [| m | m]; cbn.
  - split; reflexivity.
  - destruct (_ <=? _)%Z; split; reflexivity.
  - split; [reflexivity | exact I].
Qed.

Lemma binary_round_sign (m : positive) (e : Z) :
  binary_round binary64.prec binary64.emax true m e
  = SFopp (binary_round binary64.prec binary64.emax false m e)
  /\ signClear (binary_round binary64.prec binary64.emax false m e).
Proof.
  unfold binary_round.
  destruct (shl_align m e _) as [mz ez].
  apply binary_round_aux_sign.
Qed.

Lemma binary_normalize_opp (m e : Z) :
  negated (binary_normalize binary64.prec binary64.emax m e false)
          (binary_normalize binary64.prec binary64.emax (- m) e false).
Proof.
  destruct m as [| m | m]; cbn [Z.opp binary_normalize].
  - right. split; reflexivity.
  - left. apply binary_round_sign.
  - left. rewrite (proj1 (binary_round_sign m e)).
    destruct (binary_round binary64.prec binary64.emax false m e);
      cbn; rewrite ?negb_involutive; reflexivity.
Qed.

Lemma sub_negated (x y : binary64.double) :
  negated (binary64.sub x y) (binary64.sub y x).
Proof.
  destruct x as [sx | sx | | sx mx ex], y as [sy | sy | | sy my ey];
    try solve [ repeat match goal with s : bool |- _ => destruct s end;
                cbn; first [left; reflexivity | right; split; reflexivity] ].
  unfold binary64.sub, SFsub. cbv zeta.
  rewrite (Z.min_comm ey ex).
  set (ez := Z.min ex ey).
  set (a := cond_Zopp sx (Zpos (fst (shl_align mx ex ez)))).
  set (b := cond_Zopp sy (Zpos (fst (shl_align my ey ez)))).
  replace (b - a)%Z with (- (a - b))%Z by lia.
  apply binary_normalize_opp.
Qed.

Lemma mul_negated (u v : binary64.double) :
  negated u v -> binary64.mul v v = binary64.mul u u.
Proof.
  intros [-> | [-> ->]]; [| reflexivity].
  destruct u as [s | s | | s m e]; cbn; try reflexivity.
  - destruct s; reflexivity.
  - destruct s; reflexivity.
  - destruct s; reflexivity.
Qed.

Lemma square_signClear (u : binary64.double) : signClear (binary64.mul u u).
Proof.
  destruct u as [s | s | | s m e]; cbn.
  - destruct s; reflexivity.
  - destruct s; reflexivity.
  - exact I.
  - replace (xorb s s) with false by (destruct s; reflexivity).
    apply binary_round_aux_sign.
Qed.

Lemma add_signClear (x y : binary64.double) :
  signClear x -> signClear y -> signClear (binary64.add x y).
Proof.
  destruct x as [sx | sx | | sx mx ex], y as [sy | sy | | sy my ey];
    cbn; trivial; try (intros -> ->; reflexivity).
  intros -> ->. cbn [cond_Zopp Z.add binary_normalize].
  apply binary_round_sign.
Qed.

Lemma signClear_not_negative (x : binary64.double) :
  signClear x -> binary64.ltb x binary64.zero = false.
Proof. destruct x as [s | s | | s m e]; cbn; trivial; intros ->; reflexivity. Qed.

(** X7.  In binary64, for all coordinates (also infinite or NaN):
    [distance2] does not depend on the order of its arguments, it is never
    below 0, and it is never above 0 for a point and itself. *)
Theorem distance2_metric_facts (p q : binary64.Point) :
  binary64.distance2 p q = binary64.distance2 q p
  /\ binary64.ltb (binary64.distance2 p q) binary64.zero = false
  /\ binary64.gtb (binary64.distance2 p p) binary64.zero = false.
Proof.
  split; [| split].
  - unfold binary64.distance2.
    rewrite (mul_negated _ _ (sub_negated (binary64.p_x p) (binary64.p_x q))).
    rewrite (mul_negated _ _ (sub_negated (binary64.p_y p) (binary64.p_y q))).
    reflexivity.
  - apply signClear_not_negative. unfold binary64.distance2.
    apply add_signClear; apply square_signClear.
  - apply gtb_zeroOrNaN. unfold binary64.distance2.
    apply add_zeroOrNaN; apply mul_zeroOrNaN_r; apply sub_self_zeroOrNaN.
Qed.

(** The exact-arithmetic characterisation of the accepted points. *)
Lemma isInSegment_band (p : Point) (s : Segment) :
  isInSegment p s = true <-> inToleranceBand p s.
Proof.
  unfold inToleranceBand.
  set (ux := p_x (s_b s) - p_x (s_a s)). set (uy := p_y (s_b s) - p_y (s_a s)).
  cbv zeta. rewrite isInSegment_true_iff.
  unfold crossProduct, dotProduct, Vector_of_points. cbn [v_x v_y].
  fold ux uy.
  set (wx := p_x p - p_x (s_a s)). set (wy := p_y p - p_y (s_a s)).
  set (U := ux * ux + uy * uy).
  assert (Hb : ux * (p_x (s_b s) - p_x p) + uy * (p_y (s_b s) - p_y p)
               == U - (ux * wx + uy * wy))
    by (unfold U, ux, uy, wx, wy; ring).
  split.
  - intros (Hc & He & Hf). rewrite Hb in Hf.
    assert (HU : 0 < U) by lra.
    split; [exact HU |].
    exists ((ux * wx + uy * wy) / U), ((ux * wy - uy * wx) / U).
    assert (HtU : (ux * wx + uy * wy) / U * U == ux * wx + uy * wy)
      by (field; lra).
    repeat split.
    + apply (Qmult_lt_r _ _ U HU). rewrite HtU. lra.
    + apply (Qmult_lt_r _ _ U HU). rewrite HtU. lra.
    + assert (Hs : (ux * wy - uy * wx) / U * U == ux * wy - uy * wx)
        by (field; lra).
      rewrite Hs. exact Hc.
    + unfold wx, wy, U. field. fold U. lra.
    + unfold wx, wy, U. field. fold U. lra.
  - intros (HU & t & sigma & Ht0 & Ht1 & Hs & Hx & Hy).
    assert (Hwx : wx == t * ux - sigma * uy) by (unfold wx; rewrite Hx; ring).
    assert (Hwy : wy == t * uy + sigma * ux) by (unfold wy; rewrite Hy; ring).
    rewrite Hb. rewrite Hwx, Hwy.
    assert (E1 : ux * (t * uy + sigma * ux) - uy * (t * ux - sigma * uy)
                 == sigma * U) by (unfold U; ring).
    assert (E2 : ux * (t * ux - sigma * uy) + uy * (t * uy + sigma * ux)
                 == t * U) by (unfold U; ring).
    rewrite E1, E2. repeat split; [exact Hs | nra | nra].
Qed.

(** X8.  Whenever the three tests of [isInSegment] come out in binary64 as
    they do without rounding, the accepted points are exactly the points
    [a + t (b - a) + sigma * perp (b - a)] with [0 < t < 1] and
    [|sigma| * |b - a|^2 < EPS], for a segment with distinct endpoints
    [a], [b], where [perp (ux, uy) = (- uy, ux)].  The tests come out so
    whenever all coordinates are integers of magnitude below 2^25. *)
Theorem isInSegment_tolerance_band :
  (forall (p : binary64.Point) (s : binary64.Segment),
      testsAgree p s ->
      (binary64.isInSegment p s = true
       <-> inToleranceBand (exactPoint p) (exactSegment s)))
  /\ (forall a b p : binary64.Point,
         integerPoint a -> integerPoint b -> integerPoint p ->
         (binary64.isInSegment p (binary64.Segment_of a b) = true
          <-> inToleranceBand (exactPoint p)
                              (exactSegment (binary64.Segment_of a b)))).
Proof.
  split.
  - intros p s Hagree. rewrite (isInSegment64_exact p s Hagree).
    apply isInSegment_band.
  - intros a b p Ha Hb Hp.
    rewrite (isInSegment64_exact p _
               (binary64_integers.integer_points_agree a b p Ha Hb Hp)).
    apply isInSegment_band.
Qed.

Lemma isInSegment_tolerance_band_witness :
  testsAgree (point64 5 0 0 0) baseEdge64
  /\ inToleranceBand (exactPoint (point64 5 0 0 0)) (exactSegment baseEdge64).
Proof.
  split; [exact baseEdge64_tests |].
  apply (proj1 isInSegment_tolerance_band _ _ baseEdge64_tests).
  vm_compute. reflexivity.
Defined.

(** ** The sweep *)




Lemma remove_at_length (v : list Point) :
  forall i, (i < length v)%nat -> length (remove_at v i) = pred (length v).
Proof.
  induction v as [| p v IH]; intros i Hi; cbn [length] in *; [lia |].
  destruct i as [| i]; cbn [remove_at length]; [reflexivity |].
  rewrite IH by lia. destruct v; cbn [length] in *; lia.
Qed.

Lemma erase_length (v v' : list Point) (idx : option nat) :
  erase v idx = Ok v' -> length v' = pred (length v).
Proof.
  unfold erase. destruct idx as [i |]; [| discriminate].
  destruct (Nat.ltb_spec i (length v)) as [Hi | Hi]; [| discriminate].
  intro E. injection E as <-. apply remove_at_length. exact Hi.
Qed.

(** X10.  The reduction step leaves a vector whose size is not 4 as it is,
    and what it returns consists of collected points only, exactly two of
    them when four were collected. *)
Theorem reduceIntersections_keeps_collected_points (collected : list Point) :
  (length collected <> 4%nat -> reduceIntersections collected = Ok collected)
  /\ forall ints, reduceIntersections collected = Ok ints ->
       incl ints collected
       /\ (length collected = 4%nat -> length ints = 2%nat).
Proof.
  split.
  - exact (reduce_other_size collected).
  - intros ints Hred. split; [exact (reduce_incl _ _ Hred) |].
    intro H4. unfold reduceIntersections in Hred. rewrite H4 in Hred.
    cbn [Nat.eqb] in Hred.
    destruct (farthestScan collected) as [far |]; cbn [bind] in Hred;
      [| discriminate].
    destruct (erase collected (farthest2 far)) as [v |] eqn:Hv;
      cbn [bind] in Hred; [| discriminate].
    apply erase_length in Hred. apply erase_length in Hv. lia.
Qed.

Lemma sweepBody_result (rect : Rectangle) (segs : list Segment)
    (st st' : SweepState) :
  sweepBody rect segs st = Ok st' ->
  (exists p q,
      In p (collectedAt segs st) /\ In q (collectedAt segs st)
      /\ existsb (isInSegment p) segs = true
      /\ st' = advancedState st (res st ++ [Segment_of p q]) true)
  \/ (forward st = true /\ firstIter st = false
      /\ st' = reversedState rect (hatchNorm st) (res st))
  \/ ((forward st = false \/ firstIter st = true)
      /\ st' = advancedState st (res st) false).
Proof.
  intro Hbody.
  destruct (candidatesAt segs st) as [ints | f] eqn:Hcand.
  2: { rewrite (sweepBody_fault_candidates rect segs st f Hcand) in Hbody.
       discriminate. }
  destruct (findValid segs ints) as [found | f] eqn:Hfind.
  2: { rewrite (sweepBody_fault_findValid rect segs st ints f Hcand Hfind)
         in Hbody. discriminate. }
  rewrite (sweepBody_steps rect segs st ints found Hcand Hfind) in Hbody.
  injection Hbody as <-.
  destruct found as [s |].
  - left. rewrite findValid_shape in Hfind.
    destruct segs as [| s0 segs]; [discriminate |].
    destruct ints as [| p [| q ints]]; [discriminate | |].
    + destruct (existsb (isInSegment p) (s0 :: segs)); discriminate.
    + destruct (existsb (isInSegment p) (s0 :: segs)) eqn:Hex;
        [| discriminate].
      injection Hfind as <-.
      pose proof (reduce_incl _ _ Hcand) as Hincl.
      exists p, q. repeat split.
      * apply Hincl. left. reflexivity.
      * apply Hincl. right. left. reflexivity.
      * exact Hex.
  - right. destruct (forward st) eqn:Hfw; destruct (firstIter st) eqn:Hfi;
      cbn [andb negb].
    + right. split; [right; reflexivity |].
      unfold advancedState. rewrite Hfw. reflexivity.
    + left. repeat split.
    + right. split; [left; reflexivity |].
      unfold advancedState. rewrite Hfw. reflexivity.
    + right. split; [left; reflexivity |].
      unfold advancedState. rewrite Hfw. reflexivity.
Qed.














Lemma sweepLoop_length (rect : Rectangle) (segs : list Segment) :
  forall (fuel : nat) (st : SweepState) (l : list Segment),
    sweepLoop fuel rect segs st = Returned l ->
    (length l + 1 <= length (res st) + fuel)%nat.
Proof.
  induction fuel as [| fuel IH]; intros st l Hrun; [discriminate |].
  rewrite sweepLoop_S in Hrun.
  destruct (forward st || isContinue st).
  - destruct (sweepBody rect segs st) as [st' | f] eqn:Hbody; [| discriminate].
    specialize (IH st' l Hrun).
    destruct (sweepBody_result rect segs st st' Hbody)
      as [(p & q & _ & _ & _ & ->) | [(_ & _ & ->) | (_ & ->)]];
      cbn [advancedState reversedState res] in IH;
      try rewrite length_app in IH; cbn [length] in IH; lia.
  - injection Hrun as <-. lia.
Qed.

(** X12.  The number of segments that [generateHatch] returns is below the
    number of evaluations of the loop condition: every round appends at
    most one segment and the last evaluation appends none. *)
Theorem generateHatch_output_size (sin cos : Q -> Q) (M_PI : Q)
    (fuel : nat) (rect : Rectangle) (angle step : Q) (l : list Segment) :
  generateHatch sin cos M_PI fuel rect angle step = Returned l ->
  (length l < fuel)%nat.
Proof.
  intro Hrun. unfold generateHatch in Hrun. cbv zeta in Hrun.
  pose proof (sweepLoop_length rect _ fuel _ l Hrun) as H.
  cbn [initialState res length] in H. lia.
Qed.







(** ** Runs of [generateHatch] in binary64 *)

(** X16.  The number of hatch lines depends on rounding.  On the unit square
    with angle 0 and the step 0.1 (the [double] 0x1.999999999999ap-4)
    [generateHatch] returns ten segments in binary64: the probe point
    reaches y = 1 - 2^-53 in the tenth round, just below the top edge.  In
    exact arithmetic, on the same square and the same step, it returns
    nine. *)
Theorem generateHatch_count_depends_on_rounding :
  (forall k : nat,
      binary64.generateHatch sin_zero64 cos_zero64 M_PI_double64 (14 + k)
                             unitSquare64 binary64.zero tenth64
      = Returned unitSquareHatch64)
  /\ length unitSquareHatch64 = 10%nat
  /\ binary64.p_y (binary64.s_a (nth 9 unitSquareHatch64 baseEdge64))
     = binary64.double_of (2 ^ 53 - 1) (-53)
  /\ (forall k : nat,
         generateHatch sin_zero cos_zero M_PI_double (13 + k)
                       unitSquare 0 tenthExact
         = Returned unitSquareHatch)
  /\ length unitSquareHatch = 9%nat.
Proof.
  split; [| split; [| split; [| split]]].
  - intro k. unfold binary64.generateHatch. cbv zeta.
    rewrite (sweepLoop64_more_fuel _ _ 14 (14 + k)); [| lia |].
    + vm_compute. reflexivity.
    + vm_compute. discriminate.
  - reflexivity.
  - vm_compute. reflexivity.
  - intro k. unfold generateHatch. cbv zeta.
    rewrite (sweepLoop_more_fuel _ _ 13 (13 + k)); [| lia |].
    + vm_compute. reflexivity.
    + vm_compute. discriminate.
  - reflexivity.
Qed.

(** At a zero angle the offset vector is [(0, 1) * step]. *)
Lemma hatchNormOf64_zero (sin cos : binary64.double -> binary64.double)
    (step : binary64.double) :
  sin binary64.zero = binary64.zero ->
  cos binary64.zero = binary64.double_of 1 0 ->
  binary64.hatchNormOf sin cos M_PI_double64 binary64.zero step
  = binary64.Vector_scale unitUp step.
Proof.
  intros Hsin Hcos. unfold binary64.hatchNormOf. cbv zeta.
  replace (binary64.div (binary64.mul binary64.zero M_PI_double64)
                        (binary64.double_of 180 0))
    with binary64.zero by (vm_compute; reflexivity).
  rewrite Hsin, Hcos. reflexivity.
Qed.

(** With the probe point at (0, 2^53) and the offset (0, 1), one round of
    the loop emits a segment and leaves the probe point where it is:
    2^53 + 1 rounds to 2^53. *)
Lemma stuckState_step (res : list binary64.Segment) :
  binary64.sweepBody tallRectangle (binary64.toSegments tallRectangle)
                     (stuckState res)
  = Ok (stuckState (res ++ [tallStuck])).
Proof. vm_compute. reflexivity. Qed.

Lemma stuckState_loops (fuel : nat) :
  forall res : list binary64.Segment,
    binary64.sweepLoop fuel tallRectangle (binary64.toSegments tallRectangle)
                       (stuckState res)
    = OutOfFuel.
Proof.
  induction fuel as [| fuel IH]; intro res; [reflexivity |].
  rewrite sweepLoop64_S. cbn [stuckState binary64.forward orb].
  change (binary64.mkSweepState unitUp (point64 0 0 (2 ^ 53) 0) res
                                true true false)
    with (stuckState res).
  rewrite stuckState_step. apply IH.
Qed.

Lemma tallRectangle_reaches_stuckState :
  binary64.sweepBody tallRectangle (binary64.toSegments tallRectangle)
    (binary64.initialState tallRectangle
       (binary64.Vector_scale unitUp (binary64.double_of 1 0)))
  = Ok (binary64.mkSweepState unitUp (point64 0 0 (2 ^ 53 - 1) 0) []
                              true false false)
  /\ binary64.sweepBody tallRectangle (binary64.toSegments tallRectangle)
       (binary64.mkSweepState unitUp (point64 0 0 (2 ^ 53 - 1) 0) []
                              true false false)
     = Ok (stuckState [tallFirst]).
Proof. split; vm_compute; reflexivity. Qed.

(** X29.  In binary64 [generateHatch] does not end on the rectangle with
    corners (0, 2^53 - 2), (10, 2^53 - 2), (10, 2^53 + 4), (0, 2^53 + 4) with
    angle 0 and step 1, for [sin] and [cos] exact at a zero angle: from the
    third round on the probe point stays at (0, 2^53), because 2^53 + 1
    rounds to 2^53, and every round appends the same segment.  No number of
    evaluations of the loop condition is enough. *)
Theorem generateHatch_never_ends
    (sin cos : binary64.double -> binary64.double) :
  sin binary64.zero = binary64.zero ->
  cos binary64.zero = binary64.double_of 1 0 ->
  forall fuel : nat,
    binary64.generateHatch sin cos M_PI_double64 fuel tallRectangle
                           binary64.zero (binary64.double_of 1 0)
    = OutOfFuel.
Proof.
  intros Hsin Hcos fuel. unfold binary64.generateHatch. cbv zeta.
  rewrite (hatchNormOf64_zero sin cos _ Hsin Hcos).
  destruct tallRectangle_reaches_stuckState as [H1 H2].
  destruct fuel as [| [| fuel]]; [reflexivity | |].
  - rewrite sweepLoop64_S. cbn [binary64.initialState binary64.forward orb].
    change (binary64.mkSweepState ?n (binary64.points_at tallRectangle 0) []
                                  true false true)
      with (binary64.initialState tallRectangle n).
    rewrite H1. reflexivity.
  - rewrite sweepLoop64_S. cbn [binary64.initialState binary64.forward orb].
    change (binary64.mkSweepState ?n (binary64.points_at tallRectangle 0) []
                                  true false true)
      with (binary64.initialState tallRectangle n).
    rewrite H1. rewrite sweepLoop64_S. cbn [binary64.forward orb].
    rewrite H2. apply stuckState_loops.
Qed.

Lemma generateHatch_never_ends_witness :
  binary64.generateHatch sin_zero64 cos_zero64 M_PI_double64 1000 tallRectangle
                         binary64.zero (binary64.double_of 1 0)
  = OutOfFuel.
Proof.
  apply (generateHatch_never_ends sin_zero64 cos_zero64); reflexivity.
Defined.

(** ** The renderer *)

Lemma growBox_folds (segs : list Segment) :
  forall b : svg.Box,
    fold_left svg.growBox segs b
    = svg.mkBox (fold_left std_min (xCoords segs) (svg.minX b))
                (fold_left std_min (yCoords segs) (svg.minY b))
                (fold_left std_max (xCoords segs) (svg.maxX b))
                (fold_left std_max (yCoords segs) (svg.maxY b)).
Proof.
  induction segs as [| s segs IH]; intro b.
  - destruct b. reflexivity.
  - cbn [fold_left xCoords yCoords flat_map app]. rewrite IH. reflexivity.
Qed.

Lemma entries_folds (fs : list (svg.LineFormat * list Segment)) :
  forall b : svg.Box,
    fold_left (fun b0 (pair : svg.LineFormat * list Segment) =>
                 fold_left svg.growBox (snd pair) b0) fs b
    = svg.mkBox (fold_left std_min (xCoords (flat_map snd fs)) (svg.minX b))
                (fold_left std_min (yCoords (flat_map snd fs)) (svg.minY b))
                (fold_left std_max (xCoords (flat_map snd fs)) (svg.maxX b))
                (fold_left std_max (yCoords (flat_map snd fs)) (svg.maxY b)).
Proof.
  induction fs as [| [k v] fs IH]; intro b.
  - destruct b. reflexivity.
  - cbn [fold_left flat_map snd]. rewrite IH, growBox_folds.
    cbn [svg.minX svg.minY svg.maxX svg.maxY].
    unfold xCoords, yCoords. rewrite !flat_map_app, !fold_left_app.
    reflexivity.
Qed.

Lemma boundingBox_folds (w : svg.SVGWriter) :
  svg.boundingBox w
  = svg.mkBox (fold_left std_min (xCoords (allSegments w)) svg.DBL_MAX)
              (fold_left std_min (yCoords (allSegments w)) svg.DBL_MAX)
              (fold_left std_max (xCoords (allSegments w)) svg.DBL_MIN)
              (fold_left std_max (yCoords (allSegments w)) svg.DBL_MIN).
Proof. unfold svg.boundingBox, allSegments. apply entries_folds. Qed.

Lemma fold_min_spec (l : list Q) :
  forall init : Q,
    let m := fold_left std_min l init in
    m <= init /\ (forall x, In x l -> m <= x) /\ (m = init \/ In m l).
Proof.
  induction l as [| y l IH]; intro init; cbn [fold_left].
  - split; [lra |]. split; [contradiction | left; reflexivity].
  - destruct (IH (std_min init y)) as (H1 & H2 & H3).
    assert (Hm : std_min init y <= init /\ std_min init y <= y
                 /\ (std_min init y = init \/ std_min init y = y)).
    { unfold std_min. destruct (Qltb y init) eqn:E.
      - apply Qltb_lt in E. repeat split; try lra. right. reflexivity.
      - apply Qltb_ge in E. repeat split; try lra. left. reflexivity. }
    destruct Hm as (Ha & Hb & Hc).
    split; [lra |]. split.
    + intros x [<- | Hx]; [lra | apply H2, Hx].
    + destruct H3 as [H3 | H3].
      * destruct Hc as [Hc | Hc].
        -- left. congruence.
        -- right. left. congruence.
      * right. right. exact H3.
Qed.

Lemma fold_max_spec (l : list Q) :
  forall init : Q,
    let m := fold_left std_max l init in
    init <= m /\ (forall x, In x l -> x <= m) /\ (m = init \/ In m l).
Proof.
  induction l as [| y l IH]; intro init; cbn [fold_left].
  - split; [lra |]. split; [contradiction | left; reflexivity].
  - destruct (IH (std_max init y)) as (H1 & H2 & H3).
    assert (Hm : init <= std_max init y /\ y <= std_max init y
                 /\ (std_max init y = init \/ std_max init y = y)).
    { unfold std_max. destruct (Qltb init y) eqn:E.
      - apply Qltb_lt in E. repeat split; try lra. right. reflexivity.
      - apply Qltb_ge in E. repeat split; try lra. left. reflexivity. }
    destruct Hm as (Ha & Hb & Hc).
    split; [lra |]. split.
    + intros x [<- | Hx]; [lra | apply H2, Hx].
    + destruct H3 as [H3 | H3].
      * destruct Hc as [Hc | Hc].
        -- left. congruence.
        -- right. left. congruence.
      * right. right. exact H3.
Qed.

Lemma endpoint_coords (s : Segment) (segs : list Segment) :
  In s segs ->
  In (p_x (s_a s)) (xCoords segs) /\ In (p_x (s_b s)) (xCoords segs)
  /\ In (p_y (s_a s)) (yCoords segs) /\ In (p_y (s_b s)) (yCoords segs).
Proof.
  intro Hs. unfold xCoords, yCoords. rewrite !in_flat_map.
  repeat split; exists s; (split; [exact Hs |]); cbn; auto.
Qed.

(** X17.  Both endpoints of every stored segment lie in the bounding box
    that [draw] computes. *)
Theorem boundingBox_contains_every_segment (w : svg.SVGWriter) (s : Segment) :
  In s (allSegments w) ->
  let b := svg.boundingBox w in
  (svg.minX b <= p_x (s_a s) <= svg.maxX b)
  /\ (svg.minX b <= p_x (s_b s) <= svg.maxX b)
  /\ (svg.minY b <= p_y (s_a s) <= svg.maxY b)
  /\ (svg.minY b <= p_y (s_b s) <= svg.maxY b).
Proof.
  intros Hs b. unfold b. rewrite boundingBox_folds.
  cbn [svg.minX svg.minY svg.maxX svg.maxY].
  destruct (endpoint_coords s _ Hs) as (Hax & Hbx & Hay & Hby).
  destruct (fold_min_spec (xCoords (allSegments w)) svg.DBL_MAX)
    as (_ & Hminx & _).
  destruct (fold_min_spec (yCoords (allSegments w)) svg.DBL_MAX)
    as (_ & Hminy & _).
  destruct (fold_max_spec (xCoords (allSegments w)) svg.DBL_MIN)
    as (_ & Hmaxx & _).
  destruct (fold_max_spec (yCoords (allSegments w)) svg.DBL_MIN)
    as (_ & Hmaxy & _).
  repeat split; auto.
Qed.


Lemma fold_min_least (l : list Q) (init : Q) :
  (exists x, In x l /\ x <= init) ->
  isLeast (fold_left std_min l init) l.
Proof.
  intros (x0 & Hx0 & Hle).
  destruct (fold_min_spec l init) as (H1 & H2 & H3).
  split; [| exact H2].
  destruct H3 as [H3 | H3].
  - exists x0. split; [exact Hx0 |].
    specialize (H2 x0 Hx0). rewrite H3 in *. lra.
  - exists (fold_left std_min l init). split; [exact H3 | reflexivity].
Qed.

Lemma fold_max_greatest (l : list Q) (init : Q) :
  (exists x, In x l /\ init <= x) ->
  isGreatest (fold_left std_max l init) l.
Proof.
  intros (x0 & Hx0 & Hle).
  destruct (fold_max_spec l init) as (H1 & H2 & H3).
  split; [| exact H2].
  destruct H3 as [H3 | H3].
  - exists x0. split; [exact Hx0 |].
    specialize (H2 x0 Hx0). rewrite H3 in *. lra.
  - exists (fold_left std_max l init). split; [exact H3 | reflexivity].
Qed.

(** X18.  When some stored coordinate is at most [DBL_MAX] on each axis, [minX]
    and [minY] are the least stored coordinates; [maxX] (and likewise
    [maxY]) is the greatest one as soon as some stored coordinate of that
    axis is at least [DBL_MIN]. *)
Theorem boundingBox_exact (w : svg.SVGWriter) :
  (exists x, In x (xCoords (allSegments w)) /\ x <= svg.DBL_MAX) ->
  (exists y, In y (yCoords (allSegments w)) /\ y <= svg.DBL_MAX) ->
  isLeast (svg.minX (svg.boundingBox w)) (xCoords (allSegments w))
  /\ isLeast (svg.minY (svg.boundingBox w)) (yCoords (allSegments w))
  /\ ((exists x, In x (xCoords (allSegments w)) /\ svg.DBL_MIN <= x) ->
      isGreatest (svg.maxX (svg.boundingBox w)) (xCoords (allSegments w)))
  /\ ((exists y, In y (yCoords (allSegments w)) /\ svg.DBL_MIN <= y) ->
      isGreatest (svg.maxY (svg.boundingBox w)) (yCoords (allSegments w))).
Proof.
  intros Hx Hy. rewrite boundingBox_folds.
  cbn [svg.minX svg.minY svg.maxX svg.maxY].
  split; [exact (fold_min_least _ _ Hx) |].
  split; [exact (fold_min_least _ _ Hy) |].
  split; apply fold_max_greatest.
Qed.

Lemma fold_min_same_elements (l1 l2 : list Q) (init : Q) :
  (forall x, In x l1 <-> In x l2) ->
  fold_left std_min l1 init == fold_left std_min l2 init.
Proof.
  intro H.
  destruct (fold_min_spec l1 init) as (A1 & A2 & A3).
  destruct (fold_min_spec l2 init) as (B1 & B2 & B3).
  apply Qle_antisym.
  - destruct B3 as [-> | B3]; [exact A1 | apply A2, H, B3].
  - destruct A3 as [-> | A3]; [exact B1 | apply B2, H, A3].
Qed.

Lemma fold_max_same_elements (l1 l2 : list Q) (init : Q) :
  (forall x, In x l1 <-> In x l2) ->
  fold_left std_max l1 init == fold_left std_max l2 init.
Proof.
  intro H.
  destruct (fold_max_spec l1 init) as (A1 & A2 & A3).
  destruct (fold_max_spec l2 init) as (B1 & B2 & B3).
  apply Qle_antisym.
  - destruct A3 as [-> | A3]; [exact B1 | apply B2, H, A3].
  - destruct B3 as [-> | B3]; [exact A1 | apply A2, H, B3].
Qed.

Lemma coords_same_elements (segs1 segs2 : list Segment) :
  (forall s, In s segs1 <-> In s segs2) ->
  (forall x, In x (xCoords segs1) <-> In x (xCoords segs2))
  /\ (forall y, In y (yCoords segs1) <-> In y (yCoords segs2)).
Proof.
  intro H. unfold xCoords, yCoords.
  split; intro x; rewrite !in_flat_map; split;
    intros (s & Hs & Hx); exists s; (split; [apply H, Hs | exact Hx]).
Qed.

Lemma std_min_proper (a a' b b' : Q) :
  a == a' -> b == b' -> std_min a b == std_min a' b'.
Proof.
  intros Ha Hb. unfold std_min.
  rewrite (Qltb_proper b b' a a' Hb Ha).
  destruct (Qltb b' a'); assumption.
Qed.

(** X19.  The bounding box and the scale of [draw] do not depend on the order
    in which the iteration visits the entries of the map. *)
Theorem boundingBox_ignores_iteration_order (w1 w2 : svg.SVGWriter) :
  Permutation (svg.formatSegments w1) (svg.formatSegments w2) ->
  svg.width w1 == svg.width w2 ->
  svg.height w1 == svg.height w2 ->
  svg.minX (svg.boundingBox w1) == svg.minX (svg.boundingBox w2)
  /\ svg.minY (svg.boundingBox w1) == svg.minY (svg.boundingBox w2)
  /\ svg.maxX (svg.boundingBox w1) == svg.maxX (svg.boundingBox w2)
  /\ svg.maxY (svg.boundingBox w1) == svg.maxY (svg.boundingBox w2)
  /\ svg.scaleOf w1 == svg.scaleOf w2.
Proof.
  intros Hperm Hw Hh.
  assert (Hsegs : forall s, In s (allSegments w1) <-> In s (allSegments w2)).
  { intro s. unfold allSegments. rewrite !in_flat_map.
    split; intros (e & He & Hs); exists e; (split; [| exact Hs]).
    - exact (Permutation_in _ Hperm He).
    - exact (Permutation_in _ (Permutation_sym Hperm) He). }
  destruct (coords_same_elements _ _ Hsegs) as [Hxs Hys].
  assert (Hbox :
    svg.minX (svg.boundingBox w1) == svg.minX (svg.boundingBox w2)
    /\ svg.minY (svg.boundingBox w1) == svg.minY (svg.boundingBox w2)
    /\ svg.maxX (svg.boundingBox w1) == svg.maxX (svg.boundingBox w2)
    /\ svg.maxY (svg.boundingBox w1) == svg.maxY (svg.boundingBox w2)).
  { rewrite !boundingBox_folds. cbn [svg.minX svg.minY svg.maxX svg.maxY].
    repeat split;
      auto using fold_min_same_elements, fold_max_same_elements. }
  destruct Hbox as (E1 & E2 & E3 & E4).
  repeat split; try assumption.
  unfold svg.scaleOf. cbv zeta.
  apply std_min_proper; [rewrite Hw, E1, E3 | rewrite Hh, E2, E4];
    reflexivity.
Qed.




Lemma LineFormat_eqb_eq (a b : svg.LineFormat) :
  svg.LineFormat_eqb a b = true <-> a = b.
Proof. destruct a, b; cbn; split; intro H; congruence. Qed.

Lemma insertAtKey_find_same (fs : list (svg.LineFormat * list Segment))
    (lf : svg.LineFormat) (segments : list Segment) :
  find (fun e => svg.LineFormat_eqb (fst e) lf)
       (svg.insertAtKey fs lf segments)
  = Some (lf,
          match find (fun e => svg.LineFormat_eqb (fst e) lf) fs with
          | Some e => snd e
          | None => []
          end ++ segments).
Proof.
  induction fs as [| [k v] fs IH]; cbn [svg.insertAtKey find fst snd].
  - assert (E : svg.LineFormat_eqb lf lf = true)
      by (apply LineFormat_eqb_eq; reflexivity).
    rewrite E. reflexivity.
  - destruct (svg.LineFormat_eqb k lf) eqn:E; cbn [find fst snd]; rewrite E.
    + apply LineFormat_eqb_eq in E. subst k. reflexivity.
    + exact IH.
Qed.

Lemma insertAtKey_find_other (fs : list (svg.LineFormat * list Segment))
    (lf lf' : svg.LineFormat) (segments : list Segment) :
  lf' <> lf ->
  find (fun e => svg.LineFormat_eqb (fst e) lf')
       (svg.insertAtKey fs lf segments)
  = find (fun e => svg.LineFormat_eqb (fst e) lf') fs.
Proof.
  intro Hne.
  assert (Hlf : svg.LineFormat_eqb lf lf' = false).
  { destruct (svg.LineFormat_eqb lf lf') eqn:E; [| reflexivity].
    apply LineFormat_eqb_eq in E. congruence. }
  induction fs as [| [k v] fs IH]; cbn [svg.insertAtKey find fst snd].
  - rewrite Hlf. reflexivity.
  - destruct (svg.LineFormat_eqb k lf) eqn:E; cbn [find fst snd].
    + apply LineFormat_eqb_eq in E. subst k. rewrite Hlf. reflexivity.
    + rewrite IH. reflexivity.
Qed.

Lemma insertAtKey_keys (fs : list (svg.LineFormat * list Segment))
    (lf : svg.LineFormat) (segments : list Segment) :
  map fst (svg.insertAtKey fs lf segments)
  = if existsb (fun k => svg.LineFormat_eqb k lf) (map fst fs)
    then map fst fs else map fst fs ++ [lf].
Proof.
  induction fs as [| [k v] fs IH]; cbn [svg.insertAtKey map fst existsb];
    [reflexivity |].
  destruct (svg.LineFormat_eqb k lf) eqn:E; cbn [map fst orb];
    [reflexivity |].
  rewrite IH.
  destruct (existsb (fun k0 => svg.LineFormat_eqb k0 lf) (map fst fs));
    reflexivity.
Qed.

(** X21.  [drawSegments] appends its segments to the vector of its tag,
    leaves the vector of the other tag, the canvas sizes and the uniqueness
    of the keys as they are. *)
Theorem drawSegments_appends_under_its_tag (w : svg.SVGWriter)
    (segments : list Segment) (lf : svg.LineFormat) :
  segmentsOf (svg.drawSegments w segments lf) lf
    = segmentsOf w lf ++ segments
  /\ (forall lf', lf' <> lf ->
        segmentsOf (svg.drawSegments w segments lf) lf' = segmentsOf w lf')
  /\ (NoDup (map fst (svg.formatSegments w)) ->
      NoDup (map fst (svg.formatSegments (svg.drawSegments w segments lf))))
  /\ svg.width (svg.drawSegments w segments lf) = svg.width w
  /\ svg.height (svg.drawSegments w segments lf) = svg.height w.
Proof.
  unfold segmentsOf, svg.drawSegments. cbn [svg.formatSegments].
  split; [| split; [| split; [| split; reflexivity]]].
  - rewrite insertAtKey_find_same. reflexivity.
  - intros lf' Hne. rewrite (insertAtKey_find_other _ lf lf' _ Hne).
    reflexivity.
  - intro Hnd. rewrite insertAtKey_keys.
    destruct (existsb (fun k => svg.LineFormat_eqb k lf)
                (map fst (svg.formatSegments w))) eqn:E; [exact Hnd |].
    apply NoDup_app; [exact Hnd | repeat constructor; intros [] |].
    intros k Hk [Ek | []]. subst k.
    assert (Hex : existsb (fun k0 => svg.LineFormat_eqb k0 lf)
                    (map fst (svg.formatSegments w)) = true).
    { apply existsb_exists. exists lf. split; [exact Hk |].
      apply LineFormat_eqb_eq. reflexivity. }
    congruence.
Qed.

(** X22.  Two [drawSegments] calls with the same tag give the writer that
    one call with the concatenated segments gives. *)
Theorem drawSegments_twice (w : svg.SVGWriter) (s1 s2 : list Segment)
    (lf : svg.LineFormat) :
  svg.drawSegments (svg.drawSegments w s1 lf) s2 lf
  = svg.drawSegments w (s1 ++ s2) lf.
Proof.
  unfold svg.drawSegments. cbn [svg.formatSegments svg.width svg.height].
  f_equal.
  induction (svg.formatSegments w) as [| [k v] fs IH];
    cbn [svg.insertAtKey].
  - assert (E : svg.LineFormat_eqb lf lf = true)
      by (apply LineFormat_eqb_eq; reflexivity).
    rewrite E. reflexivity.
  - destruct (svg.LineFormat_eqb k lf) eqn:E; cbn [svg.insertAtKey];
      rewrite E.
    + rewrite app_assoc. reflexivity.
    + rewrite IH. reflexivity.
Qed.

Lemma draw_length (w : svg.SVGWriter) :
  length (svg.draw w) = length (allSegments w).
Proof.
  unfold svg.draw, allSegments. cbv zeta.
  induction (svg.formatSegments w) as [| [k v] fs IH]; [reflexivity |].
  cbn [flat_map snd]. rewrite !length_app, length_map, IH. reflexivity.
Qed.

Lemma strokeCount_map (lf : svg.LineFormat) (sw : Q)
    (f : Segment -> Q * Q * Q * Q) (segs : list Segment) :
  strokeCount sw
    (map (fun s => svg.mkSvgLine (fst (fst (fst (f s)))) (snd (fst (fst (f s))))
                                 (snd (fst (f s))) (snd (f s))
                                 (svg.strokeWidthOf lf)) segs)
  = if Qeq_bool (svg.strokeWidthOf lf) sw then length segs else 0%nat.
Proof.
  unfold strokeCount.
  induction segs as [| s segs IH]; cbn [map filter length svg.stroke_width].
  - destruct (Qeq_bool (svg.strokeWidthOf lf) sw); reflexivity.
  - destruct (Qeq_bool (svg.strokeWidthOf lf) sw) eqn:E;
      cbn [length]; rewrite IH; reflexivity.
Qed.

(** X23.  The writer that [main] fills holds the hatch under [HATCH] and the
    four edges of the rectangle under [CONTOUR]; [draw] emits one line per
    segment, those of the hatch with stroke width 1 and the four of the
    contour with stroke width 2. *)
Theorem main_svg_lines (rect : Rectangle) (hatch : list Segment) :
  segmentsOf (mainWriter rect hatch) svg.HATCH = hatch
  /\ segmentsOf (mainWriter rect hatch) svg.CONTOUR = toSegments rect
  /\ length (svg.draw (mainWriter rect hatch)) = (length hatch + 4)%nat
  /\ strokeCount 1 (svg.draw (mainWriter rect hatch)) = length hatch
  /\ strokeCount 2 (svg.draw (mainWriter rect hatch)) = 4%nat.
Proof.
  split; [reflexivity |]. split; [reflexivity |].
  split.
  - rewrite draw_length. unfold allSegments, mainWriter.
    cbn. rewrite length_app. reflexivity.
  - unfold svg.draw, mainWriter. cbv zeta.
    cbn [svg.drawSegments svg.newWriter svg.formatSegments
         svg.insertAtKey svg.LineFormat_eqb flat_map fst snd app].
    unfold strokeCount. rewrite !app_nil_r, !filter_app, !length_app.
    set (sc := svg.scaleOf _). set (b := svg.boundingBox _).
    pose proof (strokeCount_map svg.HATCH 1
      (fun s => (sc * (p_x (s_a s) - svg.minX b),
                 sc * (- p_y (s_a s) + svg.maxY b),
                 sc * (p_x (s_b s) - svg.minX b),
                 sc * (- p_y (s_b s) + svg.maxY b))) hatch) as H1.
    pose proof (strokeCount_map svg.HATCH 2
      (fun s => (sc * (p_x (s_a s) - svg.minX b),
                 sc * (- p_y (s_a s) + svg.maxY b),
                 sc * (p_x (s_b s) - svg.minX b),
                 sc * (- p_y (s_b s) + svg.maxY b))) hatch) as H2.
    unfold strokeCount in H1, H2. cbn [fst snd] in H1, H2.
    rewrite H1, H2. cbn. split; lia.
Qed.

(** ** Instances *)


Lemma reduceIntersections_keeps_collected_points_witness :
  exists ints,
    reduceIntersections fourOnLine = Ok ints
    /\ length fourOnLine = 4%nat
    /\ incl ints fourOnLine /\ length ints = 2%nat.
Proof.
  exists [mkPoint 1 0; mkPoint 2 0].
  assert (Hr : reduceIntersections fourOnLine
               = Ok [mkPoint 1 0; mkPoint 2 0]) by (vm_compute; reflexivity).
  assert (Hl : length fourOnLine = 4%nat) by reflexivity.
  destruct (proj2 (reduceIntersections_keeps_collected_points fourOnLine)
              _ Hr) as (Hincl & Hlen).
  split; [exact Hr |]. split; [exact Hl |].
  split; [exact Hincl | exact (Hlen Hl)].
Defined.

Lemma drawSegments_appends_under_its_tag_witness :
  svg.CONTOUR <> svg.HATCH
  /\ NoDup (map fst (svg.formatSegments squareWriter))
  /\ segmentsOf (svg.drawSegments squareWriter [midline] svg.HATCH) svg.CONTOUR
     = segmentsOf squareWriter svg.CONTOUR
  /\ NoDup (map fst (svg.formatSegments
                       (svg.drawSegments squareWriter [midline] svg.HATCH))).
Proof.
  assert (Hne : svg.CONTOUR <> svg.HATCH) by discriminate.
  assert (Hnd : NoDup (map fst (svg.formatSegments squareWriter))).
  { cbn. repeat constructor; cbn; intuition discriminate. }
  destruct (drawSegments_appends_under_its_tag squareWriter [midline] svg.HATCH)
    as (_ & Hother & Hkeys & _).
  split; [exact Hne |]. split; [exact Hnd |].
  split; [exact (Hother _ Hne) | exact (Hkeys Hnd)].
Defined.


Lemma generateHatch_output_size_witness :
  exists l,
    generateHatch sin_zero cos_zero M_PI_double 5 square 0 5 = Returned l
    /\ (length l < 5)%nat.
Proof.
  eexists. split.
  - vm_compute. reflexivity.
  - apply (generateHatch_output_size sin_zero cos_zero M_PI_double
             5 square 0 5).
    vm_compute. reflexivity.
Defined.





Lemma midline_stored : In midline (allSegments squareWriter).
Proof. left. reflexivity. Qed.

Lemma boundingBox_contains_every_segment_witness :
  svg.minX (svg.boundingBox squareWriter) <= p_x (s_a midline)
    <= svg.maxX (svg.boundingBox squareWriter).
Proof.
  exact (proj1 (boundingBox_contains_every_segment squareWriter midline
                  midline_stored)).
Defined.

Lemma boundingBox_exact_witness :
  isLeast (svg.minX (svg.boundingBox squareWriter))
          (xCoords (allSegments squareWriter))
  /\ isGreatest (svg.maxX (svg.boundingBox squareWriter))
                (xCoords (allSegments squareWriter)).
Proof.
  assert (Hx : exists x, In x (xCoords (allSegments squareWriter))
                         /\ x <= svg.DBL_MAX).
  { exists 0. split; [left; reflexivity | discriminate]. }
  assert (Hy : exists y, In y (yCoords (allSegments squareWriter))
                         /\ y <= svg.DBL_MAX).
  { exists 5. split; [left; reflexivity | discriminate]. }
  assert (Hbig : exists x, In x (xCoords (allSegments squareWriter))
                           /\ svg.DBL_MIN <= x).
  { exists 10. split; [right; left; reflexivity | discriminate]. }
  destruct (boundingBox_exact squareWriter Hx Hy) as (H1 & _ & H3 & _).
  split; [exact H1 | exact (H3 Hbig)].
Defined.

Lemma squareWriter_entries_permuted :
  Permutation (svg.formatSegments squareWriter)
              (svg.formatSegments squareWriterSwapped).
Proof. apply perm_swap. Qed.

Lemma boundingBox_ignores_iteration_order_witness :
  svg.scaleOf squareWriter == svg.scaleOf squareWriterSwapped.
Proof.
  apply (boundingBox_ignores_iteration_order squareWriter squareWriterSwapped
           squareWriter_entries_permuted); reflexivity.
Defined.


(** ** The command line *)

Module cmdline_parser_facts.
Import String cmdline_parser cmdline_args.

Section Stod.
Variable stod : string -> option Q.

Lemma argv_at_app (pre l : list string) (i k : nat) :
  i = (List.length pre + k)%nat ->
  argv_at (pre ++ l) i = argv_at l k.
Proof. intros ->. unfold argv_at. apply app_nth2_plus. Qed.

Lemma stod_at_app (pre l : list string) (i k : nat) :
  i = (List.length pre + k)%nat ->
  stod_at stod (pre ++ l) i = stod_at stod l k.
Proof. intro H. unfold stod_at. rewrite (argv_at_app pre l i k H). reflexivity. Qed.

Lemma readPoint_pre (pre l : list string) (j : nat) :
  readPoint stod (pre ++ l) (List.length pre) j = readPoint stod l 0 j.
Proof.
  unfold readPoint.
  rewrite (stod_at_app pre l _ (0 + j * 2 + 1)) by lia.
  rewrite (stod_at_app pre l _ (0 + j * 2 + 2)) by lia.
  reflexivity.
Qed.

Lemma parseLoop_group (fuel : nat) (pre post : list string) (g : group)
    (st : Locals) :
  fresh st g ->
  numbersParse stod g ->
  parseLoop stod (S fuel) (pre ++ render g ++ post) (List.length pre) st
  = parseLoop stod fuel (pre ++ render g ++ post)
              (List.length pre + List.length (render g)) (update stod st g).
Proof.
  intros Hfresh Hnum.
  cbn [parseLoop].
  assert (Hlt : (List.length pre <? List.length (pre ++ render g ++ post))%nat
                = true).
  { apply Nat.ltb_lt. rewrite !length_app. destruct g; cbn; lia. }
  rewrite Hlt.
  rewrite (argv_at_app pre _ (List.length pre) 0) by lia.
  rewrite !readPoint_pre.
  rewrite !(stod_at_app pre _ (List.length pre + 1) 1) by lia.
  rewrite !(argv_at_app pre _ (List.length pre + 1) 1) by lia.
  assert (Hle1 : List.length (render g) = 2%nat ->
                 (List.length (pre ++ render g ++ post)
                  <=? List.length pre + 1)%nat = false).
  { intro H. apply Nat.leb_gt. rewrite !length_app, H. lia. }
  assert (Hle8 : List.length (render g) = 9%nat ->
                 (List.length (pre ++ render g ++ post)
                  <=? List.length pre + 8)%nat = false).
  { intro H. apply Nat.leb_gt. rewrite !length_app, H. lia. }
  destruct g as [x1 y1 x2 y2 x3 y3 x4 y4 | a | s | path];
    [rewrite (Hle8 eq_refl) | rewrite (Hle1 eq_refl) ..];
    clear Hle1 Hle8 Hlt;
    cbn [render app argv_at nth String.eqb Ascii.eqb Bool.eqb
         POINTS_ARG_NAME ANGLE_ARG_NAME STEP_ARG_NAME SVG_ARG_NAME andb];
    cbn [fresh] in Hfresh; rewrite Hfresh; cbn [has_value].
  - unfold readPoint, stod_at, argv_at. cbn [Nat.add Nat.mul nth app].
    cbn [numbersParse rectOf] in Hnum. cbn [update rectOf].
    destruct (stod x1); [| congruence]. destruct (stod y1); [| congruence].
    destruct (stod x2); [| congruence]. destruct (stod y2); [| congruence].
    destruct (stod x3); [| congruence]. destruct (stod y3); [| congruence].
    destruct (stod x4); [| congruence]. destruct (stod y4); [| congruence].
    cbn [bindP List.length]. f_equal. lia.
  - unfold stod_at, argv_at. cbn [nth app].
    cbn [numbersParse angleOf] in Hnum. cbn [update angleOf].
    destruct (stod a); [| congruence].
    cbn [bindP List.length]. f_equal. lia.
  - unfold stod_at, argv_at. cbn [nth app].
    cbn [numbersParse stepOf] in Hnum. cbn [update stepOf].
    destruct (stod s); [| congruence].
    cbn [bindP List.length]. f_equal. lia.
  - unfold argv_at. cbn [nth app update svgOf List.length]. f_equal. lia.
Qed.


Lemma parseLoop_groups (post : list string) :
  forall (gs : list group) (fuel : nat) (pre : list string) (st : Locals),
    acceptable stod st gs ->
    parseLoop stod (List.length gs + fuel)
              (pre ++ flat_map render gs ++ post) (List.length pre) st
    = parseLoop stod fuel (pre ++ flat_map render gs ++ post)
                (List.length pre + List.length (flat_map render gs))
                (fold_left (update stod) gs st).
Proof.
  induction gs as [| g gs IH]; intros fuel pre st Hacc.
  - cbn [flat_map List.length fold_left Nat.add]. f_equal. lia.
  - destruct Hacc as (Hfresh & Hnum & Hacc).
    cbn [flat_map List.length fold_left Nat.add].
    rewrite <- app_assoc.
    rewrite (parseLoop_group _ pre _ g st Hfresh Hnum).
    specialize (IH fuel (pre ++ render g) (update stod st g) Hacc).
    rewrite <- !app_assoc in IH. rewrite length_app in IH.
    rewrite IH. f_equal. rewrite length_app. lia.
Qed.

Lemma render_length (g : group) : (2 <= List.length (render g))%nat.
Proof. destruct g; cbn; lia. Qed.

Lemma flat_render_length (gs : list group) :
  (2 * List.length gs <= List.length (flat_map render gs))%nat.
Proof.
  induction gs as [| g gs IH]; cbn [flat_map List.length]; [lia |].
  rewrite length_app. pose proof (render_length g). lia.
Qed.

(** After well-formed groups the loop stands at the first word behind them,
    with the locals the groups set. *)
Lemma parseLoop_after_groups (prog : string) (gs : list group)
    (post : list string) :
  acceptable stod (mkLocals None None None None) gs ->
  parseLoop stod (S (List.length (prog :: flat_map render gs ++ post)))
            (prog :: flat_map render gs ++ post) 1
            (mkLocals None None None None)
  = parseLoop stod
      (S (List.length (prog :: flat_map render gs ++ post)) - List.length gs)
      (prog :: flat_map render gs ++ post)
      (1 + List.length (flat_map render gs))
      (fold_left (update stod) gs (mkLocals None None None None)).
Proof.
  intro Hacc.
  pose proof (flat_render_length gs) as Hlen.
  set (argv := prog :: flat_map render gs ++ post).
  assert (Hargv : (List.length (flat_map render gs) < List.length argv)%nat).
  { unfold argv. cbn [List.length]. rewrite length_app. lia. }
  replace (S (List.length argv))
    with (List.length gs + (S (List.length argv) - List.length gs))%nat
    at 1 by lia.
  exact (parseLoop_groups post gs _ [prog] _ Hacc).
Qed.


Lemma fresh_after_update (st : Locals) (g g' : group) :
  flagOf g' <> flagOf g -> fresh st g' -> fresh (update stod st g) g'.
Proof.
  destruct g, g'; cbn; intros Hne Hf; try assumption;
    exfalso; apply Hne; reflexivity.
Qed.

Lemma acceptable_of_nodup :
  forall (gs : list group) (st : Locals),
    NoDup (map flagOf gs) ->
    Forall (numbersParse stod) gs ->
    (forall g, In g gs -> fresh st g) ->
    acceptable stod st gs.
Proof.
  induction gs as [| g gs IH]; intros st Hnd Hnum Hfresh; [exact I |].
  cbn [map] in Hnd. inversion Hnd as [| f fs Hnotin Hnd' E]; subst.
  inversion Hnum as [| g0 gs0 Hg Hnum' E]; subst.
  cbn [acceptable]. split; [apply Hfresh; left; reflexivity |].
  split; [exact Hg |].
  apply IH; [exact Hnd' | exact Hnum' |].
  intros g' Hg'. apply fresh_after_update.
  - intro E. apply Hnotin. rewrite <- E. apply in_map. exact Hg'.
  - apply Hfresh. right. exact Hg'.
Qed.

Lemma pick_none {A : Type} (f : group -> option A) (flag : string)
    (gs : list group) :
  (forall g, f g <> None -> flagOf g = flag) ->
  ~ In flag (map flagOf gs) ->
  pick f gs = None.
Proof.
  intros Hf Hnotin. induction gs as [| g gs IH]; [reflexivity |].
  cbn [pick]. destruct (f g) eqn:E.
  - exfalso. apply Hnotin. left. apply Hf. congruence.
  - apply IH. intro H. apply Hnotin. right. exact H.
Qed.

Lemma pick_some {A : Type} (f : group -> option A) (flag : string)
    (gs : list group) :
  (forall g, In g gs -> flagOf g = flag -> f g <> None) ->
  In flag (map flagOf gs) ->
  pick f gs <> None.
Proof.
  intros Hf Hin. induction gs as [| g gs IH]; [contradiction |].
  cbn [pick]. destruct (f g) eqn:E; [discriminate |].
  destruct Hin as [Hin | Hin].
  - exfalso. exact (Hf g (or_introl eq_refl) Hin E).
  - apply IH; [| exact Hin]. intros g' Hg'. apply Hf. right. exact Hg'.
Qed.

Lemma locals_after_groups :
  forall (gs : list group) (st : Locals),
    NoDup (map flagOf gs) ->
    Forall (numbersParse stod) gs ->
    fold_left (update stod) gs st
    = mkLocals (orElse (pick (rectOf stod) gs) (l_rect st))
               (orElse (pick (angleOf stod) gs) (l_angle st))
               (orElse (pick (stepOf stod) gs) (l_step st))
               (orElse (pick svgOf gs) (l_svg st)).
Proof.
  induction gs as [| g gs IH]; intros st Hnd Hnum.
  - destruct st. reflexivity.
  - cbn [map] in Hnd. inversion Hnd as [| f fs Hnotin Hnd' E]; subst.
    inversion Hnum as [| g0 gs0 Hg Hnum' E]; subst.
    cbn [fold_left]. rewrite (IH _ Hnd' Hnum').
    destruct g as [x1 y1 x2 y2 x3 y3 x4 y4 | a | s | path];
      cbn [pick angleOf stepOf svgOf rectOf update l_rect l_angle l_step l_svg].
    + rewrite (pick_none (rectOf stod) POINTS_ARG_NAME gs); [| | exact Hnotin].
      * cbn [orElse numbersParse] in *.
        destruct (rectOf stod (GPoints x1 y1 x2 y2 x3 y3 x4 y4)) eqn:E;
          [| congruence].
        cbn [rectOf] in E. rewrite E. reflexivity.
      * intros g Hgne. destruct g; cbn in *; congruence.
    + rewrite (pick_none (angleOf stod) ANGLE_ARG_NAME gs); [| | exact Hnotin].
      * cbn [orElse numbersParse angleOf] in *.
        destruct (stod a); [reflexivity | congruence].
      * intros g Hgne. destruct g; cbn in *; congruence.
    + rewrite (pick_none (stepOf stod) STEP_ARG_NAME gs); [| | exact Hnotin].
      * cbn [orElse numbersParse stepOf] in *.
        destruct (stod s); [reflexivity | congruence].
      * intros g Hgne. destruct g; cbn in *; congruence.
    + rewrite (pick_none svgOf SVG_ARG_NAME gs); [| | exact Hnotin].
      * reflexivity.
      * intros g Hgne. destruct g; cbn in *; congruence.
Qed.

Lemma acceptable_from_start (gs : list group) :
  NoDup (map flagOf gs) ->
  Forall (numbersParse stod) gs ->
  acceptable stod (mkLocals None None None None) gs.
Proof.
  intros Hnd Hnum. apply acceptable_of_nodup; try assumption.
  intros g _. destruct g; reflexivity.
Qed.

(** X24.  [parse] accepts the flags in any order: for groups of a flag and
    its values in which no flag occurs twice and [stod] accepts every
    number, it returns the rectangle, angle and step of the [--points],
    [--angle] and [--step] groups and the path of the [--svg] group, if
    there is one. *)
Theorem parse_accepts_any_order (prog : string) (gs : list group)
    (r : Rectangle) (a s : Q) :
  NoDup (map flagOf gs) ->
  Forall (numbersParse stod) gs ->
  pick (rectOf stod) gs = Some r ->
  pick (angleOf stod) gs = Some a ->
  pick (stepOf stod) gs = Some s ->
  parse stod (prog :: flat_map render gs)
  = Parsed (mkConfig r a s (pick svgOf gs)).
Proof.
  intros Hnd Hnum Hr Ha Hs. unfold parse.
  pose proof (parseLoop_after_groups prog gs []
                (acceptable_from_start gs Hnd Hnum)) as Hloop.
  rewrite app_nil_r in Hloop. rewrite Hloop.
  rewrite (locals_after_groups gs _ Hnd Hnum), Hr, Ha, Hs.
  cbn [orElse l_rect l_angle l_step l_svg].
  pose proof (flat_render_length gs) as Hlen.
  cbn [List.length].
  destruct (S (S (List.length (flat_map render gs))) - List.length gs)%nat
    as [| fuel] eqn:Hfuel; [lia |].
  cbn [parseLoop List.length Nat.add].
  rewrite Nat.ltb_irrefl. cbn [bindP l_rect l_angle l_step l_svg].
  destruct (pick svgOf gs); reflexivity.
Qed.


(** The loop behind well-formed groups, at a further word [w]. *)
Lemma parse_at_word (prog : string) (gs : list group) (w : string)
    (rest : list string) :
  NoDup (map flagOf gs) ->
  Forall (numbersParse stod) gs ->
  let argv := prog :: flat_map render gs ++ w :: rest in
  let i := (1 + List.length (flat_map render gs))%nat in
  exists fuel,
    parseLoop stod (S (List.length argv)) argv 1 (mkLocals None None None None)
    = parseLoop stod (S fuel) argv i
        (mkLocals (pick (rectOf stod) gs) (pick (angleOf stod) gs)
                  (pick (stepOf stod) gs) (pick svgOf gs))
    /\ (i <? List.length argv)%nat = true
    /\ argv_at argv i = w
    /\ List.length argv = (i + 1 + List.length rest)%nat.
Proof.
  intros Hnd Hnum argv i.
  pose proof (parseLoop_after_groups prog gs (w :: rest)
                (acceptable_from_start gs Hnd Hnum)) as Hloop.
  fold argv in Hloop. fold i in Hloop.
  rewrite (locals_after_groups gs _ Hnd Hnum) in Hloop.
  cbn [l_rect l_angle l_step l_svg] in Hloop.
  assert (Hor : forall A (o : option A), orElse o None = o)
    by (intros A o; destruct o; reflexivity).
  rewrite !Hor in Hloop.
  pose proof (flat_render_length gs) as Hlen.
  assert (Hargv : List.length argv = (i + 1 + List.length rest)%nat).
  { unfold argv, i. cbn [List.length]. rewrite length_app. cbn [List.length].
    lia. }
  exists (List.length argv - List.length gs)%nat.
  replace (S (List.length argv - List.length gs))
    with (S (List.length argv) - List.length gs)%nat by (unfold i in Hargv; lia).
  split; [exact Hloop |]. split; [apply Nat.ltb_lt; lia |].
  split; [| exact Hargv].
  unfold argv_at, argv, i. cbn [Nat.add nth]. apply nth_middle.
Qed.

(** X25.  A flag that follows well-formed groups among which it already
    occurs makes [parse] throw [invalid_argument] with the message of that
    flag (the one of [--angle] lacks the space after the flag). *)
Theorem parse_rejects_repeated_flag (prog : string) (gs : list group)
    (g : group) (rest : list string) :
  NoDup (map flagOf gs) ->
  Forall (numbersParse stod) gs ->
  In (flagOf g) (map flagOf gs) ->
  parse stod (prog :: flat_map render gs ++ render g ++ rest)
  = Thrown (invalid_argument (repeatedMessage g)).
Proof.
  intros Hnd Hnum Hin. unfold parse.
  assert (Hr : render g ++ rest = flagOf g :: tl (render g) ++ rest)
    by (destruct g; reflexivity).
  rewrite Hr.
  destruct (parse_at_word prog gs (flagOf g) (tl (render g) ++ rest) Hnd Hnum)
    as (fuel & -> & Hlt & Hw & _).
  cbn [parseLoop]. rewrite Hlt, Hw.
  rewrite Forall_forall in Hnum.
  destruct g as [x1 y1 x2 y2 x3 y3 x4 y4 | a | s | path];
    cbn [flagOf String.eqb Ascii.eqb Bool.eqb andb l_rect l_angle l_step l_svg
         POINTS_ARG_NAME ANGLE_ARG_NAME STEP_ARG_NAME SVG_ARG_NAME].
  - destruct (pick (rectOf stod) gs) eqn:E; [reflexivity |].
    exfalso. revert E. apply (pick_some _ POINTS_ARG_NAME); [| exact Hin].
    intros g' Hg' Hf. specialize (Hnum g' Hg').
    destruct g'; cbn in Hf; try discriminate Hf. exact Hnum.
  - destruct (pick (angleOf stod) gs) eqn:E; [reflexivity |].
    exfalso. revert E. apply (pick_some _ ANGLE_ARG_NAME); [| exact Hin].
    intros g' Hg' Hf. specialize (Hnum g' Hg').
    destruct g'; cbn in Hf; try discriminate Hf. exact Hnum.
  - destruct (pick (stepOf stod) gs) eqn:E; [reflexivity |].
    exfalso. revert E. apply (pick_some _ STEP_ARG_NAME); [| exact Hin].
    intros g' Hg' Hf. specialize (Hnum g' Hg').
    destruct g'; cbn in Hf; try discriminate Hf. exact Hnum.
  - destruct (pick svgOf gs) eqn:E; [reflexivity |].
    exfalso. revert E. apply (pick_some _ SVG_ARG_NAME); [| exact Hin].
    intros g' Hg' Hf.
    destruct g'; cbn in Hf; try discriminate Hf. discriminate.
Qed.

(** X26.  A word that stands where a flag is expected and is none of the four
    flags makes [parse] throw [invalid_argument] with
    [Unexpected argument: ] and the word. *)
Theorem parse_rejects_unknown_word (prog : string) (gs : list group)
    (w : string) (rest : list string) :
  NoDup (map flagOf gs) ->
  Forall (numbersParse stod) gs ->
  w <> POINTS_ARG_NAME -> w <> ANGLE_ARG_NAME ->
  w <> STEP_ARG_NAME -> w <> SVG_ARG_NAME ->
  parse stod (prog :: flat_map render gs ++ w :: rest)
  = Thrown (invalid_argument ("Unexpected argument: " ++ w)).
Proof.
  intros Hnd Hnum H1 H2 H3 H4. unfold parse.
  destruct (parse_at_word prog gs w rest Hnd Hnum)
    as (fuel & -> & Hlt & Hw & _).
  cbn [parseLoop]. rewrite Hlt, Hw.
  apply String.eqb_neq in H1, H2, H3, H4.
  rewrite H1, H2, H3, H4. reflexivity.
Qed.

(** X27.  A new flag followed by fewer words than it needs (8 for [--points],
    1 for the others) at the end of the command line makes [parse] throw
    [invalid_argument] with the [Expected ...] message of that flag. *)
Theorem parse_rejects_missing_values (prog : string) (gs : list group)
    (g : group) (vals : list string) :
  NoDup (map flagOf gs) ->
  Forall (numbersParse stod) gs ->
  ~ In (flagOf g) (map flagOf gs) ->
  (List.length vals < valuesNeeded g)%nat ->
  parse stod (prog :: flat_map render gs ++ flagOf g :: vals)
  = Thrown (invalid_argument (expectedMessage g)).
Proof.
  intros Hnd Hnum Hnotin Hshort. unfold parse.
  destruct (parse_at_word prog gs (flagOf g) vals Hnd Hnum)
    as (fuel & -> & Hlt & Hw & Hargc).
  cbn [parseLoop]. rewrite Hlt, Hw.
  destruct g as [x1 y1 x2 y2 x3 y3 x4 y4 | a | s | path];
    cbn [flagOf String.eqb Ascii.eqb Bool.eqb andb l_rect l_angle l_step l_svg
         POINTS_ARG_NAME ANGLE_ARG_NAME STEP_ARG_NAME SVG_ARG_NAME];
    cbn [valuesNeeded] in Hshort.
  - rewrite (pick_none (rectOf stod) POINTS_ARG_NAME gs); [| | exact Hnotin].
    + cbn [has_value].
      cbn [flagOf] in Hargc. rewrite Hargc.
      match goal with
      | |- context [(?a <=? ?b)%nat] =>
          replace (a <=? b)%nat with true
            by (symmetry; apply Nat.leb_le; lia)
      end.
      reflexivity.
    + intros g Hgne. destruct g; cbn in *; congruence.
  - rewrite (pick_none (angleOf stod) ANGLE_ARG_NAME gs); [| | exact Hnotin].
    + cbn [has_value].
      cbn [flagOf] in Hargc. rewrite Hargc.
      match goal with
      | |- context [(?a <=? ?b)%nat] =>
          replace (a <=? b)%nat with true
            by (symmetry; apply Nat.leb_le; lia)
      end.
      reflexivity.
    + intros g Hgne. destruct g; cbn in *; congruence.
  - rewrite (pick_none (stepOf stod) STEP_ARG_NAME gs); [| | exact Hnotin].
    + cbn [has_value].
      cbn [flagOf] in Hargc. rewrite Hargc.
      match goal with
      | |- context [(?a <=? ?b)%nat] =>
          replace (a <=? b)%nat with true
            by (symmetry; apply Nat.leb_le; lia)
      end.
      reflexivity.
    + intros g Hgne. destruct g; cbn in *; congruence.
  - rewrite (pick_none svgOf SVG_ARG_NAME gs); [| | exact Hnotin].
    + cbn [has_value].
      cbn [flagOf] in Hargc. rewrite Hargc.
      match goal with
      | |- context [(?a <=? ?b)%nat] =>
          replace (a <=? b)%nat with true
            by (symmetry; apply Nat.leb_le; lia)
      end.
      reflexivity.
    + intros g Hgne. destruct g; cbn in *; congruence.
Qed.


Lemma bindP_cases {A B : Type} (m : parsed A) (k : A -> parsed B)
    (P : parsed B -> Prop) :
  (forall e, m = Thrown e -> P (Thrown e)) ->
  (m = ParseOutOfFuel -> P ParseOutOfFuel) ->
  (forall a, m = Parsed a -> P (k a)) ->
  P (bindP m k).
Proof. intros H1 H2 H3. destruct m; cbn [bindP]; auto. Qed.

Lemma stod_at_not_out (argv : list string) (i : nat) :
  stod_at stod argv i <> ParseOutOfFuel.
Proof. unfold stod_at. destruct (stod (argv_at argv i)); discriminate. Qed.

Lemma readPoint_not_out (argv : list string) (i j : nat) :
  readPoint stod argv i j <> ParseOutOfFuel.
Proof.
  unfold readPoint, stod_at.
  destruct (stod (argv_at argv (i + j * 2 + 1))); cbn [bindP];
    [| discriminate].
  destruct (stod (argv_at argv (i + j * 2 + 2))); cbn [bindP]; discriminate.
Qed.

Lemma loopPost_weaken (argv : list string) (st st1 : Locals)
    (r : parsed Locals) :
  (l_rect st1 <> None -> l_rect st <> None \/ In POINTS_ARG_NAME argv) ->
  (l_angle st1 <> None -> l_angle st <> None \/ In ANGLE_ARG_NAME argv) ->
  (l_step st1 <> None -> l_step st <> None \/ In STEP_ARG_NAME argv) ->
  loopPost argv st1 r -> loopPost argv st r.
Proof.
  intros H1 H2 H3. destruct r as [st' | e |]; cbn [loopPost]; auto.
  intros (A1 & A2 & A3). repeat split; intro H.
  - destruct (A1 H); auto.
  - destruct (A2 H); auto.
  - destruct (A3 H); auto.
Qed.

Lemma parseLoop_post (argv : list string) :
  forall (fuel i : nat) (st : Locals),
    (1 <= fuel)%nat ->
    (List.length argv + 1 <= fuel + i)%nat ->
    loopPost argv st (parseLoop stod fuel argv i st).
Proof.
  induction fuel as [| fuel IH]; intros i st Hfuel Hcover; [lia |].
  cbn [parseLoop].
  destruct (Nat.ltb_spec i (List.length argv)) as [Hlt | Hge].
  2: { cbn [loopPost]. auto. }
  assert (Hin : In (argv_at argv i) argv) by (apply nth_In; exact Hlt).
  destruct (String.eqb_spec (argv_at argv i) POINTS_ARG_NAME) as [Ep | _].
  { rewrite Ep in Hin.
    destruct (has_value (l_rect st)); [exact I |].
    destruct (List.length argv <=? i + 8)%nat; [exact I |].
    repeat (apply bindP_cases;
            [intros; exact I
            | intro Hout; exact (readPoint_not_out _ _ _ Hout)
            | intros ? _]).
    eapply loopPost_weaken; [| | | apply IH; lia];
      cbn [l_rect l_angle l_step]; auto. }
  destruct (String.eqb_spec (argv_at argv i) ANGLE_ARG_NAME) as [Ea | _].
  { rewrite Ea in Hin.
    destruct (has_value (l_angle st)); [exact I |].
    destruct (List.length argv <=? i + 1)%nat; [exact I |].
    apply bindP_cases;
      [intros; exact I
      | intro Hout; exact (stod_at_not_out _ _ Hout)
      | intros ? _].
    eapply loopPost_weaken; [| | | apply IH; lia];
      cbn [l_rect l_angle l_step]; auto. }
  destruct (String.eqb_spec (argv_at argv i) STEP_ARG_NAME) as [Es | _].
  { rewrite Es in Hin.
    destruct (has_value (l_step st)); [exact I |].
    destruct (List.length argv <=? i + 1)%nat; [exact I |].
    apply bindP_cases;
      [intros; exact I
      | intro Hout; exact (stod_at_not_out _ _ Hout)
      | intros ? _].
    eapply loopPost_weaken; [| | | apply IH; lia];
      cbn [l_rect l_angle l_step]; auto. }
  destruct (String.eqb_spec (argv_at argv i) SVG_ARG_NAME) as [Ev | _].
  { destruct (has_value (l_svg st)); [exact I |].
    destruct (List.length argv <=? i + 1)%nat; [exact I |].
    eapply loopPost_weaken; [| | | apply IH; lia];
      cbn [l_rect l_angle l_step]; auto. }
  exact I.
Qed.

(** X28.  [parse] always ends: it throws, or it returns a configuration and
    then [--points], [--angle] and [--step] are all words of [argv]. *)
Theorem parse_returns_only_with_required_flags (argv : list string) :
  (exists e, parse stod argv = Thrown e)
  \/ (exists cfg,
         parse stod argv = Parsed cfg
         /\ In POINTS_ARG_NAME argv
         /\ In ANGLE_ARG_NAME argv
         /\ In STEP_ARG_NAME argv).
Proof.
  unfold parse.
  pose proof (parseLoop_post argv (S (List.length argv)) 1
                (mkLocals None None None None)) as Hpost.
  destruct (parseLoop stod (S (List.length argv)) argv 1
              (mkLocals None None None None)) as [st | e |];
    cbn [bindP loopPost] in *.
  - destruct Hpost as (H1 & H2 & H3); [lia | lia |].
    cbn [l_rect l_angle l_step] in H1, H2, H3.
    destruct (l_rect st) as [r |]; [| left; eexists; reflexivity].
    destruct (l_angle st) as [a |]; [| left; eexists; reflexivity].
    destruct (l_step st) as [s |]; [| left; eexists; reflexivity].
    right. eexists. split; [reflexivity |].
    repeat split.
    + destruct H1 as [H | H]; [discriminate | congruence | exact H].
    + destruct H2 as [H | H]; [discriminate | congruence | exact H].
    + destruct H3 as [H | H]; [discriminate | congruence | exact H].
  - left. eexists. reflexivity.
  - exfalso. apply Hpost; lia.
Qed.

End Stod.

Import cmdline_samples.
Local Open Scope string_scope.

Lemma sampleGroups_flags : NoDup (map flagOf sampleGroups).
Proof.
  repeat constructor; cbn; intuition discriminate.
Qed.

Lemma sampleGroups_numbers : Forall (numbersParse sampleStod) sampleGroups.
Proof. repeat constructor; discriminate. Qed.

Lemma angleGroup_flags : NoDup (map flagOf [GAngle "0"]).
Proof. repeat constructor. intros []. Qed.

Lemma angleGroup_numbers : Forall (numbersParse sampleStod) [GAngle "0"].
Proof. repeat constructor. discriminate. Qed.

Lemma parse_accepts_any_order_witness :
  parse sampleStod ("hatch" :: flat_map render sampleGroups)
  = Parsed (mkConfig square 0 5 None).
Proof.
  exact (parse_accepts_any_order sampleStod "hatch" sampleGroups square 0 5
           sampleGroups_flags sampleGroups_numbers
           eq_refl eq_refl eq_refl).
Defined.

Lemma parse_rejects_repeated_flag_witness :
  parse sampleStod ["hatch"; "--angle"; "0"; "--angle"; "5"]
  = Thrown (invalid_argument "--angleargument gets more then once").
Proof.
  exact (parse_rejects_repeated_flag sampleStod "hatch" [GAngle "0"]
           (GAngle "5") [] angleGroup_flags angleGroup_numbers
           (or_introl eq_refl)).
Defined.

Lemma parse_rejects_unknown_word_witness :
  parse sampleStod ["hatch"; "--angle"; "0"; "--help"]
  = Thrown (invalid_argument "Unexpected argument: --help").
Proof.
  apply (parse_rejects_unknown_word sampleStod "hatch" [GAngle "0"]
           "--help" [] angleGroup_flags angleGroup_numbers);
    discriminate.
Defined.

Lemma parse_rejects_missing_values_witness :
  parse sampleStod ["hatch"; "--angle"; "0"; "--points"; "0"; "0"]
  = Thrown (invalid_argument "Expected <double> x 8 after --points").
Proof.
  apply (parse_rejects_missing_values sampleStod "hatch" [GAngle "0"]
           squareGroup ["0"; "0"] angleGroup_flags angleGroup_numbers).
  - cbn. intuition discriminate.
  - cbn. lia.
Defined.

End cmdline_parser_facts.
